(** * SG Car Advisor: listing extraction and value scoring

    A shallow embedding of [live_search.py] (the fetcher and the per-card
    field extraction) and of [value_model.py] (normalisation, weighted
    score, ranking), followed by the properties the design document states
    about them.

    Conventions of the embedding.
    - Text is [string]; the regular expressions of [live_search.py] are
      values of [Re.regex], run by a backtracking matcher that follows the
      semantics of Python's [re.search] (leftmost match, greedy quantifiers,
      alternatives tried in order).  Characters are ASCII.
    - A pandas [DataFrame] is a row count and an ordered list of named
      columns; the row index is the default [RangeIndex], as it is for
      every frame the fetcher builds.
    - [float64] values are exact rationals ([Q]); [NaN]/[None] is [None].
      The integers the extractor reads are exact in [float64] up to 2^53;
      rounding of the arithmetic on them is left out, and the one constant
      a claim depends on is recomputed in binary64 ([Binary64]).
    - Exceptions are the [Raise] case of [result]; [print] is left out.
    - The two calls into the outside world are parameters: the HTTP
      exchange ([requests.get], with the cards BeautifulSoup selects from
      the answer) and numpy's [argsort], of which [sort_values] uses the
      default kind.  [argsort_stable] and [Npy.aquicksort] are two such
      routines; both are shown to sort every array
      ([argsort_stable_spec], [NpyFacts.aquicksort_sorts]). *)

From Stdlib Require Import List String Ascii Bool Arith ZArith QArith Qround Qminmax.
From Stdlib Require Import Lia Lqa Permutation Sorted PrimFloat.
Import ListNotations.

Close Scope Q_scope.
Local Open Scope string_scope.

(* ------------------------------------------------------------------ *)
(** ** Characters and the [re] module *)

Module Re.

Definition chars := list ascii.

Definition code (c : ascii) : nat := nat_of_ascii c.

Definition between (lo hi : nat) (c : ascii) : bool :=
  (lo <=? code c)%nat && (code c <=? hi)%nat.

(** [\d] *)
Definition is_digit (c : ascii) : bool := between 48 57 c.

(** [\s]: space, [\t \n \v \f \r] and the separators 28..31. *)
Definition is_space (c : ascii) : bool :=
  (code c =? 32)%nat || between 9 13 c || between 28 31 c.

(** [\w] *)
Definition is_word (c : ascii) : bool :=
  is_digit c || between 65 90 c || between 97 122 c || (code c =? 95)%nat.

Definition lower (c : ascii) : ascii :=
  if between 65 90 c then ascii_of_nat (code c + 32) else c.

(** Patterns.  [Rep lo hi r] is the greedy [r{lo,hi}], with [hi = None]
    for an open upper end: [r*] is [Rep 0 None r], [r+] is [Rep 1 None r],
    [r?] is [Rep 0 (Some 1) r].  [Grp n r] is the [n]-th capturing group;
    a non-capturing [(?:r)] is just [r]. *)
Inductive regex : Type :=
| Lit (c : ascii)
| Cls (p : ascii -> bool)
| Bnd
| Cat (r1 r2 : regex)
| Alt (r1 r2 : regex)
| Rep (lo : nat) (hi : option nat) (r : regex)
| Grp (n : nat) (r : regex).

Definition captures := list (nat * chars).

(** Matcher state: the character just before the cursor (for [\b]), the
    text still to read, and the groups closed so far. *)
Record mstate : Type := MState {
  prev : option ascii;
  rest : chars;
  caps : captures
}.

Definition word_at (o : option ascii) : bool :=
  match o with Some c => is_word c | None => false end.

Definition step_char (ok : ascii -> bool) (st : mstate)
    (k : mstate -> option captures) : option captures :=
  match rest st with
  | [] => None
  | x :: xs => if ok x then k (MState (Some x) xs (caps st)) else None
  end.

Definition lit_ok (ignorecase : bool) (c x : ascii) : bool :=
  if ignorecase then Ascii.eqb (lower c) (lower x) else Ascii.eqb c x.

Definition may_repeat (hi : option nat) (cnt : nat) : bool :=
  match hi with None => true | Some h => (cnt <? h)%nat end.

Definition set_cap (n : nat) (s : chars) (cs : captures) : captures :=
  (n, s) :: filter (fun p => negb (fst p =? n)%nat) cs.

(** Backtracking match of [r] at the cursor, continuing with [k]. *)
Fixpoint run (ic : bool) (r : regex) (st : mstate)
    (k : mstate -> option captures) {struct r} : option captures :=
  match r with
  | Lit c => step_char (lit_ok ic c) st k
  | Cls p => step_char p st k
  | Bnd =>
      if xorb (word_at (prev st)) (word_at (hd_error (rest st)))
      then k st else None
  | Cat r1 r2 => run ic r1 st (fun st' => run ic r2 st' k)
  | Alt r1 r2 =>
      match run ic r1 st k with
      | Some c => Some c
      | None => run ic r2 st k
      end
  | Rep lo hi r' =>
      (fix loop (fuel cnt : nat) (st0 : mstate) {struct fuel} : option captures :=
         let stop := if (lo <=? cnt)%nat then k st0 else None in
         match fuel with
         | O => stop
         | S fuel' =>
             if may_repeat hi cnt then
               match run ic r' st0
                       (fun st1 =>
                          if (List.length (rest st1) <? List.length (rest st0))%nat
                          then loop fuel' (S cnt) st1 else None) with
               | Some c => Some c
               | None => stop
               end
             else stop
         end) (S (List.length (rest st))) 0%nat st
  | Grp n r' =>
      run ic r' st
        (fun st' =>
           let taken := firstn (List.length (rest st) - List.length (rest st')) (rest st) in
           k (MState (prev st') (rest st') (set_cap n taken (caps st'))))
  end.

(** [re.search]: the first start position, left to right, that matches. *)
Fixpoint search_from (ic : bool) (r : regex) (before : option ascii)
    (s : chars) {struct s} : option captures :=
  match run ic r (MState before s []) (fun st => Some (caps st)) with
  | Some c => Some c
  | None =>
      match s with
      | [] => None
      | x :: xs => search_from ic r (Some x) xs
      end
  end.

Definition search (ic : bool) (r : regex) (s : string) : option captures :=
  search_from ic r None (list_ascii_of_string s).

(** [m.group(n)] *)
Fixpoint group (n : nat) (cs : captures) : option string :=
  match cs with
  | [] => None
  | (i, s) :: tl => if (i =? n)%nat then Some (string_of_list_ascii s) else group n tl
  end.

(** Pattern builders. *)
Definition star := Rep 0 None.
Definition plus := Rep 1 None.
Definition opt := Rep 0 (Some 1).
Definition d := Cls is_digit.
Definition s := Cls is_space.

Fixpoint lit_chars (l : chars) : regex :=
  match l with
  | [] => Rep 0 (Some 0) (Cls (fun _ => false))
  | [c] => Lit c
  | c :: tl => Cat (Lit c) (lit_chars tl)
  end.

Definition lit (w : string) : regex := lit_chars (list_ascii_of_string w).

Fixpoint cat (rs : list regex) : regex :=
  match rs with
  | [] => Rep 0 (Some 0) (Cls (fun _ => false))
  | [r] => r
  | r :: tl => Cat r (cat tl)
  end.

End Re.

(* ------------------------------------------------------------------ *)
(** ** Exceptions *)

Inductive exn : Type :=
| KeyError (key : string)
| ValueError
| TypeError.

Inductive result (A : Type) : Type :=
| Ok (a : A)
| Raise (e : exn).

Arguments Ok {A} a.
Arguments Raise {A} e.

Definition bind {A B : Type} (r : result A) (f : A -> result B) : result B :=
  match r with
  | Ok a => f a
  | Raise e => Raise e
  end.

Notation "x <- c ;; k" := (bind c (fun x => k))
  (at level 61, c at next level, right associativity).

(* ------------------------------------------------------------------ *)
(** ** The pandas objects the two modules use *)

(** A column holds text ([object] dtype) or numbers; a missing cell
    ([None], [NaN]) is [None]. *)
Inductive column : Type :=
| ObjCol (cells : list (option string))
| NumCol (cells : list (option Q)).

Definition col_len (c : column) : nat :=
  match c with
  | ObjCol l => List.length l
  | NumCol l => List.length l
  end.

Record DataFrame : Type := mkFrame {
  nrows : nat;
  columns : list (string * column)
}.

(** [pd.DataFrame()] *)
Definition DataFrame_new : DataFrame := mkFrame 0 [].

(** [df.empty]: one of the two axes has length 0. *)
Definition empty (df : DataFrame) : bool :=
  (nrows df =? 0)%nat || (List.length (columns df) =? 0)%nat.

(** [name in df] *)
Definition has_col (name : string) (df : DataFrame) : bool :=
  existsb (fun p => String.eqb (fst p) name) (columns df).

Fixpoint lookup (name : string) (cs : list (string * column)) : option column :=
  match cs with
  | [] => None
  | (n, c) :: tl => if String.eqb n name then Some c else lookup name tl
  end.

(** [df[name]] *)
Definition getitem (df : DataFrame) (name : string) : result column :=
  match lookup name (columns df) with
  | Some c => Ok c
  | None => Raise (KeyError name)
  end.

Fixpoint put (name : string) (c : column) (cs : list (string * column))
    : list (string * column) :=
  match cs with
  | [] => [(name, c)]
  | (n, c0) :: tl =>
      if String.eqb n name then (n, c) :: tl else (n, c0) :: put name c tl
  end.

(** [df[name] = values]: an existing column is replaced in place, a new
    one is appended; the values must have one cell per row. *)
Definition setitem (df : DataFrame) (name : string) (c : column)
    : result DataFrame :=
  if (col_len c =? nrows df)%nat
  then Ok (mkFrame (nrows df) (put name c (columns df)))
  else Raise ValueError.

(** [col.astype("float64")]: numbers stay, missing cells become [NaN];
    text does not convert. *)
Definition astype_float64 (c : column) : result (list (option Q)) :=
  match c with
  | NumCol l => Ok l
  | ObjCol l =>
      if forallb (fun o => match o with None => true | Some _ => false end) l
      then Ok (map (fun _ => None) l)
      else Raise ValueError
  end.

(** [k - col] for a number [k]: cell by cell, missing cells stay missing;
    text cannot be subtracted. *)
Definition rsub (k : Q) (c : column) : result column :=
  match c with
  | NumCol l => Ok (NumCol (map (option_map (fun x => (k - x)%Q)) l))
  | ObjCol l =>
      if forallb (fun o => match o with None => true | Some _ => false end) l
      then Ok (NumCol (map (fun _ => None) l))
      else Raise TypeError
  end.

(** Rows picked by position, as [sort_values] does with its indexer. *)
Definition take_cells {A : Type} (ix : list nat) (l : list (option A))
    : list (option A) :=
  map (fun i => nth i l None) ix.

Definition take_col (ix : list nat) (c : column) : column :=
  match c with
  | ObjCol l => ObjCol (take_cells ix l)
  | NumCol l => NumCol (take_cells ix l)
  end.

Definition take (ix : list nat) (df : DataFrame) : DataFrame :=
  mkFrame (List.length ix)
          (map (fun p => (fst p, take_col ix (snd p))) (columns df)).

(** The cells of a numeric column, or [[]] when the column is missing or
    holds text; used to read results back. *)
Definition num_cells (name : string) (df : DataFrame) : list (option Q) :=
  match lookup name (columns df) with
  | Some (NumCol l) => l
  | _ => []
  end.

Definition obj_cells (name : string) (df : DataFrame) : list (option string) :=
  match lookup name (columns df) with
  | Some (ObjCol l) => l
  | _ => []
  end.

Definition col_names (df : DataFrame) : list string := map fst (columns df).

(* ------------------------------------------------------------------ *)
(** ** [live_search.py] *)

Definition UAS : list string :=
  [ "Mozilla/5.0 (Macintosh; Intel Mac OS X 10_15_7) AppleWebKit/537.36 (KHTML, like Gecko) Chrome/122.0 Safari/537.36";
    "Mozilla/5.0 (Windows NT 10.0; Win64; x64) AppleWebKit/537.36 (KHTML, like Gecko) Chrome/120.0 Safari/537.36";
    "Mozilla/5.0 (X11; Linux x86_64) AppleWebKit/537.36 (KHTML, like Gecko) Chrome/121.0 Safari/537.36" ].

Definition BASE_URL : string := "https://www.sgcarmart.com/used-cars/listing".

(** [_headers()]: [random.choice(UAS)] picks the entry at the position the
    generator draws; the draw [rnd] is an argument here. *)
Definition _headers (rnd : nat) : list (string * string) :=
  [("User-Agent", nth (rnd mod List.length UAS) UAS "")].

(** [re.sub(r"\s+", " ", t)]: every run of white space becomes one space. *)
Fixpoint collapse_ws (in_run : bool) (l : Re.chars) : Re.chars :=
  match l with
  | [] => []
  | c :: tl =>
      if Re.is_space c
      then (if in_run then collapse_ws true tl else " "%char :: collapse_ws true tl)
      else c :: collapse_ws false tl
  end.

Fixpoint lstrip (l : Re.chars) : Re.chars :=
  match l with
  | c :: tl => if Re.is_space c then lstrip tl else l
  | [] => []
  end.

(** [str.strip()] *)
Definition strip (l : Re.chars) : Re.chars := rev (lstrip (rev (lstrip l))).

Definition _clean (t : option string) : string :=
  match t with
  | None => ""
  | Some "" => ""
  | Some t => string_of_list_ascii (strip (collapse_ws false (list_ascii_of_string t)))
  end.

Definition digit_val (c : ascii) : Z := Z.of_nat (Re.code c - 48).

(** [int(s)] for a string of decimal digits. *)
Definition int_of_digits (l : Re.chars) : Z :=
  fold_left (fun acc c => (acc * 10 + digit_val c)%Z) l 0%Z.

(** [_to_int]: drop everything but digits ([re.sub(r"[^\d]", "", s)]) and
    read what is left; [s.isdigit()] fails only on the empty string. *)
Definition _to_int (s : option string) : option Z :=
  match s with
  | None => None
  | Some "" => None
  | Some s =>
      match filter Re.is_digit (list_ascii_of_string s) with
      | [] => None
      | ds => Some (int_of_digits ds)
      end
  end.

(** [int(s)], raising [ValueError] ([None] here) unless [s] is digits. *)
Definition py_int (s : string) : option Z :=
  match list_ascii_of_string s with
  | [] => None
  | ds => if forallb Re.is_digit ds then Some (int_of_digits ds) else None
  end.

Fixpoint split_dot (l : Re.chars) : Re.chars * option Re.chars :=
  match l with
  | [] => ([], None)
  | c :: tl =>
      if Ascii.eqb c "."%char then ([], Some tl)
      else let (a, b) := split_dot tl in (c :: a, b)
  end.

(** [float(s)] for the text "digits" or "digits.digits" that the COE
    pattern captures; any other text is a [ValueError] ([None]). *)
Definition py_float (s : string) : option Q :=
  match split_dot (list_ascii_of_string s) with
  | ([], _) => None
  | (ip, None) =>
      if forallb Re.is_digit ip then Some (inject_Z (int_of_digits ip)) else None
  | (_, Some []) => None
  | (ip, Some fp) =>
      if forallb Re.is_digit ip && forallb Re.is_digit fp
      then Some (Qmake (int_of_digits (List.app ip fp))
                       (Pos.pow 10 (Pos.of_nat (List.length fp))))
      else None
  end.

(** The patterns, in the order of the source. *)
Module Pat.
Import Re.

Definition digit_or_comma (c : ascii) : bool := is_digit c || Ascii.eqb c ","%char.
Definition not_dollar (c : ascii) : bool := negb (Ascii.eqb c "$"%char).

(** [\$\s*([\d,]+)] *)
Definition price : regex :=
  cat [Lit "$"; star s; Grp 1 (plus (Cls digit_or_comma))].

(** [([\d,]+)\s*km\b] *)
Definition mileage : regex :=
  cat [Grp 1 (plus (Cls digit_or_comma)); star s; lit "km"; Bnd].

(** [Depreciation[^$]*\$\s*([\d,]+)/yr] *)
Definition depreciation_labelled : regex :=
  cat [lit "Depreciation"; star (Cls not_dollar); Lit "$"; star s;
       Grp 1 (plus (Cls digit_or_comma)); lit "/yr"].

(** [\$\s*([\d,]+)/yr] *)
Definition depreciation_any : regex :=
  cat [Lit "$"; star s; Grp 1 (plus (Cls digit_or_comma)); lit "/yr"].

(** [(\d{3,4})\s*cc\b] *)
Definition engine : regex :=
  cat [Grp 1 (Rep 3 (Some 4) d); star s; lit "cc"; Bnd].

(** [\b(20\d{2}|19\d{2})\b] *)
Definition year : regex :=
  cat [Bnd;
       Grp 1 (Alt (Cat (lit "20") (Rep 2 (Some 2) d))
                  (Cat (lit "19") (Rep 2 (Some 2) d)));
       Bnd].

(** [(\d+(?:\.\d+)?)\s*(?:yr|yrs)\s*COE\s*left] *)
Definition coe : regex :=
  cat [Grp 1 (Cat (plus d) (opt (Cat (Lit ".") (plus d))));
       star s; Alt (lit "yr") (lit "yrs"); star s; lit "COE"; star s; lit "left"].

End Pat.

(** [re.search(pat, text, flags)] followed by [.group(1)]. *)
Definition search_group1 (ic : bool) (r : Re.regex) (text : string) : option string :=
  match Re.search ic r text with
  | Some cs => Re.group 1 cs
  | None => None
  end.

(** One row of the batch: the dict appended to [rows]. *)
Record ListingRecord : Type := mkListing {
  title : option string;
  listing_url : option string;
  price_sgd : option Z;
  mileage_km : option Z;
  depreciation_per_year : option Z;
  year : option Z;
  coe_left_years : option Q;
  engine_cc : option Z;
  raw_text : string
}.

(** The six fields read from the text of a card (the blocks "price" to
    "COE left" of the loop body); nothing is searched in an empty text. *)
Definition extract_price (raw : string) : option Z :=
  if String.eqb raw "" then None
  else _to_int (search_group1 false Pat.price raw).

Definition extract_mileage (raw : string) : option Z :=
  if String.eqb raw "" then None
  else _to_int (search_group1 true Pat.mileage raw).

Definition extract_depreciation (raw : string) : option Z :=
  if String.eqb raw "" then None
  else
    match search_group1 true Pat.depreciation_labelled raw with
    | Some g => _to_int (Some g)
    | None => _to_int (search_group1 true Pat.depreciation_any raw)
    end.

Definition extract_engine (raw : string) : option Z :=
  if String.eqb raw "" then None
  else _to_int (search_group1 true Pat.engine raw).

Definition extract_year (raw : string) : option Z :=
  if String.eqb raw "" then None
  else match search_group1 false Pat.year raw with
       | Some g => py_int g
       | None => None
       end.

Definition extract_coe (raw : string) : option Q :=
  if String.eqb raw "" then None
  else match search_group1 true Pat.coe raw with
       | Some g => py_float g
       | None => None
       end.

(** What BeautifulSoup exposes of one listing card: its text, as
    [card.get_text(" ")] returns it, and its [<a>] elements in document
    order. *)
Record anchor : Type := mkAnchor {
  href : option string;
  anchor_text : string
}.

Record card : Type := mkCard {
  get_text : string;
  anchors : list anchor
}.

Fixpoint contains (sub text : string) : bool :=
  String.prefix sub text ||
  match text with
  | EmptyString => false
  | String _ tl => contains sub tl
  end.

(** [card.select_one("a[href*='/used-cars/info/']")] *)
Definition select_info_link (c : card) : option anchor :=
  find (fun a => match href a with
                 | Some h => contains "/used-cars/info/" h
                 | None => false
                 end) (anchors c).

Definition or_empty (o : option string) : string :=
  match o with Some x => x | None => "" end.

(** The body of [for card in cards]: the dict built for one card. *)
Definition extract_card (c : card) : ListingRecord :=
  let raw := _clean (Some (get_text c)) in
  let '(t, u) :=
    match select_info_link c with
    | Some link_el =>
        let h := or_empty (href link_el) in
        (Some (_clean (Some (anchor_text link_el))),
         if String.prefix "/" h then Some ("https://www.sgcarmart.com" ++ h)
         else if String.eqb h "" then None else Some h)
    | None => (None, None)
    end in
  mkListing t u
            (extract_price raw) (extract_mileage raw) (extract_depreciation raw)
            (extract_year raw) (extract_coe raw) (extract_engine raw) raw.

(** The loop over the cards: a row is appended for each card, and the
    loop is left once [len(rows) >= max_results]. *)
Fixpoint extract_rows (cards : list card) (rows : list ListingRecord)
    (max_results : Z) : list ListingRecord :=
  match cards with
  | [] => rows
  | c :: tl =>
      let rows' := (rows ++ [extract_card c])%list in
      if (Z.of_nat (List.length rows') >=? max_results)%Z then rows'
      else extract_rows tl rows' max_results
  end.

Definition num_of (o : option Z) : option Q := option_map inject_Z o.

(** [pd.DataFrame(rows)]: one column per key of the dicts, in the order
    of the keys; no rows, no columns. *)
Definition DataFrame_of_rows (rows : list ListingRecord) : DataFrame :=
  match rows with
  | [] => DataFrame_new
  | _ =>
      mkFrame (List.length rows)
        [ ("title", ObjCol (map title rows));
          ("listing_url", ObjCol (map listing_url rows));
          ("price_sgd", NumCol (map (fun r => num_of (price_sgd r)) rows));
          ("mileage_km", NumCol (map (fun r => num_of (mileage_km r)) rows));
          ("depreciation_per_year",
             NumCol (map (fun r => num_of (depreciation_per_year r)) rows));
          ("year", NumCol (map (fun r => num_of (year r)) rows));
          ("coe_left_years", NumCol (map coe_left_years rows));
          ("engine_cc", NumCol (map (fun r => num_of (engine_cc r)) rows));
          ("raw_text", ObjCol (map (fun r => Some (raw_text r)) rows)) ]
  end.

(** The request handed to [requests.get]. *)
Inductive param_value : Type :=
| PStr (v : string)
| PInt (v : Z).

Record request : Type := mkRequest {
  url : string;
  params : list (string * param_value);
  headers : list (string * string);
  timeout : Z
}.

(** What comes back: an exception, or a response with its status code and
    the cards that [soup.select('div[class^="styles_listing_box"]')] finds
    in its body. *)
Inductive http_outcome : Type :=
| Raised
| Response (status_code : Z) (cards : list card).

(** Truth value of an [int | None] and of a [str | None] argument. *)
Definition truthy_int (o : option Z) : bool :=
  match o with Some v => negb (v =? 0)%Z | None => false end.

Definition truthy_str (o : option string) : bool :=
  match o with Some v => negb (String.eqb v "") | None => false end.

Definition build_params (budget_min budget_max : option Z) (make : option string)
    : list (string * param_value) :=
  let p0 := [("avl", PStr "a"); ("limit", PInt 60); ("page", PInt 1)] in
  let p1 := match budget_min with
            | Some v => if truthy_int budget_min then (p0 ++ [("PR1", PInt v)])%list else p0
            | None => p0
            end in
  let p2 := match budget_max with
            | Some v => if truthy_int budget_max then (p1 ++ [("PR2", PInt v)])%list else p1
            | None => p1
            end in
  match make with
  | Some v => if truthy_str make then (p2 ++ [("Make", PStr v)])%list else p2
  | None => p2
  end.

Definition build_request (rnd : nat) (budget_min budget_max : option Z)
    (make : option string) : request :=
  mkRequest BASE_URL (build_params budget_min budget_max make) (_headers rnd) 20.

(** [fetch_used_cars_live].  [rnd] is the draw of [random.choice] and
    [requests_get] the exchange with the site. *)
Definition fetch_used_cars_live (rnd : nat) (requests_get : request -> http_outcome)
    (budget_min budget_max : option Z) (make : option string) (max_results : Z)
    : DataFrame :=
  match requests_get (build_request rnd budget_min budget_max make) with
  | Raised => DataFrame_new
  | Response status_code cards =>
      if negb (status_code =? 200)%Z then DataFrame_new
      else
        match cards with
        | [] => DataFrame_new
        | _ => DataFrame_of_rows (extract_rows cards [] max_results)
        end
  end.

(* ------------------------------------------------------------------ *)
(** ** [value_model.py] *)

(** [x[x.notna()]] *)
Fixpoint present (x : list (option Q)) : list Q :=
  match x with
  | [] => []
  | Some v :: tl => v :: present tl
  | None :: tl => present tl
  end.

Definition notna (o : option Q) : bool :=
  match o with Some _ => true | None => false end.

Definition list_min (v : Q) (vs : list Q) : Q := fold_left Qmin vs v.
Definition list_max (v : Q) (vs : list Q) : Q := fold_left Qmax vs v.

(** [numeric column of df], or the exception [df[col].astype] raises. *)
Definition float_column (df : DataFrame) (col : string) : result (list (option Q)) :=
  c <- getitem df col ;;
  astype_float64 c.

(** The helper [norm_col] of [compute_value_scores]; [df] is the frame it
    closes over. *)
Definition norm_col (df : DataFrame) (col : string) (higher_is_better : bool)
    : result column :=
  x <- float_column df col ;;
  let mask := map notna x in
  match present x with
  | [] => Ok (NumCol (repeat None (nrows df)))
  | v :: vs =>
      let vmin := list_min v vs in
      let vmax := list_max v vs in
      if Qeq_bool vmax vmin then
        Ok (NumCol (map (fun i => if nth i mask false then Some (1 # 2)%Q else None)
                        (seq 0 (nrows df))))
      else if higher_is_better then
        Ok (NumCol (map (option_map (fun xi => (xi - vmin) / (vmax - vmin))%Q) x))
      else
        Ok (NumCol (map (option_map (fun xi => (vmax - xi) / (vmax - vmin))%Q) x))
  end.

Definition current_year : Q := 2025%Q.

(** [safe_val] *)
Definition safe_val (x : option Q) : Q :=
  match x with
  | None => (1 # 2)%Q
  | Some v => v
  end.

(** The weighted sum computed for one row. *)
Definition score (price_n depr_n mile_n age_n : Q) : Q :=
  (0.35 * price_n + 0.30 * depr_n + 0.20 * mile_n + 0.15 * age_n)%Q.

(** [np.rint]: the nearest integer, halves to the even neighbour. *)
Definition rint (q : Q) : Z :=
  let f := Qfloor q in
  match Qcompare (q - inject_Z f) (1 # 2)%Q with
  | Lt => f
  | Gt => (f + 1)%Z
  | Eq => if Z.even f then f else (f + 1)%Z
  end.

(** [np.round(q, 1)] *)
Definition np_round1 (q : Q) : Q := (inject_Z (rint (q * 10)) / 10)%Q.

(** The indexer of [sort_values(by=..., ascending=False)] for a column
    without [NaN]: pandas reverses the values, calls numpy's [argsort] on
    them, maps the positions back and reverses the outcome. *)
Definition nargsort_desc (argsort : list Q -> list nat) (v : list Q) : list nat :=
  let back := rev (seq 0 (List.length v)) in
  rev (map (fun j => nth j back 0%nat) (argsort (rev v))).

Definition value_rank_col (n : nat) : column :=
  NumCol (map (fun i => Some (inject_Z (Z.of_nat i + 1))) (seq 0 n)).

(** The frame after the four [norm] columns are set, before scoring. *)
Definition with_norms (df : DataFrame) : result DataFrame :=
  age <- (if has_col "year" df
          then (y <- getitem df "year" ;; rsub current_year y)
          else Ok (NumCol (repeat None (nrows df)))) ;;
  df <- setitem df "car_age" age ;;
  c <- norm_col df "price_sgd" false ;;
  df <- setitem df "price_norm" c ;;
  c <- norm_col df "depreciation_per_year" false ;;
  df <- setitem df "depr_norm" c ;;
  c <- norm_col df "mileage_km" false ;;
  df <- setitem df "mileage_norm" c ;;
  c <- norm_col df "car_age" false ;;
  setitem df "age_norm" c.

(** The list [scores] built by the loop over [df.iterrows()]. *)
Definition row_scores (df : DataFrame) : result (list Q) :=
  pn <- float_column df "price_norm" ;;
  dn <- float_column df "depr_norm" ;;
  mn <- float_column df "mileage_norm" ;;
  an <- float_column df "age_norm" ;;
  Ok (map (fun i => score (safe_val (nth i pn None)) (safe_val (nth i dn None))
                          (safe_val (nth i mn None)) (safe_val (nth i an None)))
          (seq 0 (nrows df))).

(** [compute_value_scores]; [argsort] is numpy's. *)
Definition compute_value_scores (argsort : list Q -> list nat) (df : DataFrame)
    : result DataFrame :=
  if empty df then
    df <- setitem df "value_score" (NumCol []) ;;
    setitem df "value_rank" (NumCol [])
  else
    df <- with_norms df ;;
    scores <- row_scores df ;;
    let value_score := map (fun s => np_round1 (s * 100)) scores in
    df <- setitem df "value_score" (NumCol (map Some value_score)) ;;
    let df := take (nargsort_desc argsort value_score) df in
    setitem df "value_rank" (value_rank_col (nrows df)).

(* ------------------------------------------------------------------ *)
(** ** numpy's [argsort] *)

Definition key (v : list Q) (i : nat) : Q := nth i v 0%Q.

(** What every kind of [argsort] returns for an array [v]: the positions
    of [v], each once, in an order that makes the values ascend.  Only
    [kind="stable"] (and [mergesort]) promises more, namely that equal
    values keep their order; [sort_values] is called without [kind],
    which selects [quicksort]. *)
Definition sorts (argsort : list Q -> list nat) (v : list Q) : Prop :=
  Permutation (argsort v) (seq 0 (List.length v)) /\
  Sorted Qle (map (key v) (argsort v)).

Definition argsort_spec (argsort : list Q -> list nat) : Prop :=
  forall v : list Q, sorts argsort v.

(** The same, as a test that can be run on one array. *)
Fixpoint ascending (l : list Q) : bool :=
  match l with
  | a :: (b :: _) as tl => Qle_bool a b && ascending tl
  | _ => true
  end.

Definition sortsb (argsort : list Q -> list nat) (v : list Q) : bool :=
  (List.length (argsort v) =? List.length v)%nat &&
  forallb (fun i => existsb (Nat.eqb i) (argsort v)) (seq 0 (List.length v)) &&
  ascending (map (key v) (argsort v)).

(** [kind="stable"]: insertion from the right end, a position going in
    front of the first position whose value is not smaller. *)
Fixpoint insert_pos (v : list Q) (i : nat) (l : list nat) : list nat :=
  match l with
  | [] => [i]
  | j :: tl =>
      if Qle_bool (key v i) (key v j) then i :: j :: tl
      else j :: insert_pos v i tl
  end.

Definition argsort_stable (v : list Q) : list nat :=
  fold_right (insert_pos v) [] (seq 0 (List.length v)).

(** [kind="quicksort"], the default: numpy's generic argsort routine, an
    introsort over the array [a] of positions.  A segment of more than 17
    positions is split around the median of its first, middle and last
    value; shorter segments are finished by insertion; a segment popped
    with its depth allowance used up is heap-sorted.  Pointers are
    positions in [a]. *)
Module Npy.

Definition lt (v : list Q) (i j : nat) : bool := negb (Qle_bool (key v j) (key v i)).

Definition get (a : list nat) (p : nat) : nat := nth p a 0%nat.

Fixpoint set (a : list nat) (p x : nat) : list nat :=
  match a, p with
  | [], _ => []
  | _ :: tl, O => x :: tl
  | y :: tl, S p' => y :: set tl p' x
  end.

Definition swap (a : list nat) (p q : nat) : list nat :=
  set (set a p (get a q)) q (get a p).

Definition swap_if (c : bool) (a : list nat) (p q : nat) : list nat :=
  if c then swap a p q else a.

Definition SMALL_QUICKSORT : nat := 16.

(** [do ++pi; while (v[*pi] < vp)] *)
Fixpoint scan_up (fuel : nat) (v : list Q) (a : list nat) (vp pi : nat) : nat :=
  match fuel with
  | O => S pi
  | S f => if lt v (get a (S pi)) vp then scan_up f v a vp (S pi) else S pi
  end.

(** [do --pj; while (vp < v[*pj])] *)
Fixpoint scan_down (fuel : nat) (v : list Q) (a : list nat) (vp pj : nat) : nat :=
  match fuel with
  | O => pj - 1
  | S f => if lt v vp (get a (pj - 1)) then scan_down f v a vp (pj - 1) else pj - 1
  end.

(** The [for (;;)] of the partition; [vp] is the position whose value is
    the pivot.  Returns the array and the final [pi]. *)
Fixpoint cross (fuel : nat) (v : list Q) (a : list nat) (vp pi pj : nat)
    : list nat * nat :=
  let pi' := scan_up (List.length a) v a vp pi in
  let pj' := scan_down (List.length a) v a vp pj in
  if (pj' <=? pi')%nat then (a, pi')
  else
    match fuel with
    | O => (a, pi')
    | S f => cross f v (swap a pi' pj') vp pi' pj'
    end.

Definition partition (v : list Q) (a : list nat) (pl pr : nat) : list nat * nat :=
  let pm := pl + Nat.div2 (pr - pl) in
  let a := swap_if (lt v (get a pm) (get a pl)) a pm pl in
  let a := swap_if (lt v (get a pr) (get a pm)) a pr pm in
  let a := swap_if (lt v (get a pm) (get a pl)) a pm pl in
  let vp := get a pm in
  let a := swap a pm (pr - 1) in
  let '(a, pi) := cross (List.length a) v a vp pl (pr - 1) in
  (swap a pi (pr - 1), pi).

(** The inner [while ((pr - pl) > SMALL_QUICKSORT)]: split, push the
    larger side with the decremented depth, go on with the smaller. *)
Fixpoint split (fuel : nat) (v : list Q) (a : list nat) (pl pr : nat) (cdepth : Z)
    (stack : list (nat * nat * Z)) : list nat * nat * nat * list (nat * nat * Z) :=
  match fuel with
  | O => (a, pl, pr, stack)
  | S f =>
      if (SMALL_QUICKSORT <? pr - pl)%nat then
        let '(a, pi) := partition v a pl pr in
        let cdepth := (cdepth - 1)%Z in
        if (pi - pl <? pr - pi)%nat
        then split f v a pl (pi - 1) cdepth ((pi + 1, pr, cdepth) :: stack)
        else split f v a (pi + 1) pr cdepth ((pl, pi - 1, cdepth) :: stack)
      else (a, pl, pr, stack)
  end.

(** [while (pj > pl && vp < v[*pk]) *pj-- = *pk--;  *pj = vi] *)
Fixpoint sink (fuel : nat) (v : list Q) (a : list nat) (pl pj vi : nat) : list nat :=
  match fuel with
  | O => set a pj vi
  | S f =>
      if (pl <? pj)%nat && lt v vi (get a (pj - 1))
      then sink f v (set a pj (get a (pj - 1))) pl (pj - 1) vi
      else set a pj vi
  end.

Fixpoint insertion (count : nat) (v : list Q) (a : list nat) (pl pi : nat) : list nat :=
  match count with
  | O => a
  | S c => insertion c v (sink pi v a pl pi (get a pi)) pl (S pi)
  end.

(** Heap sort of the [n] positions from [pl] on; the heap is 1-based. *)
Fixpoint sift (fuel : nat) (v : list Q) (a : list nat) (pl tmp i j n : nat) : list nat :=
  match fuel with
  | O => set a (pl + i - 1) tmp
  | S f =>
      if (j <=? n)%nat then
        let j := if (j <? n)%nat && lt v (get a (pl + j - 1)) (get a (pl + j))
                 then S j else j in
        if lt v tmp (get a (pl + j - 1))
        then sift f v (set a (pl + i - 1) (get a (pl + j - 1))) pl tmp j (j + j) n
        else set a (pl + i - 1) tmp
      else set a (pl + i - 1) tmp
  end.

Fixpoint heapify (l : nat) (v : list Q) (a : list nat) (pl n : nat) : list nat :=
  match l with
  | O => a
  | S l' => heapify l' v (sift n v a pl (get a (pl + l - 1)) l (l + l) n) pl n
  end.

Fixpoint unheap (n : nat) (v : list Q) (a : list nat) (pl : nat) : list nat :=
  match n with
  | O => a
  | S O => a
  | S n' =>
      let tmp := get a (pl + n - 1) in
      let a := set a (pl + n - 1) (get a pl) in
      unheap n' v (sift n v a pl tmp 1 2 n') pl
  end.

Definition aheapsort (v : list Q) (a : list nat) (pl n : nat) : list nat :=
  unheap n v (heapify (Nat.div2 n) v a pl n) pl.

(** The outer [while (1)] with its stack of postponed segments. *)
Fixpoint segments (fuel : nat) (v : list Q) (a : list nat) (pl pr : nat) (cdepth : Z)
    (stack : list (nat * nat * Z)) : list nat :=
  match fuel with
  | O => a
  | S f =>
      let '(a, stack) :=
        if (cdepth <? 0)%Z then (aheapsort v a pl (pr - pl + 1), stack)
        else
          let '(a, pl, pr, stack) := split (List.length a) v a pl pr cdepth stack in
          (insertion (pr - pl) v a pl (S pl), stack) in
      match stack with
      | [] => a
      | (pl, pr, cdepth) :: stack => segments f v a pl pr cdepth stack
      end
  end.

Definition aquicksort (v : list Q) : list nat :=
  let n := List.length v in
  match n with
  | O => []
  | _ => segments (S n) v (seq 0 n) 0 (n - 1) (2 * Z.log2 (Z.of_nat n)) []
  end.

End Npy.

(** *** The state of the sort

    What holds of the array of positions between two steps of the sort;
    [bubble] and [sdown] are the two inner loops written with exchanges,
    which is how they are compared with [Npy.sink] and [Npy.sift]. *)

Module NpyState.
Import Npy.

Section State.

Variable v : list Q.

Definition K (a : list nat) (i : nat) : Q := key v (get a i).

(** [b] comes from [a] by exchanging positions between [lo] and [hi]. *)
Inductive moves (lo hi : nat) : list nat -> list nat -> Prop :=
| moves_refl a : moves lo hi a a
| moves_swap a b p q :
    (lo <= p <= hi)%nat -> (lo <= q <= hi)%nat ->
    (p < List.length a)%nat -> (q < List.length a)%nat ->
    moves lo hi (swap a p q) b -> moves lo hi a b.

Definition sorted_on (a : list nat) (lo hi : nat) : Prop :=
  forall i j, (lo <= i)%nat -> (i <= j)%nat -> (j <= hi)%nat -> (K a i <= K a j)%Q.

(** Everything before position [c] is at most everything from [c] on. *)
Definition cut (a : list nat) (c : nat) : Prop :=
  forall i j, (i < c)%nat -> (c <= j)%nat -> (j < List.length a)%nat -> (K a i <= K a j)%Q.

(** The inner loop of the insertion sort, with exchanges in place of the
    saved entry. *)
Fixpoint bubble (fuel : nat) (a : list nat) (pl pj : nat) : list nat :=
  match fuel with
  | O => a
  | S f =>
      if (pl <? pj)%nat && lt v (get a pj) (get a (pj - 1))
      then bubble f (swap a pj (pj - 1)) pl (pj - 1)
      else a
  end.

(** The segment [pl..top] is in order but for the entry at [pj], which
    may have to go further down. *)
Definition settling (a : list nat) (pl pj top : nat) : Prop :=
  (forall i j, (pl <= i)%nat -> (i <= j)%nat -> (j <= top)%nat ->
               i <> pj -> j <> pj -> (K a i <= K a j)%Q) /\
  (forall j, (pj < j)%nat -> (j <= top)%nat -> (K a pj <= K a j)%Q).

(** One entry going down the heap, with exchanges in place of the saved
    entry; heap positions count from 1 and sit at [pl + k - 1]. *)
Fixpoint sdown (fuel : nat) (a : list nat) (pl i n : nat) : list nat :=
  match fuel with
  | O => a
  | S f =>
      if (i + i <=? n)%nat then
        let j := if (i + i <? n)%nat && lt v (get a (pl + (i + i) - 1)) (get a (pl + (i + i)))
                 then S (i + i) else (i + i)%nat in
        if lt v (get a (pl + i - 1)) (get a (pl + j - 1))
        then sdown f (swap a (pl + i - 1) (pl + j - 1)) pl j n
        else a
      else a
  end.

Definition node (pl : nat) (a : list nat) (k : nat) : Q := K a (pl + k - 1).

(** Every heap position from [lo] on is at least its children. *)
Definition heap_from (pl : nat) (a : list nat) (lo n : nat) : Prop :=
  forall k c, (lo <= k)%nat -> (c = k + k \/ c = S (k + k)) -> (c <= n)%nat ->
              (node pl a c <= node pl a k)%Q.

(** The same but for position [i], whose children are at most its parent. *)
Definition heap_but (pl : nat) (a : list nat) (lo n i : nat) : Prop :=
  (forall k c, (lo <= k)%nat -> k <> i -> (c = k + k \/ c = S (k + k)) -> (c <= n)%nat ->
               (node pl a c <= node pl a k)%Q) /\
  (forall p c, (lo <= p)%nat -> (i = p + p \/ i = S (p + p)) ->
               (c = i + i \/ c = S (i + i)) -> (c <= n)%nat ->
               (node pl a c <= node pl a p)%Q).

Definition segsof (stack : list (nat * nat * Z)) : list (nat * nat) := map fst stack.

Fixpoint mu (segs : list (nat * nat)) : nat :=
  match segs with
  | [] => 0
  | (l, r) :: tl => S (r - l) + mu tl
  end.

Definition apart (s s' : nat * nat) : Prop :=
  (snd s < fst s')%nat \/ (snd s' < fst s)%nat.

Fixpoint disj (segs : list (nat * nat)) : Prop :=
  match segs with
  | [] => True
  | s :: tl => (forall s', In s' tl -> apart s s') /\ disj tl
  end.

(** The state of the sort: the segments still to do are within the
    array and apart from each other, and every position that is not
    strictly inside one of them is a cut. *)
Definition pending (a : list nat) (segs : list (nat * nat)) : Prop :=
  (forall l r, In (l, r) segs -> (l <= r)%nat /\ (r < List.length a)%nat) /\
  disj segs /\
  (forall c, cut a c \/ exists l r, In (l, r) segs /\ (l < c <= r)%nat).

End State.

End NpyState.

(* ------------------------------------------------------------------ *)
(** ** Inputs used in the examples below *)

Definition corolla_text : string :=
  "Toyota Corolla 2019 $58,000 45,000 km 1800cc Depreciation $9,200/yr 3.5 yrs COE left".

Definition corolla_card : card :=
  mkCard corolla_text [mkAnchor (Some "/used-cars/info/toyota-corolla-1") "Toyota Corolla"].

(** A site that answers every request with one page holding one card. *)
Definition one_card_site (status : Z) (r : request) : http_outcome :=
  Response status [corolla_card].

Definition site_down (r : request) : http_outcome := Raised.

Definition blank_page (r : request) : http_outcome := Response 200 [].

(** A record with nothing but its text. *)
Definition bare (text : string) : ListingRecord :=
  mkListing None None None None None None None None text.

Definition priced (text : string) (p : Z) : ListingRecord :=
  mkListing None None (Some p) None None None None None text.

Definition car_A : ListingRecord :=
  mkListing (Some "A") None (Some 50000%Z) (Some 10000%Z) (Some 8000%Z)
            (Some 2023%Z) None None "A".

Definition car_B : ListingRecord :=
  mkListing (Some "B") None (Some 80000%Z) (Some 60000%Z) (Some 12000%Z)
            (Some 2015%Z) None None "B".

(** Eighteen records that all score alike, told apart by their text. *)
Definition eighteen_alike : list ListingRecord :=
  map bare ["car 00"; "car 01"; "car 02"; "car 03"; "car 04"; "car 05";
            "car 06"; "car 07"; "car 08"; "car 09"; "car 10"; "car 11";
            "car 12"; "car 13"; "car 14"; "car 15"; "car 16"; "car 17"].

(** [params.get(name)] *)
Fixpoint param (name : string) (ps : list (string * param_value)) : option param_value :=
  match ps with
  | [] => None
  | (n, v) :: tl => if String.eqb n name then Some v else param name tl
  end.

(** The columns of [df] reappear in [out] with their rows picked by [ix]. *)
Definition carried (ix : list nat) (df out : DataFrame) : Prop :=
  forall name c,
    lookup name (columns df) = Some c ->
    lookup name (columns out) = Some (take_col ix c).

(** A record without any of the four scored attributes. *)
Definition unscored (r : ListingRecord) : Prop :=
  price_sgd r = None /\ depreciation_per_year r = None /\
  mileage_km r = None /\ year r = None.

(** [argsort] keeps the equal values of [v] in their order. *)
Definition keeps_ties (argsort : list Q -> list nat) (v : list Q) : Prop :=
  forall a b,
    (a < b < List.length v)%nat ->
    (key v (nth a (argsort v) 0%nat) == key v (nth b (argsort v) 0%nat))%Q ->
    (nth a (argsort v) 0%nat < nth b (argsort v) 0%nat)%nat.

(** An [argsort] that does so on every array ([kind="stable"]). *)
Definition argsort_keeps_ties (argsort : list Q -> list nat) : Prop :=
  forall v, keeps_ties argsort v.

(** ** What the scorer computes, column by column

    The cells [norm_col] returns for a numeric column [x] of full length,
    written without reference to a frame. *)
Definition norm_cells (x : list (option Q)) : list (option Q) :=
  match present x with
  | [] => map (fun _ => None) x
  | v :: vs =>
      let vmin := list_min v vs in
      let vmax := list_max v vs in
      if Qeq_bool vmax vmin
      then map (fun o => if notna o then Some (1 # 2)%Q else None) x
      else map (option_map (fun xi => (vmax - xi) / (vmax - vmin))%Q) x
  end.

Definition prices (rows : list ListingRecord) : list (option Q) :=
  map (fun r => num_of (price_sgd r)) rows.
Definition depreciations (rows : list ListingRecord) : list (option Q) :=
  map (fun r => num_of (depreciation_per_year r)) rows.
Definition mileages (rows : list ListingRecord) : list (option Q) :=
  map (fun r => num_of (mileage_km r)) rows.
Definition ages (rows : list ListingRecord) : list (option Q) :=
  map (option_map (fun y => current_year - y)%Q) (map (fun r => num_of (year r)) rows).

(** The rounded score of the row at position [i] of the batch. *)
Definition value_score_at (rows : list ListingRecord) (i : nat) : Q :=
  np_round1
    (score (safe_val (nth i (norm_cells (prices rows)) None))
           (safe_val (nth i (norm_cells (depreciations rows)) None))
           (safe_val (nth i (norm_cells (mileages rows)) None))
           (safe_val (nth i (norm_cells (ages rows)) None)) * 100).

Definition value_scores (rows : list ListingRecord) : list Q :=
  map (value_score_at rows) (seq 0 (List.length rows)).

(** The array handed to [argsort] when a batch is ranked: the score
    column, reversed. *)
Definition sort_call (rows : list ListingRecord) : list Q := rev (value_scores rows).

(** The frame just before [sort_values]. *)
Definition scored_columns (rows : list ListingRecord) : list (string * column) :=
  put "value_score" (NumCol (map Some (value_scores rows)))
   (put "age_norm" (NumCol (norm_cells (ages rows)))
    (put "mileage_norm" (NumCol (norm_cells (mileages rows)))
     (put "depr_norm" (NumCol (norm_cells (depreciations rows)))
      (put "price_norm" (NumCol (norm_cells (prices rows)))
       (put "car_age" (NumCol (ages rows))
        (columns (DataFrame_of_rows rows))))))).

(** The frame [compute_value_scores] returns for a batch, given the
    indexer [ix] of the sort. *)
Definition ranked_frame (ix : list nat) (rows : list ListingRecord) : DataFrame :=
  mkFrame (List.length ix)
    (put "value_rank" (value_rank_col (List.length ix))
       (map (fun p => (fst p, take_col ix (snd p))) (scored_columns rows))).

(** The names of the columns the scorer derives. *)
Definition derived_names : list string :=
  ["car_age"; "price_norm"; "depr_norm"; "mileage_norm"; "age_norm";
   "value_score"; "value_rank"].

(** The four scored attributes: the raw column and its normalised one. *)
Definition scored_attributes : list (string * string) :=
  [("price_sgd", "price_norm"); ("depreciation_per_year", "depr_norm");
   ("mileage_km", "mileage_norm"); ("car_age", "age_norm")].

Definition three_prices : list ListingRecord :=
  [priced "a" 100; bare "b"; priced "c" 300].

Definition one_priced_one_not : list ListingRecord :=
  [priced "A" 50000; bare "C"].

(** Position [i] goes before position [j]: smaller value, or equal value
    and smaller position. *)
Definition before (v : list Q) (i j : nat) : Prop :=
  (key v i < key v j)%Q \/ ((key v i == key v j)%Q /\ (i < j)%nat).

(** The score of one row once more, this time over binary64, to see what
    rounding does to the constants of the claims.  [rint] is the usual
    add-and-subtract of 2^52, exact for the values at hand (between 0 and
    1000). *)
Module Binary64.

#[local] Set Warnings "-inexact-float".

Definition score (price_n depr_n mile_n age_n : float) : float :=
  (0.35 * price_n + 0.30 * depr_n + 0.20 * mile_n + 0.15 * age_n)%float.

Definition rint (x : float) : float :=
  ((x + 4503599627370496) - 4503599627370496)%float.

Definition np_round1 (x : float) : float := (rint (x * 10) / 10)%float.

End Binary64.

(* ------------------------------------------------------------------ *)
(** ** Notions used by the further properties *)

(** *** What a pattern can match *)

Module ReLang.
Import Re.

(** The texts a pattern can consume, position apart: [\b] consumes
    nothing. *)
Fixpoint lang (ic : bool) (r : regex) (w : chars) {struct r} : Prop :=
  match r with
  | Lit c => exists x, w = [x] /\ lit_ok ic c x = true
  | Cls p => exists x, w = [x] /\ p x = true
  | Bnd => w = []
  | Cat r1 r2 => exists w1 w2, w = (w1 ++ w2)%list /\ lang ic r1 w1 /\ lang ic r2 w2
  | Alt r1 r2 => lang ic r1 w \/ lang ic r2 w
  | Rep lo hi r' =>
      exists ws, w = List.concat ws /\ Forall (lang ic r') ws /\
                 (lo <= List.length ws)%nat /\
                 match hi with
                 | None => True
                 | Some h => (List.length ws <= h)%nat
                 end
  | Grp _ r' => lang ic r' w
  end.

(** The capturing groups of a pattern, with their bodies. *)
Fixpoint groups (r : regex) : list (nat * regex) :=
  match r with
  | Lit _ | Cls _ | Bnd => []
  | Cat r1 r2 | Alt r1 r2 => (groups r1 ++ groups r2)%list
  | Rep _ _ r' => groups r'
  | Grp n r' => (n, r') :: groups r'
  end.

(** The groups of [r] are groups of [r0]. *)
Definition sub_groups (r0 r : regex) : Prop :=
  forall n r', In (n, r') (groups r) -> In (n, r') (groups r0).

(** [g] is a piece of [text]. *)
Definition factor (g text : chars) : Prop :=
  exists a b, text = (a ++ g ++ b)%list.

(** Every captured text is a piece of [text] that the body of its group
    can match. *)
Definition caps_ok (ic : bool) (r0 : regex) (text : chars) (cs : captures) : Prop :=
  forall n g, In (n, g) cs ->
    factor g text /\ exists r', In (n, r') (groups r0) /\ lang ic r' g.

(** The cursor of [st] is somewhere in [text]. *)
Definition within (text : chars) (st : mstate) : Prop :=
  exists pre, text = (pre ++ rest st)%list.

End ReLang.

(** *** Texts *)

Definition has_digit (t : string) : bool :=
  existsb Re.is_digit (list_ascii_of_string t).

Definition has_char (c : ascii) (t : string) : bool :=
  existsb (Ascii.eqb c) (list_ascii_of_string t).

(** No two white-space characters side by side. *)
Fixpoint single_spaced (l : Re.chars) : bool :=
  match l with
  | c :: (c' :: _) as tl => negb (Re.is_space c && Re.is_space c') && single_spaced tl
  | _ => true
  end.

(** The shape of a cleaned text: the only white space is the space
    character, never two in a row, none at either end. *)
Definition cleaned (l : Re.chars) : Prop :=
  (forall c, In c l -> Re.is_space c = true -> c = " "%char) /\
  single_spaced l = true /\
  (forall c tl, l = c :: tl -> Re.is_space c = false) /\
  (forall p c, l = (p ++ [c])%list -> Re.is_space c = false).

(** The characters of a text that are not white space. *)
Definition visible (l : Re.chars) : Re.chars :=
  filter (fun c => negb (Re.is_space c)) l.

Definition text_of (t : option string) : Re.chars :=
  match t with Some t => list_ascii_of_string t | None => [] end.

(** [str.rstrip()], the second half of [strip]. *)
Definition rstrip (l : Re.chars) : Re.chars := rev (lstrip (rev l)).

(** *** Fetched frames *)

Definition fetched_names : list string :=
  ["title"; "listing_url"; "price_sgd"; "mileage_km"; "depreciation_per_year";
   "year"; "coe_left_years"; "engine_cc"; "raw_text"].

(** Every column has one cell per row. *)
Definition well_formed (df : DataFrame) : Prop :=
  Forall (fun p => col_len (snd p) = nrows df) (columns df).

(** The number of cards the loop reads before it is left. *)
Definition cards_read (max_results : Z) (cards : list card) : nat :=
  Nat.min (List.length cards) (Z.to_nat (Z.max 1 max_results)).

(** *** Records compared *)

(** [a] is at least as good as [b] for an attribute where less is better;
    a missing value only compares with a missing value. *)
Definition no_worse (a b : option Z) : bool :=
  match a, b with
  | Some x, Some y => (x <=? y)%Z
  | None, None => true
  | _, _ => false
  end.

(** [r1] is at least as good as [r2] on each of the four scored
    attributes: not dearer, not losing more value a year, not driven
    further, not older. *)
Definition dominates (r1 r2 : ListingRecord) : bool :=
  no_worse (price_sgd r1) (price_sgd r2) &&
  no_worse (depreciation_per_year r1) (depreciation_per_year r2) &&
  no_worse (mileage_km r1) (mileage_km r2) &&
  no_worse (year r2) (year r1).

(** The records that have the attribute [f] all have the same value. *)
Definition same_where_present (f : ListingRecord -> option Z)
    (rows : list ListingRecord) : Prop :=
  forall r1 r2 a b, In r1 rows -> In r2 rows -> f r1 = Some a -> f r2 = Some b -> a = b.

Definition no_spread (rows : list ListingRecord) : Prop :=
  same_where_present price_sgd rows /\ same_where_present depreciation_per_year rows /\
  same_where_present mileage_km rows /\ same_where_present year rows.

(** [r] has the least value of [f] in the batch, and not every record
    has that value. *)
Definition least (f : ListingRecord -> option Z) (rows : list ListingRecord)
    (r : ListingRecord) : Prop :=
  exists a, f r = Some a /\
    (forall r' b, In r' rows -> f r' = Some b -> (a <= b)%Z) /\
    (exists r' b, In r' rows /\ f r' = Some b /\ (a < b)%Z).

Definition greatest (f : ListingRecord -> option Z) (rows : list ListingRecord)
    (r : ListingRecord) : Prop :=
  exists a, f r = Some a /\
    (forall r' b, In r' rows -> f r' = Some b -> (b <= a)%Z) /\
    (exists r' b, In r' rows /\ f r' = Some b /\ (b < a)%Z).

Definition best_of (rows : list ListingRecord) (r : ListingRecord) : Prop :=
  least price_sgd rows r /\ least depreciation_per_year rows r /\
  least mileage_km rows r /\ greatest year rows r.

Definition worst_of (rows : list ListingRecord) (r : ListingRecord) : Prop :=
  greatest price_sgd rows r /\ greatest depreciation_per_year rows r /\
  greatest mileage_km rows r /\ least year rows r.

(** The cell of [car_age] for a record. *)
Definition age_of (r : ListingRecord) : option Q :=
  option_map (fun y => (current_year - y)%Q) (num_of (year r)).

(** *** Frames that do not come from the fetcher *)

(** The columns [compute_value_scores] reads without asking whether they
    are there. *)
Definition required : list string :=
  ["price_sgd"; "depreciation_per_year"; "mileage_km"].

(** The first of [names] that is not a column of [df]. *)
Fixpoint first_missing (names : list string) (df : DataFrame) : option string :=
  match names with
  | [] => None
  | n :: tl => if has_col n df then first_missing tl df else Some n
  end.

(** The column [name], if [df] has it, holds numbers, one per row. *)
Definition numeric_if_present (df : DataFrame) (name : string) : Prop :=
  match lookup name (columns df) with
  | Some (NumCol x) => List.length x = nrows df
  | Some (ObjCol _) => False
  | None => True
  end.

Definition scorable (df : DataFrame) : Prop :=
  Forall (numeric_if_present df)
         ["year"; "price_sgd"; "depreciation_per_year"; "mileage_km"].

(** The cells of [car_age] for a frame with numeric columns. *)
Definition age_cells (df : DataFrame) : list (option Q) :=
  match lookup "year" (columns df) with
  | Some (NumCol y) => map (option_map (fun v => (current_year - v)%Q)) y
  | _ => repeat None (nrows df)
  end.

Definition cells_of (df : DataFrame) (name : string) : list (option Q) :=
  match lookup name (columns df) with
  | Some (NumCol x) => x
  | _ => []
  end.

(** What the scorer builds from a frame [df] whose price, depreciation
    and mileage cells are [p], [d] and [m]. *)
Module Numeric.

Definition normed_columns (df : DataFrame) (p d m : list (option Q))
    : list (string * column) :=
  put "age_norm" (NumCol (norm_cells (age_cells df)))
    (put "mileage_norm" (NumCol (norm_cells m))
      (put "depr_norm" (NumCol (norm_cells d))
        (put "price_norm" (NumCol (norm_cells p))
          (put "car_age" (NumCol (age_cells df)) (columns df))))).

Definition raw_scores (df : DataFrame) (p d m : list (option Q)) : list Q :=
  map (fun i => score (safe_val (nth i (norm_cells p) None))
                      (safe_val (nth i (norm_cells d) None))
                      (safe_val (nth i (norm_cells m) None))
                      (safe_val (nth i (norm_cells (age_cells df)) None)))
      (seq 0 (nrows df)).

Definition rounded_scores (df : DataFrame) (p d m : list (option Q)) : list Q :=
  map (fun s => np_round1 (s * 100)) (raw_scores df p d m).

Definition scored_frame (df : DataFrame) (p d m : list (option Q)) (ix : list nat)
    : DataFrame :=
  mkFrame (List.length ix)
    (put "value_rank" (value_rank_col (List.length ix))
       (map (fun c => (fst c, take_col ix (snd c)))
            (put "value_score" (NumCol (map Some (rounded_scores df p d m)))
                 (normed_columns df p d m)))).

End Numeric.

(* ------------------------------------------------------------------ *)
(** ** [app.py] *)

(** The Streamlit page.  The widgets of the sidebar are read from a
    [session]; every call that shows something is an entry of the log, in
    the order of the calls ([with] blocks only place what is shown and are
    left out, and so is [st.set_page_config]).  The exchange with OpenAI
    is a parameter.  How Python writes a [float] is a parameter too
    ([float_str] for [str(x)], [float_commas] for [format(x, ",")]);
    [nan] is written [nan] by both. *)
Module App.

(** *** Python values and their formats *)

(** What [row.get] and [row[...]] return: [None], text, an [int64], or a
    [float64] with [None] for [nan]. *)
Inductive pyval : Type :=
| PyNone
| PyStr (s : string)
| PyInt (z : Z)
| PyFloat (x : option Q).

(** Truth value: [nan] is true. *)
Definition truthy (v : pyval) : bool :=
  match v with
  | PyNone => false
  | PyStr s => negb (String.eqb s "")
  | PyInt z => negb (z =? 0)%Z
  | PyFloat (Some q) => negb (Qeq_bool q 0)
  | PyFloat None => true
  end.

(** [pd.notna] *)
Definition notna (v : pyval) : bool :=
  match v with
  | PyNone | PyFloat None => false
  | _ => true
  end.

(** [Qfloor] towards zero. *)
Definition trunc (q : Q) : Z :=
  if Qle_bool 0 q then Qfloor q else (- Qfloor (- q))%Z.

(** [int(v)]; of text, only plain digits are taken to convert. *)
Definition int (v : pyval) : result Z :=
  match v with
  | PyNone => Raise TypeError
  | PyStr s => match py_int s with Some z => Ok z | None => Raise ValueError end
  | PyInt z => Ok z
  | PyFloat (Some q) => Ok (trunc q)
  | PyFloat None => Raise ValueError
  end.

(** The decimal digits of a number that is not negative. *)
Fixpoint digits_from (fuel : nat) (n : Z) (acc : Re.chars) : Re.chars :=
  let acc' := ascii_of_nat (48 + Z.to_nat (n mod 10)) :: acc in
  match fuel with
  | O => acc'
  | S fuel' => if (n <? 10)%Z then acc' else digits_from fuel' (n / 10) acc'
  end.

Definition digits (n : Z) : Re.chars := digits_from (Z.to_nat (Z.log2 n)) n [].

(** A comma after every third digit, over the digits in reverse. *)
Fixpoint group3 (l : Re.chars) : Re.chars :=
  match l with
  | a :: b :: c :: ((_ :: _) as tl) => a :: b :: c :: ","%char :: group3 tl
  | _ => l
  end.

Definition signed (z : Z) (body : Re.chars) : string :=
  string_of_list_ascii (if (z <? 0)%Z then "-"%char :: body else body).

(** [str(z)] and [format(z, ",")] for an [int]. *)
Definition int_str (z : Z) : string := signed z (digits (Z.abs z)).

Definition int_commas (z : Z) : string :=
  signed z (rev (group3 (rev (digits (Z.abs z))))).

Section Formats.

Variable float_str : Q -> string.
Variable float_commas : Q -> string.

(** [f"{v}"] *)
Definition fmt (v : pyval) : string :=
  match v with
  | PyNone => "None"
  | PyStr s => s
  | PyInt z => int_str z
  | PyFloat (Some q) => float_str q
  | PyFloat None => "nan"
  end.

(** [f"{v:,}"]: [None] has no such format, nor has text. *)
Definition fmt_commas (v : pyval) : result string :=
  match v with
  | PyNone => Raise TypeError
  | PyStr _ => Raise ValueError
  | PyInt z => Ok (int_commas z)
  | PyFloat (Some q) => Ok (float_commas q)
  | PyFloat None => Ok "nan"
  end.

End Formats.

(** *** Rows of a frame *)

Definition is_missing {A : Type} (o : option A) : bool :=
  match o with None => true | Some _ => false end.

(** The columns that hold [int] values when no cell is missing. *)
Definition int_columns : list string :=
  ["price_sgd"; "mileage_km"; "depreciation_per_year"; "year"; "engine_cc";
   "car_age"; "value_rank"].

Definition mem (name : string) (names : list string) : bool :=
  existsb (String.eqb name) names.

(** The value at row [k] of a column, by the type pandas gives the
    column: a column of [int] and [None] built from the records is
    [float64] with [nan], one of [None] only stays [object], one of [int]
    only is [int64]; a column the scorer computes is [float64], but for
    [car_age] and [value_rank], which are [int64] when nothing is
    missing. *)
Definition cell (name : string) (c : column) (k : nat) : pyval :=
  match c with
  | ObjCol l => match nth k l None with Some s => PyStr s | None => PyNone end
  | NumCol l =>
      if forallb is_missing l && mem name fetched_names then PyNone
      else match nth k l None with
           | None => PyFloat None
           | Some q =>
               if mem name int_columns && forallb (fun o => negb (is_missing o)) l
               then PyInt (Qfloor q) else PyFloat (Some q)
           end
  end.

(** A row [df.iloc[k]], for [k] below the number of rows. *)
Record row : Type := mkRow { frame : DataFrame; pos : nat }.

Definition iloc (df : DataFrame) (k : nat) : row := mkRow df k.

(** [row.get(name, default)] and [row[name]] *)
Definition get (r : row) (name : string) (default : pyval) : pyval :=
  match lookup name (columns (frame r)) with
  | Some c => cell name c (pos r)
  | None => default
  end.

Definition item (r : row) (name : string) : result pyval :=
  match lookup name (columns (frame r)) with
  | Some c => Ok (cell name c (pos r))
  | None => Raise (KeyError name)
  end.

(** The column [name] has a number in some row and none in row [k]: the
    cell is [nan]. *)
Definition partly_missing (df : DataFrame) (name : string) (k : nat) : Prop :=
  nth k (num_cells name df) None = None /\
  exists j, nth j (num_cells name df) None <> None.

Definition nan_at (l : list (option Q)) (k : nat) : bool :=
  negb (forallb is_missing l) && is_missing (nth k l None).

(** One of the three cells that go through [int] is [nan]. *)
Definition nan_row (m d y : list (option Q)) (k : nat) : bool :=
  nan_at m k || nan_at d k || nan_at y k.

(** The same, at row [k] of the frame scored for [rows] with the indexer
    [ix]. *)
Definition nan_in (rows : list ListingRecord) (ix : list nat) (k : nat) : bool :=
  nan_row (take_cells ix (mileages rows)) (take_cells ix (depreciations rows))
          (take_cells ix (map (fun r => num_of (year r)) rows)) k.

(** [df.head(n)] *)
Definition head_col (n : nat) (c : column) : column :=
  match c with
  | ObjCol l => ObjCol (firstn n l)
  | NumCol l => NumCol (firstn n l)
  end.

Definition head (n : nat) (df : DataFrame) : DataFrame :=
  mkFrame (Nat.min n (nrows df))
          (map (fun p => (fst p, head_col n (snd p))) (columns df)).

(** [df[[a, b]].rename(columns={a: a', b: b'})], for columns that are
    there. *)
Definition two_columns (df : DataFrame) (a a' b b' : string) : DataFrame :=
  match lookup a (columns df), lookup b (columns df) with
  | Some ca, Some cb => mkFrame (nrows df) [(a', ca); (b', cb)]
  | _, _ => mkFrame (nrows df) []
  end.

(** *** What is shown *)

Inductive ui : Type :=
| StTitle (body : string)
| StHeader (body : string)
| StSubheader (body : string)
| StMarkdown (body : string)
| StCaption (body : string)
| StText (body : string)
| StInfo (body : string)
| StError (body : string)
| StDataframe (data : DataFrame)
| StScatterChart (data : DataFrame).

(** How a run ends: it returns, a Python exception is raised, or the
    OpenAI client fails. *)
Inductive ending : Type :=
| Returned
| Raised (e : exn)
| ClientFailed.

(** The widgets of the sidebar, as the user left them, and the two
    buttons. *)
Record session : Type := mkSession {
  budget_min : Z;
  budget_max : Z;
  make_choice : string;
  body_type : string;
  mileage_pref : string;
  running_cost_pref : string;
  search_btn : bool;
  explain_btn : bool
}.

(** The environment: whether [openai] could be imported, and
    [OPENAI_API_KEY]. *)
Record environment : Type := mkEnvironment {
  OPENAI_AVAILABLE : bool;
  OPENAI_API_KEY : option string
}.

Definition nl : string := String (ascii_of_nat 10) "".

(** ["\n".join(lines)] *)
Fixpoint join_lines (lines : list string) : string :=
  match lines with
  | [] => ""
  | [l] => l
  | l :: tl => l ++ nl ++ join_lines tl
  end.

Section Page.

Variable float_str : Q -> string.
Variable float_commas : Q -> string.
Variable argsort : list Q -> list nat.
Variable rnd : nat.
Variable requests_get : request -> http_outcome.
(** [client.chat.completions.create] with the fixed system message: the
    text of the answer to a prompt, or a failure. *)
Variable chat : string -> option string.
Variable env : environment.

Local Abbreviation fmt := (fmt float_str) (only parsing).
Local Abbreviation fmt_commas := (fmt_commas float_commas) (only parsing).

(** One entry of [cars_summary]. *)
Definition car_summary (r : row) : result string :=
  price <- fmt_commas (get r "price_sgd" PyNone) ;;
  Ok ("- " ++ fmt (get r "title" PyNone) ++ " (Price: $" ++ price ++ ", " ++
      "Mileage: " ++ fmt (get r "mileage_km" PyNone) ++ " km, " ++
      "Value score: " ++ fmt (get r "value_score" PyNone) ++ ")" ++ nl ++
      "  URL: " ++ fmt (get r "listing_url" PyNone)).

Fixpoint car_summaries (rs : list row) : result (list string) :=
  match rs with
  | [] => Ok []
  | r :: tl =>
      line <- car_summary r ;;
      lines <- car_summaries tl ;;
      Ok (line :: lines)
  end.

Definition prompt_text (profile_txt cars_txt : string) : string :=
  nl ++ "You are an expert Singapore car consultant." ++ nl ++
  nl ++ "User profile:" ++ nl ++
  profile_txt ++ nl ++
  nl ++ "You have the following top 3 car options from SGCarMart (already filtered & ranked by a value score):" ++ nl ++
  nl ++ cars_txt ++ nl ++
  nl ++ "Explain to the user:" ++ nl ++
  "1. Which car suits them best and why." ++ nl ++
  "2. Trade-offs between the top 3." ++ nl ++
  "3. Any caveats they should watch out for (e.g. high mileage, older COE)." ++ nl ++
  nl ++ "Keep it within 3 paragraphs. Use simple, friendly language." ++ nl.

Definition fallback : string :=
  "LLM explanation not available (missing API key or library).".

(** [get_llm_recommendation]: the text, or how the call ends otherwise.
    The rows of [df.head(3)] are the first rows of [df], with the types
    of its columns. *)
Definition get_llm_recommendation (df : DataFrame)
    (user_profile : list (string * string)) : string + ending :=
  if negb (OPENAI_AVAILABLE env) || negb (truthy_str (OPENAI_API_KEY env)) || empty df
  then inl fallback
  else
    let top3 := map (iloc df) (seq 0 (Nat.min 3 (nrows df))) in
    match car_summaries top3 with
    | Raise e => inr (Raised e)
    | Ok cars_summary =>
        let profile_txt :=
          join_lines (map (fun kv => fst kv ++ ": " ++ snd kv) user_profile) in
        let cars_txt := join_lines cars_summary in
        match chat (prompt_text profile_txt cars_txt) with
        | Some content =>
            inl (string_of_list_ascii (strip (list_ascii_of_string content)))
        | None => inr ClientFailed
        end
    end.

(** The lines of [details_lines] for a row. *)
Definition details_lines (r : row) : result (list string) :=
  l1 <- (if truthy (get r "price_sgd" PyNone)
         then (v <- item r "price_sgd" ;; s <- fmt_commas v ;;
               Ok ["💰 Price: **$" ++ s ++ "**"])
         else Ok []) ;;
  l2 <- (if truthy (get r "mileage_km" PyNone)
         then (v <- item r "mileage_km" ;; z <- int v ;;
               Ok ["🚘 Mileage: **" ++ int_commas z ++ " km**"])
         else Ok []) ;;
  l3 <- (if truthy (get r "depreciation_per_year" PyNone)
         then (v <- item r "depreciation_per_year" ;; z <- int v ;;
               Ok ["📉 Depreciation: **$" ++ int_commas z ++ "/yr**"])
         else Ok []) ;;
  l4 <- (if truthy (get r "year" PyNone)
         then (v <- item r "year" ;; z <- int v ;;
               Ok ["📅 Year: **" ++ int_str z ++ "**"])
         else Ok []) ;;
  l5 <- (match get r "coe_left_years" PyNone with
         | PyNone => Ok []
         | _ => v <- item r "coe_left_years" ;;
                Ok ["🪪 COE left (approx): **" ++ fmt v ++ " years**"]
         end) ;;
  Ok (l1 ++ l2 ++ l3 ++ l4 ++ l5)%list.

(** The second column of a card. *)
Definition breakdown (r : row) : list ui :=
  StMarkdown "**Score breakdown (relative)**" ::
  map (fun cl : string * string =>
         let val := get r (fst cl) PyNone in
         StText (snd cl ++ ": " ++ (if notna val then fmt val else "-")))
      [("price_sgd", "Price"); ("mileage_km", "Mileage");
       ("depreciation_per_year", "Depreciation"); ("year", "Year")].

(** What one turn of the loop over the first rows shows, and whether it
    raises on the way. *)
Definition card_of (r : row) : list ui * option exn :=
  match (rank <- item r "value_rank" ;; int rank) with
  | Raise e => ([], Some e)
  | Ok rank =>
      let head1 := StMarkdown ("### #" ++ int_str rank ++ " – " ++
                               fmt (get r "title" (PyStr "(No title)"))) in
      match item r "value_score" with
      | Raise e => ([head1], Some e)
      | Ok score =>
          let head2 := StMarkdown ("**Estimated Value Score:** `" ++ fmt score ++
                                   "` / 100") in
          match details_lines r with
          | Raise e => ([head1; head2], Some e)
          | Ok lines =>
              let shown_lines :=
                match lines with
                | [] => []
                | _ => [StMarkdown (join_lines lines)]
                end in
              match (if truthy (get r "listing_url" PyNone)
                     then (u <- item r "listing_url" ;;
                           Ok [StMarkdown ("[View on SGCarMart](" ++ fmt u ++ ")")])
                     else Ok []) with
              | Raise e => ((head1 :: head2 :: shown_lines)%list, Some e)
              | Ok link =>
                  ((head1 :: head2 :: shown_lines ++ link ++ breakdown r)%list, None)
              end
          end
      end
  end.

(** The loop [for idx in range(top_n)]. *)
Fixpoint cards_of (rs : list row) : list ui * option exn :=
  match rs with
  | [] => ([], None)
  | r :: tl =>
      match card_of r with
      | (shown, Some e) => (shown, Some e)
      | (shown, None) =>
          let (more, e) := cards_of tl in ((shown ++ more)%list, e)
      end
  end.

Definition charts (df_scored : DataFrame) : list ui :=
  ((if has_col "price_sgd" df_scored && has_col "mileage_km" df_scored
    then [StMarkdown "**Price vs Mileage**";
          StScatterChart (two_columns df_scored "price_sgd" "Price"
                                      "mileage_km" "Mileage")]
    else []) ++
   (if has_col "price_sgd" df_scored && has_col "value_score" df_scored
    then [StMarkdown "**Price vs Value Score**";
          StScatterChart (two_columns df_scored "price_sgd" "Price"
                                      "value_score" "Value Score")]
    else []))%list.

(** [x or None] *)
Definition int_or_none (z : Z) : option Z := if (z =? 0)%Z then None else Some z.
Definition str_or_none (s : string) : option string :=
  if String.eqb s "" then None else Some s.

Definition sidebar (s : session) : list ui :=
  (StHeader "Your Preferences" ::
   (if negb (budget_max s =? 0)%Z && negb (budget_min s =? 0)%Z &&
       (budget_max s <? budget_min s)%Z
    then [StError "Max budget must be ≥ Min budget."]
    else []) ++
   [StMarkdown "---";
    StCaption "⚠ This app fetches only the first page of live SGCarMart results per query."])%list.

Definition user_profile_of (s : session) : list (string * string) :=
  [("Budget range", "$" ++ int_commas (budget_min s) ++ " - $" ++ int_commas (budget_max s));
   ("Preferred brand", if String.eqb (make_choice s) "" then "Any" else make_choice s);
   ("Body type", body_type s);
   ("Low mileage importance", mileage_pref s);
   ("Low depreciation importance", running_cost_pref s)].

(** The frame [main] gets from the fetcher. *)
Definition fetched (s : session) : DataFrame :=
  fetch_used_cars_live rnd requests_get
    (int_or_none (budget_min s)) (int_or_none (budget_max s))
    (str_or_none (make_choice s)) 40.

(** The part of [main] after the charts. *)
Definition explanation (s : session) (df_scored : DataFrame) : list ui * ending :=
  let top := [StMarkdown "---"; StSubheader "🤖 AI Explanation (Optional)"] in
  if OPENAI_AVAILABLE env && truthy_str (OPENAI_API_KEY env) then
    if explain_btn s then
      match get_llm_recommendation df_scored (user_profile_of s) with
      | inl text => ((top ++ [StMarkdown text])%list, Returned)
      | inr e => (top, e)
      end
    else (top, Returned)
  else
    ((top ++ [StInfo "Set `OPENAI_API_KEY` and install `openai` package to enable AI explanations."])%list,
     Returned).

(** [main]: what it shows, and how it ends. *)
Definition main (s : session) : list ui * ending :=
  let top :=
    ([StTitle "🚗 SG Car Advisor";
      StMarkdown "Smart car recommendations using live SGCarMart data, value scoring, and (optionally) an LLM."]
     ++ sidebar s)%list in
  if negb (search_btn s) then
    ((top ++ [StInfo "Set your preferences in the sidebar and click **Search Cars**."])%list,
     Returned)
  else
    let df_raw := fetched s in
    if empty df_raw then
      ((top ++ [StError "No cars found or request blocked. Try relaxing filters or trying again later."])%list,
       Returned)
    else
      let raw :=
        [StSubheader "Raw listings fetched";
         StCaption "First few rows (before scoring):";
         StDataframe (head 10 df_raw)] in
      match compute_value_scores argsort df_raw with
      | Raise e => ((top ++ raw)%list, Raised e)
      | Ok df_scored =>
          let ranked :=
            [StSubheader "Top Recommendations by Value Score";
             StCaption "Higher score = better relative value in this search result set."] in
          let top_n := Nat.min 10 (nrows df_scored) in
          match cards_of (map (iloc df_scored) (seq 0 top_n)) with
          | (shown, Some e) => ((top ++ raw ++ ranked ++ shown)%list, Raised e)
          | (shown, None) =>
              let (last, e) := explanation s df_scored in
              ((top ++ raw ++ ranked ++ shown ++ charts df_scored ++ last)%list, e)
          end
      end.

End Page.

End App.

(** A page of two cards, the second one without mileage and year. *)
Definition two_card_site (r : request) : http_outcome :=
  Response 200 [mkCard "Toyota Corolla 2019 $58,000 45,000 km" [];
                mkCard "Honda Fit $40,000" []].

(** The sidebar as it opens, with the search button pressed. *)
Definition first_search : App.session :=
  App.mkSession 50000 120000 "" "Any" "Somewhat" "Very important" true false.

Definition no_openai : App.environment := App.mkEnvironment false None.

(** A search for cars between 90000 and 50000 dollars. *)
Definition inverted_search : App.session :=
  App.mkSession 90000 50000 "Toyota" "Any" "Somewhat" "Very important" true false.

Definition with_openai : App.environment := App.mkEnvironment true (Some "sk-test").

(* ------------------------------------------------------------------ *)
(** * Properties *)

(** ** Fetcher *)

(** Case analysis over the optional filters of [build_params]. *)
Ltac split_params :=
  unfold build_request, build_params, truthy_int, truthy_str; simpl;
  repeat match goal with
         | |- context [match ?o with Some _ => _ | None => _ end] =>
             destruct o; simpl
         | |- context [if ?b then _ else _] => destruct b; simpl
         end;
  reflexivity.

(** C10. A minimum or maximum price of 0 and an empty brand are sent
    exactly as an absent filter is: the request is the same, and it has
    no [PR1], [PR2] or [Make] parameter. *)
Theorem C10_zero_filter_is_absent_filter :
  forall (rnd : nat) (bmin bmax : option Z) (make : option string),
    build_request rnd (Some 0%Z) bmax make = build_request rnd None bmax make /\
    build_request rnd bmin (Some 0%Z) make = build_request rnd bmin None make /\
    build_request rnd bmin bmax (Some "") = build_request rnd bmin bmax None /\
    param "PR1" (params (build_request rnd (Some 0%Z) bmax make)) = None /\
    param "PR2" (params (build_request rnd bmin (Some 0%Z) make)) = None /\
    param "Make" (params (build_request rnd bmin bmax (Some ""))) = None.
Proof.
  intros rnd bmin bmax make.
  repeat split; try reflexivity; split_params.
Qed.

(** C8. A raised network error, a status other than 200 (every
    non-success status is one) and a page without listing cards each make
    [fetch_used_cars_live] return the empty frame [pd.DataFrame()]: no
    rows, no columns, nothing raised. *)
Theorem C8_failure_returns_empty_frame :
  forall (rnd : nat) (requests_get : request -> http_outcome)
         (bmin bmax : option Z) (make : option string) (max_results : Z),
    (requests_get (build_request rnd bmin bmax make) = Raised \/
     (exists status cards,
        requests_get (build_request rnd bmin bmax make) = Response status cards /\
        status <> 200%Z) \/
     (exists status,
        requests_get (build_request rnd bmin bmax make) = Response status [])) ->
    fetch_used_cars_live rnd requests_get bmin bmax make max_results = DataFrame_new /\
    empty DataFrame_new = true /\ nrows DataFrame_new = 0%nat /\
    columns DataFrame_new = [].
Proof.
  intros rnd net bmin bmax make mx H.
  split; [|repeat split].
  unfold fetch_used_cars_live.
  destruct H as [H | [(st & cs & H & Hst) | (st & H)]]; rewrite H.
  - reflexivity.
  - apply Z.eqb_neq in Hst. rewrite Hst. reflexivity.
  - destruct (negb (st =? 200)%Z); reflexivity.
Qed.

Lemma C8_witness :
  fetch_used_cars_live 0 (one_card_site 503) (Some 50000%Z) None (Some "Toyota") 40
    = DataFrame_new /\
  fetch_used_cars_live 1 site_down None None None 40 = DataFrame_new /\
  fetch_used_cars_live 2 blank_page None None None 40 = DataFrame_new.
Proof.
  split; [|split].
  - apply (C8_failure_returns_empty_frame 0 (one_card_site 503)).
    right; left. exists 503%Z, [corolla_card]. split; [reflexivity|discriminate].
  - apply (C8_failure_returns_empty_frame 1 site_down). left. reflexivity.
  - apply (C8_failure_returns_empty_frame 2 blank_page).
    right; right. exists 200%Z. reflexivity.
Defined.

Lemma extract_rows_length cards rows mx :
  (List.length rows <= List.length (extract_rows cards rows mx))%nat.
Proof.
  revert rows; induction cards as [|c tl IH]; intros rows; simpl; [lia|].
  destruct (Z.of_nat (List.length (rows ++ [extract_card c])) >=? mx)%Z.
  - rewrite length_app; simpl; lia.
  - specialize (IH (rows ++ [extract_card c])%list).
    rewrite length_app in IH; simpl in IH. lia.
Qed.

Lemma extract_rows_cons c cs rows mx :
  (S (List.length rows) <= List.length (extract_rows (c :: cs) rows mx))%nat.
Proof.
  cbn [extract_rows].
  destruct (Z.of_nat (List.length (rows ++ [extract_card c])) >=? mx)%Z.
  - rewrite length_app. cbn [List.length]. lia.
  - pose proof (extract_rows_length cs (rows ++ [extract_card c])%list mx) as L.
    rewrite length_app in L. cbn [List.length] in L. lia.
Qed.

(** The other way round: a 200 answer with at least one card is never
    turned into the empty frame. *)
Lemma fetch_success_has_rows rnd net bmin bmax make mx c cs :
  net (build_request rnd bmin bmax make) = Response 200 (c :: cs) ->
  (0 < nrows (fetch_used_cars_live rnd net bmin bmax make mx))%nat.
Proof.
  intros H. unfold fetch_used_cars_live. rewrite H.
  change (negb (200 =? 200)%Z) with false. cbv iota.
  pose proof (extract_rows_cons c cs [] mx) as L.
  destruct (extract_rows (c :: cs) [] mx); cbn [List.length] in L; [lia|].
  cbn. lia.
Qed.

(** The draw does reach the request: two draws, two [User-Agent] values. *)
Lemma header_follows_draw :
  headers (build_request 0 None None None) <> headers (build_request 1 None None None).
Proof. discriminate. Qed.

(** C9. The draw of [random.choice] reaches nothing but the header of the
    request: the URL, the query parameters and the timeout are those of
    any other draw, and against a site whose answer does not depend on
    the header, two runs return the same records and, scored, the same
    ranked frame.  (Extraction and scoring themselves take no draw: they
    are functions of the cards and of the batch.) *)
Theorem C9_draw_only_reaches_header :
  forall (argsort : list Q -> list nat) (requests_get : request -> http_outcome)
         (rnd1 rnd2 : nat) (bmin bmax : option Z) (make : option string)
         (max_results : Z),
    (forall r1 r2 : request,
        url r1 = url r2 -> params r1 = params r2 -> timeout r1 = timeout r2 ->
        requests_get r1 = requests_get r2) ->
    (url (build_request rnd1 bmin bmax make) = url (build_request rnd2 bmin bmax make) /\
     params (build_request rnd1 bmin bmax make) = params (build_request rnd2 bmin bmax make) /\
     timeout (build_request rnd1 bmin bmax make) = timeout (build_request rnd2 bmin bmax make)) /\
    fetch_used_cars_live rnd1 requests_get bmin bmax make max_results =
    fetch_used_cars_live rnd2 requests_get bmin bmax make max_results /\
    compute_value_scores argsort
      (fetch_used_cars_live rnd1 requests_get bmin bmax make max_results) =
    compute_value_scores argsort
      (fetch_used_cars_live rnd2 requests_get bmin bmax make max_results).
Proof.
  intros argsort net rnd1 rnd2 bmin bmax make mx Hnet.
  assert (E : fetch_used_cars_live rnd1 net bmin bmax make mx =
              fetch_used_cars_live rnd2 net bmin bmax make mx).
  { unfold fetch_used_cars_live.
    rewrite (Hnet (build_request rnd1 bmin bmax make)
                  (build_request rnd2 bmin bmax make)); reflexivity. }
  split; [repeat split|].
  split; [exact E|]. rewrite E. reflexivity.
Qed.

Lemma C9_witness :
  fetch_used_cars_live 0 (one_card_site 200) None (Some 90000%Z) None 40 =
  fetch_used_cars_live 1 (one_card_site 200) None (Some 90000%Z) None 40.
Proof.
  apply (C9_draw_only_reaches_header Npy.aquicksort (one_card_site 200) 0 1).
  intros r1 r2 _ _ _. reflexivity.
Defined.

(** ** Extractor *)

(** C7. The six fields read from the example text. *)
Theorem C7_extraction_example :
  let r := extract_card corolla_card in
  price_sgd r = Some 58000%Z /\
  mileage_km r = Some 45000%Z /\
  engine_cc r = Some 1800%Z /\
  depreciation_per_year r = Some 9200%Z /\
  year r = Some 2019%Z /\
  (exists q, coe_left_years r = Some q /\ (q == 3.5)%Q) /\
  raw_text r = corolla_text.
Proof.
  cbv zeta.
  repeat split; try (vm_compute; reflexivity).
  exists (35 # 10)%Q. split; vm_compute; reflexivity.
Qed.

(** ** Frames *)

Lemma lookup_put name k c cs :
  lookup name (put k c cs) = if String.eqb k name then Some c else lookup name cs.
Proof.
  induction cs as [|[n c0] tl IH]; simpl.
  - reflexivity.
  - destruct (String.eqb n k) eqn:E; simpl.
    + apply String.eqb_eq in E. subst n.
      destruct (String.eqb k name); reflexivity.
    + rewrite IH. destruct (String.eqb n name) eqn:E1; [|reflexivity].
      apply String.eqb_eq in E1. subst n. rewrite String.eqb_sym, E. reflexivity.
Qed.

Lemma lookup_take name ix cs :
  lookup name (map (fun p => (fst p, take_col ix (snd p))) cs) =
  option_map (take_col ix) (lookup name cs).
Proof.
  induction cs as [|[n c] tl IH]; simpl; [reflexivity|].
  destruct (String.eqb n name); [reflexivity|exact IH].
Qed.

Lemma has_col_lookup name df :
  has_col name df = match lookup name (columns df) with Some _ => true | None => false end.
Proof.
  unfold has_col. induction (columns df) as [|[n c] tl IH]; simpl; [reflexivity|].
  destruct (String.eqb n name); [reflexivity|exact IH].
Qed.

Lemma setitem_ok df name c :
  col_len c = nrows df ->
  setitem df name c = Ok (mkFrame (nrows df) (put name c (columns df))).
Proof.
  intros H. unfold setitem. rewrite H, Nat.eqb_refl. reflexivity.
Qed.

Lemma getitem_lookup df name c :
  lookup name (columns df) = Some c -> getitem df name = Ok c.
Proof. intros H. unfold getitem. rewrite H. reflexivity. Qed.

(** ** Scorer: the empty batch *)

(** C2, as the code has it.  Scoring a frame without rows raises nothing
    and returns a frame without rows; it gains the two columns
    [value_score] and [value_rank], both empty, and no other column:
    neither [car_age] nor any normalised score appears. *)
Theorem C2_empty_batch_gets_score_and_rank_columns :
  forall (argsort : list Q -> list nat) (df : DataFrame),
    nrows df = 0%nat ->
    exists out,
      compute_value_scores argsort df = Ok out /\
      nrows out = 0%nat /\
      lookup "value_score" (columns out) = Some (NumCol []) /\
      lookup "value_rank" (columns out) = Some (NumCol []) /\
      (forall name, name <> "value_score" -> name <> "value_rank" ->
                    lookup name (columns out) = lookup name (columns df)).
Proof.
  intros argsort df Hn.
  unfold compute_value_scores, empty. rewrite Hn. cbn [Nat.eqb orb].
  rewrite (setitem_ok df "value_score" (NumCol [])) by (symmetry; exact Hn).
  cbn [bind].
  rewrite setitem_ok by (cbn; symmetry; exact Hn).
  cbn [nrows columns].
  eexists. split; [reflexivity|]. cbn [nrows columns].
  split; [exact Hn|].
  rewrite !lookup_put. cbn.
  split; [reflexivity|]. split; [reflexivity|].
  intros name H1 H2. rewrite !lookup_put.
  destruct (String.eqb_spec "value_rank" name) as [E|_]; [congruence|].
  destruct (String.eqb_spec "value_score" name) as [E|_]; [congruence|].
  reflexivity.
Qed.

Lemma C2_witness :
  exists out,
    compute_value_scores Npy.aquicksort DataFrame_new = Ok out /\
    nrows out = 0%nat /\
    lookup "value_score" (columns out) = Some (NumCol []) /\
    lookup "value_rank" (columns out) = Some (NumCol []) /\
    (forall name, name <> "value_score" -> name <> "value_rank" ->
                  lookup name (columns out) = lookup name (columns DataFrame_new)).
Proof.
  apply (C2_empty_batch_gets_score_and_rank_columns Npy.aquicksort DataFrame_new).
  reflexivity.
Defined.

(** C2, as the design document has it, fails: the empty frame comes back
    with two derived columns it did not have. *)
Lemma C2_counterexample :
  col_names DataFrame_new = [] /\
  exists out,
    compute_value_scores Npy.aquicksort DataFrame_new = Ok out /\
    col_names out = ["value_score"; "value_rank"].
Proof.
  split; [reflexivity|].
  eexists. split; reflexivity.
Qed.

(** ** Minimum, maximum and the cells of a column *)

Lemma present_In x q : In q (present x) <-> In (Some q) x.
Proof.
  induction x as [|[a|] tl IH]; simpl.
  - tauto.
  - rewrite IH. split; intros [H|H]; auto; left; congruence.
  - rewrite IH. split; [auto|]. intros [H|H]; [discriminate|exact H].
Qed.

Lemma present_nil_none x i : present x = [] -> nth i x None = None.
Proof.
  revert i; induction x as [|[a|] tl IH]; intros i H; simpl in *.
  - destruct i; reflexivity.
  - discriminate.
  - destruct i; [reflexivity|auto].
Qed.

Lemma Qmin_cases a b : Qmin a b = a \/ Qmin a b = b.
Proof. unfold Qmin, GenericMinMax.gmin. destruct (a ?= b)%Q; auto. Qed.

Lemma Qmax_cases a b : Qmax a b = a \/ Qmax a b = b.
Proof. unfold Qmax, GenericMinMax.gmax. destruct (a ?= b)%Q; auto. Qed.

Lemma list_min_le vs : forall v y, In y (v :: vs) -> (list_min v vs <= y)%Q.
Proof.
  unfold list_min. induction vs as [|a tl IH]; intros v y H; simpl in *.
  - destruct H as [<-|[]]. apply Qle_refl.
  - destruct H as [<-|[<-|H]].
    + eapply Qle_trans; [apply IH; left; reflexivity|apply Q.le_min_l].
    + eapply Qle_trans; [apply IH; left; reflexivity|apply Q.le_min_r].
    + apply IH. right. exact H.
Qed.

Lemma list_max_ge vs : forall v y, In y (v :: vs) -> (y <= list_max v vs)%Q.
Proof.
  unfold list_max. induction vs as [|a tl IH]; intros v y H; simpl in *.
  - destruct H as [<-|[]]. apply Qle_refl.
  - destruct H as [<-|[<-|H]].
    + eapply Qle_trans; [apply Q.le_max_l|apply IH; left; reflexivity].
    + eapply Qle_trans; [apply Q.le_max_r|apply IH; left; reflexivity].
    + apply IH. right. exact H.
Qed.

Lemma list_min_In vs : forall v, In (list_min v vs) (v :: vs).
Proof.
  unfold list_min. induction vs as [|a tl IH]; intros v; simpl.
  - left; reflexivity.
  - destruct (IH (Qmin v a)) as [H|H].
    + rewrite <- H. destruct (Qmin_cases v a) as [E|E]; rewrite E; auto.
    + right; right; exact H.
Qed.

Lemma list_max_In vs : forall v, In (list_max v vs) (v :: vs).
Proof.
  unfold list_max. induction vs as [|a tl IH]; intros v; simpl.
  - left; reflexivity.
  - destruct (IH (Qmax v a)) as [H|H].
    + rewrite <- H. destruct (Qmax_cases v a) as [E|E]; rewrite E; auto.
    + right; right; exact H.
Qed.

Lemma map_nth_seq {A B : Type} (f : A -> B) (dflt : A) (l : list A) :
  map (fun i => f (nth i l dflt)) (seq 0 (List.length l)) = map f l.
Proof.
  induction l as [|a tl IH]; [reflexivity|].
  cbn [List.length seq map nth]. f_equal.
  rewrite <- seq_shift, map_map. exact IH.
Qed.

Lemma repeat_map_const {A B : Type} (b : B) (l : list A) :
  repeat b (List.length l) = map (fun _ => b) l.
Proof. induction l; simpl; congruence. Qed.

Lemma norm_cells_length x : List.length (norm_cells x) = List.length x.
Proof.
  unfold norm_cells. destruct (present x); [apply length_map|].
  destruct (Qeq_bool _ _); apply length_map.
Qed.

(** [norm_col] on a column of full length returns [norm_cells]. *)
Lemma norm_col_cells df col x :
  float_column df col = Ok x -> List.length x = nrows df ->
  norm_col df col false = Ok (NumCol (norm_cells x)).
Proof.
  intros Hx Hlen. unfold norm_col, norm_cells. rewrite Hx. cbn [bind].
  destruct (present x) as [|v vs].
  - rewrite <- Hlen, repeat_map_const. reflexivity.
  - destruct (Qeq_bool (list_max v vs) (list_min v vs)); [|reflexivity].
    rewrite <- Hlen.
    rewrite <- (length_map notna x).
    rewrite (map_nth_seq (fun b : bool => if b then Some (1 # 2)%Q else None) false).
    rewrite map_map. reflexivity.
Qed.

Lemma nth_map_none {A B : Type} (g : option A -> option B) (l : list (option A)) i :
  g None = None -> nth i (map g l) None = g (nth i l None).
Proof.
  intros Hg. revert i; induction l as [|a tl IH]; intros [|i]; simpl; auto.
Qed.

(** A cell of [norm_cells] is missing exactly where the raw cell is. *)
Lemma norm_cells_none x i : nth i (norm_cells x) None = None <-> nth i x None = None.
Proof.
  unfold norm_cells. destruct (present x) as [|v vs] eqn:P.
  - rewrite nth_map_none by reflexivity.
    split; intros _; [apply present_nil_none; exact P|reflexivity].
  - destruct (Qeq_bool _ _); rewrite nth_map_none by reflexivity;
      destruct (nth i x None); simpl; split; congruence.
Qed.

Lemma nth_Some_In {A : Type} (l : list (option A)) i a :
  nth i l None = Some a -> In (Some a) l.
Proof.
  revert i; induction l as [|b tl IH]; intros [|i] H; simpl in *;
    try discriminate; eauto.
Qed.

Lemma spread_pos v vs :
  Qeq_bool (list_max v vs) (list_min v vs) = false ->
  (list_min v vs < list_max v vs)%Q.
Proof.
  intros H. apply Qeq_bool_neq in H.
  assert (L : (list_min v vs <= list_max v vs)%Q).
  { eapply Qle_trans; [apply list_min_le|apply list_max_ge]; left; reflexivity. }
  apply Qle_lt_or_eq in L. destruct L as [L|L]; [exact L|].
  exfalso. apply H. symmetry. exact L.
Qed.

Lemma ratio_range (lo hi xi : Q) :
  (lo < hi)%Q -> (lo <= xi)%Q -> (xi <= hi)%Q ->
  (0 <= (hi - xi) / (hi - lo))%Q /\ ((hi - xi) / (hi - lo) <= 1)%Q.
Proof.
  intros Hlt H1 H2.
  assert (P : (0 < hi - lo)%Q).
  { rewrite <- (Qplus_opp_r lo). unfold Qminus.
    apply Qplus_lt_l. exact Hlt. }
  split.
  - apply Qle_shift_div_l; [exact P|].
    rewrite Qmult_0_l. rewrite <- (Qplus_opp_r xi). unfold Qminus.
    apply Qplus_le_l. exact H2.
  - apply Qle_shift_div_r; [exact P|].
    rewrite Qmult_1_l. unfold Qminus. apply Qplus_le_r.
    apply Qopp_le_compat. exact H1.
Qed.

(** A cell of [norm_cells], when present, lies between 0 and 1. *)
Lemma norm_cells_range x i q :
  nth i (norm_cells x) None = Some q -> (0 <= q)%Q /\ (q <= 1)%Q.
Proof.
  unfold norm_cells. destruct (present x) as [|v vs] eqn:P.
  - rewrite nth_map_none by reflexivity. discriminate.
  - destruct (Qeq_bool _ _) eqn:E; rewrite nth_map_none by reflexivity.
    + destruct (nth i x None); simpl; [|discriminate].
      intros H; injection H as <-. split; discriminate.
    + destruct (nth i x None) as [xi|] eqn:N; simpl; [|discriminate].
      intros H; injection H as <-.
      assert (I : In xi (v :: vs)).
      { rewrite <- P. apply present_In. eapply nth_Some_In. exact N. }
      apply ratio_range.
      * apply spread_pos. exact E.
      * apply list_min_le. exact I.
      * apply list_max_ge. exact I.
Qed.

(** ** Scorer: normalisation *)

(** C4. For a column with at least one present value: when all present
    values are equal, every present cell becomes 0.5 and every missing
    cell stays missing; otherwise each present [xi] becomes
    [(max - xi) / (max - min)], with [min] and [max] the least and the
    greatest present value, so that [min] goes to 1 and [max] to 0 (and
    missing cells stay missing here too). *)
Theorem C4_normalization :
  forall (df : DataFrame) (col : string) (x : list (option Q)) (v : Q) (vs : list Q),
    float_column df col = Ok x ->
    List.length x = nrows df ->
    present x = v :: vs ->
    ((forall a, In a (v :: vs) -> (a == v)%Q) ->
     norm_col df col false =
       Ok (NumCol (map (fun o => match o with
                                 | Some _ => Some (1 # 2)%Q
                                 | None => None
                                 end) x))) /\
    ((exists a, In a (v :: vs) /\ ~ (a == v)%Q) ->
     exists vmin vmax,
       In vmin (v :: vs) /\ In vmax (v :: vs) /\
       (forall a, In a (v :: vs) -> (vmin <= a)%Q /\ (a <= vmax)%Q) /\
       (vmin < vmax)%Q /\
       norm_col df col false =
         Ok (NumCol (map (option_map (fun xi => (vmax - xi) / (vmax - vmin))%Q) x)) /\
       ((vmax - vmin) / (vmax - vmin) == 1)%Q /\
       ((vmax - vmax) / (vmax - vmin) == 0)%Q).
Proof.
  intros df col x v vs Hx Hlen P.
  rewrite (norm_col_cells df col x Hx Hlen). unfold norm_cells. rewrite P.
  split.
  - intros Hall.
    assert (E : Qeq_bool (list_max v vs) (list_min v vs) = true).
    { apply Qeq_eq_bool.
      rewrite (Hall _ (list_max_In vs v)), (Hall _ (list_min_In vs v)).
      reflexivity. }
    rewrite E. do 2 f_equal. apply map_ext. intros [a|]; reflexivity.
  - intros (a & Ha & Hne).
    assert (E : Qeq_bool (list_max v vs) (list_min v vs) = false).
    { destruct (Qeq_bool _ _) eqn:E; [|reflexivity].
      exfalso. apply Qeq_bool_eq in E. apply Hne.
      pose proof (list_min_le vs v a Ha) as A1.
      pose proof (list_max_ge vs v a Ha) as A2.
      pose proof (list_min_le vs v v (or_introl eq_refl)) as V1.
      pose proof (list_max_ge vs v v (or_introl eq_refl)) as V2.
      rewrite E in A2, V2.
      apply Qle_antisym.
      - eapply Qle_trans; [exact A2|exact V1].
      - eapply Qle_trans; [exact V2|exact A1]. }
    rewrite E.
    pose proof (spread_pos v vs E) as Hlt.
    exists (list_min v vs), (list_max v vs).
    split; [apply list_min_In|]. split; [apply list_max_In|].
    split; [intros b Hb; split; [apply list_min_le|apply list_max_ge]; exact Hb|].
    split; [exact Hlt|]. split; [reflexivity|].
    assert (NZ : ~ (list_max v vs - list_min v vs == 0)%Q).
    { intros Z. lra. }
    split.
    + apply Qmult_inv_r. exact NZ.
    + unfold Qminus at 1. rewrite Qplus_opp_r. unfold Qdiv. apply Qmult_0_l.
Qed.

(** ** Scorer: running it on a batch *)

(** Comparison of two column names, both literal. *)
Ltac eqb_names :=
  repeat match goal with
         | |- context [String.eqb ?a ?b] =>
             let r := eval vm_compute in (String.eqb a b) in
             progress change (String.eqb a b) with r
         end;
  cbv iota.

Lemma nine_columns rows :
  rows <> [] ->
  DataFrame_of_rows rows =
  mkFrame (List.length rows)
        [ ("title", ObjCol (map title rows));
          ("listing_url", ObjCol (map listing_url rows));
          ("price_sgd", NumCol (prices rows));
          ("mileage_km", NumCol (mileages rows));
          ("depreciation_per_year", NumCol (depreciations rows));
          ("year", NumCol (map (fun r => num_of (year r)) rows));
          ("coe_left_years", NumCol (map coe_left_years rows));
          ("engine_cc", NumCol (map (fun r => num_of (engine_cc r)) rows));
          ("raw_text", ObjCol (map (fun r => Some (raw_text r)) rows)) ].
Proof. destruct rows; [congruence|reflexivity]. Qed.

Lemma float_column_num df col x :
  lookup col (columns df) = Some (NumCol x) -> float_column df col = Ok x.
Proof. intros H. unfold float_column, getitem. rewrite H. reflexivity. Qed.

Ltac find_column :=
  cbn [columns]; rewrite ?lookup_put; eqb_names; cbn [lookup]; eqb_names; reflexivity.

Ltac norm_step x Hlen :=
  erewrite (norm_col_cells _ _ x);
  [ cbn [bind];
    rewrite setitem_ok by (cbn [col_len nrows]; rewrite norm_cells_length; exact Hlen);
    cbn [bind nrows columns]
  | apply float_column_num; find_column
  | exact Hlen ].

Lemma with_norms_run rows :
  rows <> [] ->
  with_norms (DataFrame_of_rows rows) =
  Ok (mkFrame (List.length rows)
        (put "age_norm" (NumCol (norm_cells (ages rows)))
          (put "mileage_norm" (NumCol (norm_cells (mileages rows)))
            (put "depr_norm" (NumCol (norm_cells (depreciations rows)))
              (put "price_norm" (NumCol (norm_cells (prices rows)))
                (put "car_age" (NumCol (ages rows))
                  (columns (DataFrame_of_rows rows)))))))).
Proof.
  intros Hne. rewrite (nine_columns rows Hne).
  assert (Lp : List.length (prices rows) = List.length rows) by apply length_map.
  assert (Ld : List.length (depreciations rows) = List.length rows) by apply length_map.
  assert (Lm : List.length (mileages rows) = List.length rows) by apply length_map.
  assert (La : List.length (ages rows) = List.length rows)
    by (unfold ages; rewrite !length_map; reflexivity).
  unfold with_norms.
  rewrite has_col_lookup. cbn [columns lookup]. eqb_names.
  unfold getitem. cbn [columns lookup]. eqb_names.
  cbn [bind rsub]. fold (ages rows).
  rewrite setitem_ok by (cbn [col_len nrows]; exact La).
  cbn [bind nrows columns].
  norm_step (prices rows) Lp.
  norm_step (depreciations rows) Ld.
  norm_step (mileages rows) Lm.
  norm_step (ages rows) La.
  reflexivity.
Qed.

Lemma row_scores_run rows :
  rows <> [] ->
  row_scores
    (mkFrame (List.length rows)
        (put "age_norm" (NumCol (norm_cells (ages rows)))
          (put "mileage_norm" (NumCol (norm_cells (mileages rows)))
            (put "depr_norm" (NumCol (norm_cells (depreciations rows)))
              (put "price_norm" (NumCol (norm_cells (prices rows)))
                (put "car_age" (NumCol (ages rows))
                  (columns (DataFrame_of_rows rows)))))))) =
  Ok (map (fun i =>
             score (safe_val (nth i (norm_cells (prices rows)) None))
                   (safe_val (nth i (norm_cells (depreciations rows)) None))
                   (safe_val (nth i (norm_cells (mileages rows)) None))
                   (safe_val (nth i (norm_cells (ages rows)) None)))
          (seq 0 (List.length rows))).
Proof.
  intros Hne. rewrite (nine_columns rows Hne).
  unfold row_scores.
  rewrite (float_column_num _ "price_norm" (norm_cells (prices rows))) by find_column.
  rewrite (float_column_num _ "depr_norm" (norm_cells (depreciations rows))) by find_column.
  rewrite (float_column_num _ "mileage_norm" (norm_cells (mileages rows))) by find_column.
  rewrite (float_column_num _ "age_norm" (norm_cells (ages rows))) by find_column.
  reflexivity.
Qed.

Lemma scorer_run argsort rows :
  rows <> [] ->
  compute_value_scores argsort (DataFrame_of_rows rows) =
  Ok (ranked_frame (nargsort_desc argsort (value_scores rows)) rows).
Proof.
  intros Hne. unfold compute_value_scores.
  replace (empty (DataFrame_of_rows rows)) with false
    by (destruct rows; [congruence|reflexivity]).
  rewrite (with_norms_run rows Hne). cbn [bind].
  rewrite (row_scores_run rows Hne). cbn [bind].
  match goal with
  | |- context [map (fun s : Q => np_round1 (s * 100)) ?l] =>
      replace (map (fun s : Q => np_round1 (s * 100)) l) with (value_scores rows)
        by (unfold value_scores, value_score_at; rewrite map_map; reflexivity)
  end.
  rewrite setitem_ok
    by (cbn [col_len nrows]; unfold value_scores; rewrite !length_map, length_seq; reflexivity).
  cbn [bind nrows columns].
  rewrite setitem_ok by (unfold value_rank_col, take; cbn [col_len nrows];
                         rewrite length_map, length_seq; reflexivity).
  reflexivity.
Qed.

Lemma C4_witness :
  ((forall a, In a [inject_Z 100; inject_Z 300] -> (a == inject_Z 100)%Q) ->
   norm_col (DataFrame_of_rows three_prices) "price_sgd" false =
     Ok (NumCol (map (fun o => match o with
                               | Some _ => Some (1 # 2)%Q
                               | None => None
                               end)
                     [Some (inject_Z 100); None; Some (inject_Z 300)]))) /\
  ((exists a, In a [inject_Z 100; inject_Z 300] /\ ~ (a == inject_Z 100)%Q) ->
   exists vmin vmax,
     In vmin [inject_Z 100; inject_Z 300] /\ In vmax [inject_Z 100; inject_Z 300] /\
     (forall a, In a [inject_Z 100; inject_Z 300] -> (vmin <= a)%Q /\ (a <= vmax)%Q) /\
     (vmin < vmax)%Q /\
     norm_col (DataFrame_of_rows three_prices) "price_sgd" false =
       Ok (NumCol (map (option_map (fun xi => (vmax - xi) / (vmax - vmin))%Q)
                       [Some (inject_Z 100); None; Some (inject_Z 300)])) /\
     ((vmax - vmin) / (vmax - vmin) == 1)%Q /\
     ((vmax - vmax) / (vmax - vmin) == 0)%Q).
Proof.
  apply (C4_normalization (DataFrame_of_rows three_prices) "price_sgd"
           [Some (inject_Z 100); None; Some (inject_Z 300)]
           (inject_Z 100) [inject_Z 300]); reflexivity.
Defined.

(** The three prices 100, none, 300 come out as 1, none, 0. *)
Example three_prices_normalised :
  norm_col (DataFrame_of_rows three_prices) "price_sgd" false =
  Ok (NumCol [Some (200 # 200)%Q; None; Some (0 # 200)%Q]).
Proof. vm_compute. reflexivity. Qed.

(** ** The indexer of the descending sort *)

Lemma back_nth n j : (j < n)%nat -> nth j (rev (seq 0 n)) 0%nat = (n - S j)%nat.
Proof.
  intros H. rewrite rev_nth by (rewrite length_seq; exact H).
  rewrite length_seq. rewrite seq_nth by lia. reflexivity.
Qed.

Lemma key_rev v j : (j < List.length v)%nat -> key (rev v) j = key v (List.length v - S j).
Proof. intros H. unfold key. apply rev_nth. exact H. Qed.

Lemma StronglySorted_snoc {A : Type} (R : A -> A -> Prop) l a :
  StronglySorted R l -> Forall (fun x => R x a) l -> StronglySorted R (l ++ [a]).
Proof.
  induction 1 as [|b l S IH F]; intros H; simpl.
  - repeat constructor.
  - inversion H; subst. constructor; [auto|].
    apply Forall_app. split; [exact F|repeat constructor; assumption].
Qed.

Lemma StronglySorted_rev {A : Type} (R : A -> A -> Prop) l :
  StronglySorted R l -> StronglySorted (fun a b => R b a) (rev l).
Proof.
  induction 1 as [|a l S IH F]; simpl; [constructor|].
  apply StronglySorted_snoc; [exact IH|].
  apply Forall_rev. exact F.
Qed.

Section Indexer.

Variable argsort : list Q -> list nat.
Variable v : list Q.
Hypothesis run_ok : sorts argsort (rev v).

Let n := List.length v.
Let A := argsort (rev v).

Lemma A_perm : Permutation A (seq 0 n).
Proof.
  subst A n. destruct run_ok as [P _].
  rewrite length_rev in P. exact P.
Qed.

Lemma A_bound j : In j A -> (j < n)%nat.
Proof.
  intros H. apply (Permutation_in _ A_perm) in H. apply in_seq in H. lia.
Qed.

Lemma A_length : List.length A = n.
Proof. rewrite (Permutation_length A_perm). apply length_seq. Qed.

Lemma nargsort_desc_perm : Permutation (nargsort_desc argsort v) (seq 0 n).
Proof.
  unfold nargsort_desc. fold n A.
  rewrite <- Permutation_rev.
  rewrite (Permutation_map _ A_perm).
  replace (map (fun j => nth j (rev (seq 0 n)) 0%nat) (seq 0 n)) with (rev (seq 0 n)).
  - symmetry. apply Permutation_rev.
  - pose proof (map_nth_seq (fun x : nat => x) 0%nat (rev (seq 0 n))) as E.
    rewrite length_rev, length_seq, map_id in E. symmetry. exact E.
Qed.

Lemma nargsort_desc_length : List.length (nargsort_desc argsort v) = n.
Proof. rewrite (Permutation_length nargsort_desc_perm). apply length_seq. Qed.

Lemma nargsort_desc_keys :
  map (key v) (nargsort_desc argsort v) = rev (map (key (rev v)) A).
Proof.
  unfold nargsort_desc. fold n A. rewrite map_rev, map_map. f_equal.
  apply map_ext_in. intros j Hj. apply A_bound in Hj.
  rewrite back_nth by exact Hj. rewrite key_rev by exact Hj. reflexivity.
Qed.

Lemma nargsort_desc_sorted :
  StronglySorted (fun a b => (b <= a)%Q) (map (key v) (nargsort_desc argsort v)).
Proof.
  rewrite nargsort_desc_keys. apply StronglySorted_rev.
  apply Sorted_StronglySorted.
  - intros x y z. apply Qle_trans.
  - apply run_ok.
Qed.

Lemma nargsort_desc_nth a :
  (a < n)%nat ->
  nth a (nargsort_desc argsort v) 0%nat = (n - S (nth (n - S a) A 0%nat))%nat.
Proof.
  intros H. unfold nargsort_desc. fold n A.
  rewrite rev_nth by (rewrite length_map, A_length; exact H).
  rewrite length_map, A_length.
  rewrite (nth_indep _ 0%nat (nth 0 (rev (seq 0 n)) 0%nat))
    by (rewrite length_map, A_length; lia).
  rewrite (map_nth (fun j => nth j (rev (seq 0 n)) 0%nat)).
  apply back_nth. apply A_bound. apply nth_In. rewrite A_length. lia.
Qed.

Lemma nargsort_desc_ties :
  keeps_ties argsort (rev v) ->
  forall a b, (a < b < n)%nat ->
    (key v (nth a (nargsort_desc argsort v) 0%nat) ==
     key v (nth b (nargsort_desc argsort v) 0%nat))%Q ->
    (nth a (nargsort_desc argsort v) 0%nat < nth b (nargsort_desc argsort v) 0%nat)%nat.
Proof.
  intros K a b Hab E.
  rewrite !nargsort_desc_nth in * by lia.
  assert (Ba : (nth (n - S a) A 0 < n)%nat)
    by (apply A_bound, nth_In; rewrite A_length; lia).
  assert (Bb : (nth (n - S b) A 0 < n)%nat)
    by (apply A_bound, nth_In; rewrite A_length; lia).
  fold n in Ba, Bb.
  assert (T : (nth (n - S b) A 0 < nth (n - S a) A 0)%nat).
  { apply (K (n - S b) (n - S a))%nat.
    - rewrite length_rev. fold n. lia.
    - fold A. rewrite !key_rev by (fold n; assumption). fold n.
      symmetry. exact E. }
  lia.
Qed.

End Indexer.

(** ** Checking one call of [argsort] *)

Lemma ascending_sorted l : ascending l = true -> Sorted Qle l.
Proof.
  induction l as [|a [|b tl] IH]; intros H.
  - constructor.
  - repeat constructor.
  - cbn [ascending] in H. apply andb_true_iff in H. destruct H as [H1 H2].
    constructor; [apply IH; exact H2|].
    constructor. apply Qle_bool_iff. exact H1.
Qed.

Lemma sortsb_sound argsort v : sortsb argsort v = true -> sorts argsort v.
Proof.
  unfold sortsb. intros H.
  apply andb_true_iff in H. destruct H as [H H3].
  apply andb_true_iff in H. destruct H as [H1 H2].
  split; [|apply ascending_sorted; exact H3].
  symmetry. apply NoDup_Permutation_bis.
  - apply seq_NoDup.
  - rewrite length_seq. apply Nat.eqb_eq in H1. lia.
  - intros i Hi. rewrite forallb_forall in H2. specialize (H2 i Hi).
    apply existsb_exists in H2. destruct H2 as (j & Hj & E).
    apply Nat.eqb_eq in E. subst j. exact Hj.
Qed.

Lemma argsort_spec_call argsort rows :
  argsort_spec argsort -> sorts argsort (sort_call rows).
Proof. intros H. apply H. Qed.

(** ** [kind="stable"] meets the contract and keeps ties *)

Lemma before_trans v i j k : before v i j -> before v j k -> before v i k.
Proof.
  unfold before. intros [H1|[H1 L1]] [H2|[H2 L2]].
  - left. eapply Qlt_trans; eassumption.
  - left. rewrite <- H2. exact H1.
  - left. rewrite H1. exact H2.
  - right. split; [rewrite H1; exact H2|lia].
Qed.

Lemma insert_pos_In v i l j : In j (insert_pos v i l) <-> j = i \/ In j l.
Proof.
  induction l as [|h tl IH]; simpl.
  - intuition.
  - destruct (Qle_bool (key v i) (key v h)); simpl; [intuition|].
    rewrite IH. intuition.
Qed.

Lemma insert_pos_perm v i l : Permutation (insert_pos v i l) (i :: l).
Proof.
  induction l as [|h tl IH]; simpl; [reflexivity|].
  destruct (Qle_bool (key v i) (key v h)); [reflexivity|].
  rewrite IH. apply perm_swap.
Qed.

Lemma insert_pos_sorted v i l :
  StronglySorted (before v) l -> (forall j, In j l -> (i < j)%nat) ->
  StronglySorted (before v) (insert_pos v i l).
Proof.
  induction 1 as [|h tl S IH F]; intros Hlt; simpl.
  - repeat constructor.
  - destruct (Qle_bool (key v i) (key v h)) eqn:E.
    + assert (B : before v i h).
      { apply Qle_bool_iff in E. apply Qle_lt_or_eq in E.
        destruct E as [E|E]; [left; exact E|right; split; [exact E|]].
        apply Hlt. left; reflexivity. }
      constructor; [constructor; assumption|].
      constructor; [exact B|].
      eapply Forall_impl; [|exact F]. intros t Ht. eapply before_trans; eassumption.
    + constructor.
      * apply IH. intros j Hj. apply Hlt. right; exact Hj.
      * apply Forall_forall. intros t Ht. apply insert_pos_In in Ht.
        destruct Ht as [->|Ht].
        -- left. apply Qnot_le_lt. intros C. apply Qle_bool_iff in C. congruence.
        -- rewrite Forall_forall in F. apply F. exact Ht.
Qed.

Lemma fold_insert_sorted v m : forall s,
  StronglySorted (before v) (fold_right (insert_pos v) [] (seq s m)) /\
  (forall j, In j (fold_right (insert_pos v) [] (seq s m)) -> (s <= j)%nat).
Proof.
  induction m as [|m IH]; intros s; simpl.
  - split; [constructor|intros j []].
  - destruct (IH (S s)) as [S1 B1]. split.
    + apply insert_pos_sorted; [exact S1|]. intros j Hj. apply B1 in Hj. lia.
    + intros j Hj. apply insert_pos_In in Hj. destruct Hj as [->|Hj]; [lia|].
      apply B1 in Hj. lia.
Qed.

Lemma fold_insert_perm v l : Permutation (fold_right (insert_pos v) [] l) l.
Proof.
  induction l as [|a tl IH]; simpl; [reflexivity|].
  rewrite insert_pos_perm. constructor. exact IH.
Qed.

Lemma StronglySorted_nth {A : Type} (R : A -> A -> Prop) l d :
  StronglySorted R l ->
  forall a b, (a < b < List.length l)%nat -> R (nth a l d) (nth b l d).
Proof.
  induction 1 as [|h tl S IH F]; intros a b H; simpl in *; [lia|].
  destruct b as [|b]; [lia|]. destruct a as [|a].
  - rewrite Forall_forall in F. apply F. apply nth_In. lia.
  - apply IH. lia.
Qed.

Lemma argsort_stable_spec : argsort_spec argsort_stable.
Proof.
  intros v. unfold argsort_stable. split; [apply fold_insert_perm|].
  destruct (fold_insert_sorted v (List.length v) 0) as [S _].
  apply StronglySorted_Sorted.
  induction S as [|h tl S IH F]; simpl; constructor; [exact IH|].
  apply Forall_map. eapply Forall_impl; [|exact F].
  intros t [H|[H _]]; [apply Qlt_le_weak; exact H|rewrite H; apply Qle_refl].
Qed.

Lemma argsort_stable_keeps_ties : argsort_keeps_ties argsort_stable.
Proof.
  intros v a b H E. unfold argsort_stable in *.
  destruct (fold_insert_sorted v (List.length v) 0) as [S _].
  assert (L : List.length (fold_right (insert_pos v) [] (seq 0 (List.length v))) =
              List.length v).
  { rewrite (Permutation_length (fold_insert_perm v _)). apply length_seq. }
  destruct (StronglySorted_nth _ _ 0%nat S a b) as [C|[_ C]].
  - rewrite L. exact H.
  - rewrite E in C. exfalso. exact (Qlt_irrefl _ C).
  - exact C.
Qed.

(** ** The default kind sorts

    [Npy.aquicksort] returns, for every array, its positions in
    non-decreasing order of their entries. *)

Module NpyFacts.
Import Npy NpyState.

(** *** Arrays of positions *)

Lemma set_length a : forall p x, List.length (set a p x) = List.length a.
Proof. induction a as [|y tl IH]; intros [|p] x; simpl; auto. Qed.

Lemma get_set_same a : forall p x, (p < List.length a)%nat -> get (set a p x) p = x.
Proof.
  unfold get. induction a as [|y tl IH]; intros [|p] x H; simpl in *; try lia; auto.
  apply IH. lia.
Qed.

Lemma get_set_other a : forall p q x, p <> q -> get (set a p x) q = get a q.
Proof.
  unfold get. induction a as [|y tl IH]; intros [|p] [|q] x H; simpl; auto; try lia.
Qed.

Lemma set_beyond a : forall p x, (List.length a <= p)%nat -> set a p x = a.
Proof.
  induction a as [|y tl IH]; intros [|p] x H; simpl in *; auto; try lia.
  f_equal. apply IH. lia.
Qed.

Lemma set_get a : forall p, set a p (get a p) = a.
Proof.
  unfold get. induction a as [|y tl IH]; intros [|p]; simpl; auto. f_equal. apply IH.
Qed.

Lemma swap_length a p q : List.length (swap a p q) = List.length a.
Proof. unfold swap. rewrite !set_length. reflexivity. Qed.

Lemma get_swap_l a p q :
  (p < List.length a)%nat -> (q < List.length a)%nat -> get (swap a p q) p = get a q.
Proof.
  intros Hp Hq. unfold swap. destruct (Nat.eq_dec p q) as [->|N].
  - rewrite get_set_same; [reflexivity|rewrite set_length; exact Hq].
  - rewrite get_set_other by congruence. apply get_set_same. exact Hp.
Qed.

Lemma get_swap_r a p q :
  (q < List.length a)%nat -> get (swap a p q) q = get a p.
Proof.
  intros Hq. unfold swap. apply get_set_same. rewrite set_length. exact Hq.
Qed.

Lemma get_swap_other a p q i : i <> p -> i <> q -> get (swap a p q) i = get a i.
Proof. intros H1 H2. unfold swap. rewrite !get_set_other by congruence. reflexivity. Qed.

Lemma swap_same a p : swap a p p = a.
Proof.
  unfold swap. destruct (Nat.lt_ge_cases p (List.length a)) as [H|H].
  - rewrite set_get. apply set_get.
  - rewrite !set_beyond; [reflexivity| |]; rewrite ?set_length; exact H.
Qed.

Lemma set_perm a : forall p x,
  (p < List.length a)%nat -> Permutation (x :: a) (get a p :: set a p x).
Proof.
  unfold get. induction a as [|y tl IH]; intros [|p] x H; simpl in *; try lia.
  - apply perm_swap.
  - rewrite perm_swap. rewrite (IH p x) by lia. apply perm_swap.
Qed.

Lemma swap_perm a p q :
  (p < List.length a)%nat -> (q < List.length a)%nat -> Permutation (swap a p q) a.
Proof.
  intros Hp Hq. destruct (Nat.eq_dec p q) as [->|N]; [rewrite swap_same; reflexivity|].
  symmetry. apply Permutation_cons_inv with (a := get a q).
  rewrite (set_perm a p (get a q)) by exact Hp.
  rewrite (set_perm (set a p (get a q)) q (get a p))
    by (rewrite set_length; exact Hq).
  rewrite get_set_other by exact N. reflexivity.
Qed.

Section Sorting.

Variable v : list Q.

Local Abbreviation K := (NpyState.K v) (only parsing).
Local Abbreviation sorted_on := (NpyState.sorted_on v) (only parsing).
Local Abbreviation cut := (NpyState.cut v) (only parsing).
Local Abbreviation bubble := (NpyState.bubble v) (only parsing).
Local Abbreviation settling := (NpyState.settling v) (only parsing).
Local Abbreviation sdown := (NpyState.sdown v) (only parsing).
Local Abbreviation pending := (NpyState.pending v) (only parsing).



Lemma moves_trans lo hi a b c : moves lo hi a b -> moves lo hi b c -> moves lo hi a c.
Proof.
  induction 1; intros H'; [exact H'|].
  apply (moves_swap lo hi a c p q); auto.
Qed.

Lemma moves_one lo hi a p q :
  (lo <= p <= hi)%nat -> (lo <= q <= hi)%nat ->
  (p < List.length a)%nat -> (q < List.length a)%nat ->
  moves lo hi a (swap a p q).
Proof. intros. apply (moves_swap lo hi a _ p q); auto. apply moves_refl. Qed.

Lemma moves_widen lo hi lo' hi' a b :
  (lo' <= lo)%nat -> (hi <= hi')%nat -> moves lo hi a b -> moves lo' hi' a b.
Proof.
  intros H1 H2. induction 1; [apply moves_refl|].
  apply (moves_swap lo' hi' a b p q); auto; lia.
Qed.

Lemma moves_length lo hi a b : moves lo hi a b -> List.length b = List.length a.
Proof. induction 1; [reflexivity|]. rewrite IHmoves. apply swap_length. Qed.

Lemma moves_perm lo hi a b : moves lo hi a b -> Permutation b a.
Proof.
  induction 1; [reflexivity|]. rewrite IHmoves. apply swap_perm; assumption.
Qed.

Lemma moves_outside lo hi a b i :
  moves lo hi a b -> (i < lo \/ hi < i)%nat -> get b i = get a i.
Proof.
  induction 1; intros Hi; [reflexivity|].
  rewrite IHmoves by exact Hi. apply get_swap_other; lia.
Qed.

(** What holds of every entry of the segment still does after moves. *)
Lemma moves_forall lo hi a b (P : nat -> Prop) :
  moves lo hi a b ->
  (forall i, (lo <= i <= hi)%nat -> P (get a i)) ->
  forall i, (lo <= i <= hi)%nat -> P (get b i).
Proof.
  induction 1; intros HP; [exact HP|].
  apply IHmoves. intros i Hi.
  destruct (Nat.eq_dec i p) as [->|Np].
  - rewrite get_swap_l by assumption. apply HP. assumption.
  - destruct (Nat.eq_dec i q) as [->|Nq].
    + rewrite get_swap_r by assumption. apply HP. assumption.
    + rewrite get_swap_other by assumption. apply HP. exact Hi.
Qed.



Lemma cut_moves lo hi a b c :
  moves lo hi a b -> (hi < List.length a)%nat -> (c <= lo \/ hi < c)%nat ->
  cut a c -> cut b c.
Proof.
  intros M Hhi Hc C i j Hi Hj Hl.
  rewrite (moves_length _ _ _ _ M) in Hl.
  destruct Hc as [Hc|Hc].
  - (* the segment lies at or after [c] *)
    unfold K. rewrite (moves_outside _ _ _ _ i M) by lia.
    destruct (Nat.lt_ge_cases j lo) as [A|A];
      [|destruct (Nat.lt_ge_cases hi j) as [B|B]].
    + rewrite (moves_outside _ _ _ _ j M) by lia. apply C; lia.
    + rewrite (moves_outside _ _ _ _ j M) by lia. apply C; lia.
    + apply (moves_forall lo hi a b (fun x => (key v (get a i) <= key v x)%Q) M); [|lia].
      intros k Hk. apply C; lia.
  - (* the segment lies before [c] *)
    unfold K. rewrite (moves_outside _ _ _ _ j M) by lia.
    destruct (Nat.lt_ge_cases i lo) as [A|A];
      [|destruct (Nat.lt_ge_cases hi i) as [B|B]].
    + rewrite (moves_outside _ _ _ _ i M) by lia. apply C; lia.
    + rewrite (moves_outside _ _ _ _ i M) by lia. apply C; lia.
    + apply (moves_forall lo hi a b (fun x => (key v x <= key v (get a j))%Q) M); [|lia].
      intros k Hk. apply C; lia.
Qed.

Lemma cut_inside_sorted a lo hi c :
  cut a lo -> cut a (S hi) -> sorted_on a lo hi ->
  (lo <= c <= S hi)%nat -> cut a c.
Proof.
  intros C1 C2 S Hc i j Hi Hj Hl.
  destruct (Nat.lt_ge_cases i lo) as [A|A].
  - apply C1; lia.
  - destruct (Nat.lt_ge_cases hi j) as [B|B].
    + apply C2; lia.
    + apply S; lia.
Qed.

Lemma cut_at_pivot a lo hi p :
  cut a lo -> cut a (S hi) -> (lo <= p <= hi)%nat ->
  (forall i, (lo <= i < p)%nat -> (K a i <= K a p)%Q) ->
  (forall j, (p < j <= hi)%nat -> (K a p <= K a j)%Q) ->
  cut a p /\ cut a (S p).
Proof.
  intros C1 C2 Hp L R.
  assert (M : forall i j, (lo <= i <= p)%nat -> (p <= j <= hi)%nat -> (K a i <= K a j)%Q).
  { intros i j Hi Hj.
    apply Qle_trans with (K a p).
    - destruct (Nat.eq_dec i p) as [->|N]; [apply Qle_refl|apply L; lia].
    - destruct (Nat.eq_dec j p) as [->|N]; [apply Qle_refl|apply R; lia]. }
  split; intros i j Hi Hj Hl.
  - destruct (Nat.lt_ge_cases i lo) as [A|A]; [apply C1; lia|].
    destruct (Nat.lt_ge_cases hi j) as [B|B]; [apply C2; lia|].
    apply M; lia.
  - destruct (Nat.lt_ge_cases i lo) as [A|A]; [apply C1; lia|].
    destruct (Nat.lt_ge_cases hi j) as [B|B]; [apply C2; lia|].
    apply M; lia.
Qed.

(** *** Insertion *)


Lemma set_set a : forall p x y, set (set a p x) p y = set a p y.
Proof. induction a as [|z tl IH]; intros [|p] x y; simpl; auto. f_equal. apply IH. Qed.

Lemma sink_bubble fuel : forall a pl pj vi,
  (pj < List.length a)%nat ->
  sink fuel v a pl pj vi = bubble fuel (set a pj vi) pl pj.
Proof.
  induction fuel as [|f IH]; intros a pl pj vi H; [reflexivity|].
  cbn [sink bubble].
  rewrite get_set_same by exact H.
  destruct (pl <? pj)%nat eqn:E; [|reflexivity].
  apply Nat.ltb_lt in E.
  rewrite get_set_other by lia.
  cbn [andb]. destruct (lt v vi (get a (pj - 1))); [|reflexivity].
  rewrite IH by (rewrite set_length; lia).
  f_equal. unfold swap.
  rewrite get_set_same by exact H.
  rewrite get_set_other by lia.
  rewrite set_set. reflexivity.
Qed.

Lemma lt_true a i j : lt v (get a i) (get a j) = true -> (K a i < K a j)%Q.
Proof.
  unfold lt, K. intros H. apply negb_true_iff in H.
  apply Qnot_le_lt. intros C. apply Qle_bool_iff in C. congruence.
Qed.

Lemma lt_false a i j : lt v (get a i) (get a j) = false -> (K a j <= K a i)%Q.
Proof.
  unfold lt, K. intros H. apply negb_false_iff in H. apply Qle_bool_iff. exact H.
Qed.


Lemma K_swap_l a p q :
  (p < List.length a)%nat -> (q < List.length a)%nat -> K (swap a p q) p = K a q.
Proof. intros. unfold K. rewrite get_swap_l by assumption. reflexivity. Qed.

Lemma K_swap_r a p q :
  (q < List.length a)%nat -> K (swap a p q) q = K a p.
Proof. intros. unfold K. rewrite get_swap_r by assumption. reflexivity. Qed.

Lemma K_swap_other a p q i : i <> p -> i <> q -> K (swap a p q) i = K a i.
Proof. intros. unfold K. rewrite get_swap_other by assumption. reflexivity. Qed.

Lemma bubble_spec top pl fuel : forall a pj,
  (pl <= pj)%nat -> (pj <= top)%nat -> (top < List.length a)%nat ->
  (pj - pl <= fuel)%nat ->
  settling a pl pj top ->
  moves pl top a (bubble fuel a pl pj) /\ sorted_on (bubble fuel a pl pj) pl top.
Proof.
  induction fuel as [|f IH]; intros a pj H1 H2 H3 Hf [I1 I2].
  - cbn [bubble]. split; [apply moves_refl|].
    assert (pj = pl) by lia. subst pj.
    intros i j Hi Hij Hj.
    destruct (Nat.eq_dec i pl) as [->|Ni].
    + destruct (Nat.eq_dec j pl) as [->|Nj]; [apply Qle_refl|apply I2; lia].
    + apply I1; lia.
  - cbn [bubble].
    destruct (pl <? pj)%nat eqn:E; cbn [andb].
    + apply Nat.ltb_lt in E.
      destruct (lt v (get a pj) (get a (pj - 1))) eqn:L.
      * apply lt_true in L.
        destruct (IH (swap a pj (pj - 1)) (pj - 1)%nat) as [M S];
          try lia; [rewrite swap_length; lia| |].
        { split.
          - intros i j Hi Hij Hj Ni Nj.
            destruct (Nat.eq_dec i pj) as [->|Ni'];
              [rewrite K_swap_l by lia|rewrite K_swap_other by lia];
              (destruct (Nat.eq_dec j pj) as [->|Nj'];
               [rewrite K_swap_l by lia|rewrite K_swap_other by lia]).
            + apply Qle_refl.
            + apply I1; lia.
            + apply I1; lia.
            + apply I1; lia.
          - intros j Hj Hj'. rewrite K_swap_r by lia.
            destruct (Nat.eq_dec j pj) as [->|Nj'].
            + rewrite K_swap_l by lia. apply Qlt_le_weak. exact L.
            + rewrite K_swap_other by lia. apply I2; lia. }
        split; [|exact S].
        eapply moves_trans; [apply (moves_one pl top a pj (pj - 1)); lia|exact M].
      * apply lt_false in L. split; [apply moves_refl|].
        intros i j Hi Hij Hj.
        destruct (Nat.eq_dec i pj) as [->|Ni].
        -- destruct (Nat.eq_dec j pj) as [->|Nj]; [apply Qle_refl|apply I2; lia].
        -- destruct (Nat.eq_dec j pj) as [->|Nj]; [|apply I1; lia].
           apply Qle_trans with (K a (pj - 1)); [|exact L].
           destruct (Nat.eq_dec i (pj - 1)) as [->|N]; [apply Qle_refl|].
           apply I1; lia.
    + apply Nat.ltb_ge in E. assert (pj = pl) by lia. subst pj.
      split; [apply moves_refl|].
      intros i j Hi Hij Hj.
      destruct (Nat.eq_dec i pl) as [->|Ni].
      * destruct (Nat.eq_dec j pl) as [->|Nj]; [apply Qle_refl|apply I2; lia].
      * apply I1; lia.
Qed.

Lemma insertion_spec pl pr count : forall a pi,
  (pl < pi)%nat -> (pi + count = S pr)%nat -> (pr < List.length a)%nat ->
  sorted_on a pl (pi - 1) ->
  moves pl pr a (insertion count v a pl pi) /\
  sorted_on (insertion count v a pl pi) pl pr.
Proof.
  induction count as [|c IH]; intros a pi H1 H2 H3 So.
  - cbn [insertion]. split; [apply moves_refl|].
    replace pr with (pi - 1)%nat by lia. exact So.
  - cbn [insertion]. rewrite sink_bubble by lia. rewrite set_get.
    destruct (bubble_spec pi pl pi a pi) as [M S']; try lia.
    { split.
      - intros i j Hi Hij Hj Ni Nj. apply So; lia.
      - intros j Hj Hj'. lia. }
    destruct (IH (bubble pi a pl pi) (S pi)) as [M2 S2]; try lia.
    { rewrite (moves_length _ _ _ _ M). lia. }
    { replace (S pi - 1)%nat with pi by lia. exact S'. }
    split; [|exact S2].
    eapply moves_trans; [|exact M2].
    eapply moves_widen; [| |exact M]; lia.
Qed.

(** *** Partition *)

Lemma ltk_true (a : list nat) vp i : lt v (get a i) vp = true -> (K a i < key v vp)%Q.
Proof.
  unfold lt, K. intros H. apply negb_true_iff in H.
  apply Qnot_le_lt. intros C. apply Qle_bool_iff in C. congruence.
Qed.

Lemma ltk_false (a : list nat) vp i : lt v (get a i) vp = false -> (key v vp <= K a i)%Q.
Proof.
  unfold lt, K. intros H. apply negb_false_iff in H. apply Qle_bool_iff. exact H.
Qed.

Lemma klt_true (a : list nat) vp i : lt v vp (get a i) = true -> (key v vp < K a i)%Q.
Proof.
  unfold lt, K. intros H. apply negb_true_iff in H.
  apply Qnot_le_lt. intros C. apply Qle_bool_iff in C. congruence.
Qed.

Lemma klt_false (a : list nat) vp i : lt v vp (get a i) = false -> (K a i <= key v vp)%Q.
Proof.
  unfold lt, K. intros H. apply negb_false_iff in H. apply Qle_bool_iff. exact H.
Qed.

Lemma scan_up_spec a vp b fuel : forall pi,
  (pi < b)%nat -> (key v vp <= K a b)%Q -> (b - pi - 1 <= fuel)%nat ->
  let r := scan_up fuel v a vp pi in
  (pi < r <= b)%nat /\ (key v vp <= K a r)%Q /\
  (forall i, (pi < i < r)%nat -> (K a i < key v vp)%Q).
Proof.
  induction fuel as [|f IH]; intros pi H1 H2 H3; cbn [scan_up].
  - assert (b = S pi) by lia. subst b.
    split; [lia|]. split; [exact H2|]. intros i Hi. lia.
  - destruct (lt v (get a (S pi)) vp) eqn:E.
    + apply ltk_true in E.
      assert (S pi <> b) by (intros Heq; rewrite Heq in E; lra).
      destruct (IH (S pi)) as (R1 & R2 & R3); try lia; [exact H2|].
      split; [lia|]. split; [exact R2|].
      intros i Hi. destruct (Nat.eq_dec i (S pi)) as [->|N]; [exact E|apply R3; lia].
    + apply ltk_false in E.
      split; [lia|]. split; [exact E|]. intros i Hi. lia.
Qed.

Lemma scan_down_spec a vp b fuel : forall pj,
  (b < pj)%nat -> (K a b <= key v vp)%Q -> (pj - b - 1 <= fuel)%nat ->
  let r := scan_down fuel v a vp pj in
  (b <= r < pj)%nat /\ (K a r <= key v vp)%Q /\
  (forall i, (r < i < pj)%nat -> (key v vp < K a i)%Q).
Proof.
  induction fuel as [|f IH]; intros pj H1 H2 H3; cbn [scan_down].
  - assert (b = pj - 1)%nat by lia. subst b.
    split; [lia|]. split; [exact H2|]. intros i Hi. lia.
  - destruct (lt v vp (get a (pj - 1))) eqn:E.
    + apply klt_true in E.
      assert (pj - 1 <> b)%nat by (intros Heq; rewrite Heq in E; lra).
      destruct (IH (pj - 1)%nat) as (R1 & R2 & R3); try lia; [exact H2|].
      split; [lia|]. split; [exact R2|].
      intros i Hi. destruct (Nat.eq_dec i (pj - 1)) as [->|N]; [exact E|apply R3; lia].
    + apply klt_false in E.
      split; [lia|]. split; [exact E|]. intros i Hi. lia.
Qed.

Lemma cross_spec pl pr vp fuel : forall a pi pj,
  (pl <= pi)%nat -> (pi < pj)%nat -> (pj < pr)%nat -> (pr < List.length a)%nat ->
  (pj - pi - 1 <= fuel)%nat ->
  (forall i, (pl <= i <= pi)%nat -> (K a i <= key v vp)%Q) ->
  (forall j, (pj <= j <= pr)%nat -> (key v vp <= K a j)%Q) ->
  get a (pr - 1) = vp ->
  let '(b, p) := cross fuel v a vp pi pj in
  moves pl pr a b /\ (pl < p < pr)%nat /\
  (forall i, (pl <= i < p)%nat -> (K b i <= key v vp)%Q) /\
  (forall j, (p <= j <= pr)%nat -> (key v vp <= K b j)%Q) /\
  get b (pr - 1) = vp.
Proof.
  induction fuel as [|f IH]; intros a pi pj H1 H2 H3 H4 Hf L R E.
  - (* no exchange can be due *)
    cbn [cross].
    destruct (scan_up_spec a vp pj (List.length a) pi) as (U1 & U2 & U3);
      [lia|apply R; lia|lia|].
    destruct (scan_down_spec a vp pi (List.length a) pj) as (D1 & D2 & D3);
      [lia|apply L; lia|lia|].
    set (pi' := scan_up (List.length a) v a vp pi) in *.
    set (pj' := scan_down (List.length a) v a vp pj) in *.
    assert (C : (pj' <=? pi')%nat = true) by (apply Nat.leb_le; lia).
    rewrite C.
    split; [apply moves_refl|]. split; [lia|].
    split; [|split; [|exact E]].
    + intros i Hi. destruct (Nat.le_gt_cases i pi); [apply L; lia|].
      apply Qlt_le_weak. apply U3. lia.
    + intros j Hj. destruct (Nat.le_gt_cases pj j); [apply R; lia|].
      destruct (Nat.eq_dec j pi') as [->|N]; [exact U2|].
      apply Qlt_le_weak. apply D3. lia.
  - cbn [cross].
    destruct (scan_up_spec a vp pj (List.length a) pi) as (U1 & U2 & U3);
      [lia|apply R; lia|lia|].
    destruct (scan_down_spec a vp pi (List.length a) pj) as (D1 & D2 & D3);
      [lia|apply L; lia|lia|].
    set (pi' := scan_up (List.length a) v a vp pi) in *.
    set (pj' := scan_down (List.length a) v a vp pj) in *.
    destruct (pj' <=? pi')%nat eqn:C.
    + apply Nat.leb_le in C.
      split; [apply moves_refl|]. split; [lia|].
      split; [|split; [|exact E]].
      * intros i Hi. destruct (Nat.le_gt_cases i pi); [apply L; lia|].
        apply Qlt_le_weak. apply U3. lia.
      * intros j Hj. destruct (Nat.le_gt_cases pj j); [apply R; lia|].
        destruct (Nat.eq_dec j pi') as [->|N]; [exact U2|].
        apply Qlt_le_weak. apply D3. lia.
    + apply Nat.leb_gt in C.
      specialize (IH (swap a pi' pj') pi' pj').
      destruct (cross f v (swap a pi' pj') vp pi' pj') as [b p].
      destruct IH as (M & P1 & P2 & P3 & P4); try lia.
      { rewrite swap_length. lia. }
      { intros i Hi. destruct (Nat.eq_dec i pi') as [->|N].
        - rewrite K_swap_l by lia. exact D2.
        - rewrite K_swap_other by lia.
          destruct (Nat.le_gt_cases i pi); [apply L; lia|].
          apply Qlt_le_weak. apply U3. lia. }
      { intros j Hj. destruct (Nat.eq_dec j pj') as [->|N].
        - rewrite K_swap_r by lia. exact U2.
        - rewrite K_swap_other by lia.
          destruct (Nat.le_gt_cases pj j); [apply R; lia|].
          apply Qlt_le_weak. apply D3. lia. }
      { rewrite get_swap_other by lia. exact E. }
      split; [|auto].
      eapply moves_trans; [apply (moves_one pl pr a pi' pj'); lia|exact M].
Qed.

Lemma order_pair lo hi a p q :
  (lo <= p <= hi)%nat -> (lo <= q <= hi)%nat ->
  (p < List.length a)%nat -> (q < List.length a)%nat -> p <> q ->
  let b := swap_if (lt v (get a q) (get a p)) a q p in
  moves lo hi a b /\ (K b p <= K b q)%Q /\
  (forall i, i <> p -> i <> q -> K b i = K a i) /\
  (((K b p == K a p)%Q /\ (K b q == K a q)%Q) \/
   ((K b p == K a q)%Q /\ (K b q == K a p)%Q)).
Proof.
  intros Hp Hq Lp Lq N. cbv zeta. unfold swap_if.
  destruct (lt v (get a q) (get a p)) eqn:E.
  - apply lt_true in E.
    split; [apply moves_one; assumption|].
    rewrite K_swap_l, K_swap_r by assumption.
    split; [apply Qlt_le_weak; exact E|].
    split; [intros i H1 H2; apply K_swap_other; assumption|].
    right. split; reflexivity.
  - apply lt_false in E.
    split; [apply moves_refl|]. split; [exact E|].
    split; [reflexivity|]. left. split; reflexivity.
Qed.

Lemma div2_mid n : (2 <= n)%nat -> (1 <= Nat.div2 n < n)%nat.
Proof.
  intros H. rewrite Nat.div2_div.
  pose proof (Nat.div_mod_eq n 2). pose proof (Nat.mod_upper_bound n 2). lia.
Qed.

Lemma partition_spec a pl pr :
  (pl + 2 <= pr)%nat -> (pr < List.length a)%nat ->
  let '(b, p) := partition v a pl pr in
  moves pl pr a b /\ (pl < p < pr)%nat /\
  (forall i, (pl <= i < p)%nat -> (K b i <= K b p)%Q) /\
  (forall j, (p < j <= pr)%nat -> (K b p <= K b j)%Q).
Proof.
  intros H1 H2. unfold partition.
  pose proof (div2_mid (pr - pl)) as Hm.
  set (pm := (pl + Nat.div2 (pr - pl))%nat).
  assert (Hpm : (pl < pm < pr)%nat) by (unfold pm; lia). clearbody pm. clear Hm.
  destruct (order_pair pl pr a pl pm) as (M1 & O1 & S1 & _); try lia.
  set (a1 := swap_if (lt v (get a pm) (get a pl)) a pm pl) in *.
  assert (L1 : List.length a1 = List.length a) by (apply (moves_length _ _ _ _ M1)).
  destruct (order_pair pl pr a1 pm pr) as (M2 & O2 & S2 & C2); try lia.
  set (a2 := swap_if (lt v (get a1 pr) (get a1 pm)) a1 pr pm) in *.
  assert (L2 : List.length a2 = List.length a) by (rewrite (moves_length _ _ _ _ M2); exact L1).
  destruct (order_pair pl pr a2 pl pm) as (M3 & O3 & S3 & C3); try lia.
  set (a3 := swap_if (lt v (get a2 pm) (get a2 pl)) a2 pm pl) in *.
  assert (L3 : List.length a3 = List.length a) by (rewrite (moves_length _ _ _ _ M3); exact L2).
  assert (T : (K a3 pl <= K a3 pm)%Q /\ (K a3 pm <= K a3 pr)%Q).
  { pose proof (S2 pl) as E2. rewrite E2 in * by lia.
    pose proof (S3 pr) as E3. rewrite E3 by lia.
    split; [exact O3|].
    destruct C2 as [[c1 c2]|[c1 c2]]; destruct C3 as [[c3 c4]|[c3 c4]]; lra. }
  destruct T as [T1 T2].
  set (vp := get a3 pm).
  set (a4 := swap a3 pm (pr - 1)).
  assert (M4 : moves pl pr a3 a4) by (apply moves_one; lia).
  assert (L4 : List.length a4 = List.length a) by (unfold a4; rewrite swap_length; exact L3).
  pose proof (cross_spec pl pr vp (List.length a4) a4 pl (pr - 1)) as X.
  destruct (cross (List.length a4) v a4 vp pl (pr - 1)) as [b p].
  destruct X as (M5 & P1 & P2 & P3 & P4); try lia.
  { intros i Hi. assert (i = pl) by lia. subst i.
    unfold a4. rewrite K_swap_other by lia. exact T1. }
  { intros j Hj. destruct (Nat.eq_dec j (pr - 1)) as [->|N].
    - unfold a4. rewrite K_swap_r by lia. apply Qle_refl.
    - assert (j = pr) by lia. subst j.
      unfold a4. rewrite K_swap_other by lia. exact T2. }
  { unfold a4. apply get_swap_r. lia. }
  assert (L5 : List.length b = List.length a) by (rewrite (moves_length _ _ _ _ M5); exact L4).
  split.
  { eapply moves_trans; [exact M1|]. eapply moves_trans; [exact M2|].
    eapply moves_trans; [exact M3|]. eapply moves_trans; [exact M4|].
    eapply moves_trans; [exact M5|]. apply moves_one; lia. }
  split; [exact P1|].
  assert (Kp : K (swap b p (pr - 1)) p = key v vp).
  { destruct (Nat.eq_dec p (pr - 1)) as [->|N].
    - rewrite swap_same. unfold K. rewrite P4. reflexivity.
    - rewrite K_swap_l by lia. unfold K. rewrite P4. reflexivity. }
  rewrite Kp. split.
  - intros i Hi. rewrite K_swap_other by lia. apply P2. exact Hi.
  - intros j Hj. destruct (Nat.eq_dec j (pr - 1)) as [->|N].
    + rewrite K_swap_r by lia. apply P3. lia.
    + rewrite K_swap_other by lia. apply P3. lia.
Qed.

(** *** Heap sort *)


Lemma sift_sdown pl n fuel : forall a tmp i,
  (1 <= i)%nat -> (i <= n)%nat -> (pl + n <= List.length a)%nat ->
  sift fuel v a pl tmp i (i + i) n = sdown fuel (set a (pl + i - 1) tmp) pl i n.
Proof.
  induction fuel as [|f IH]; intros a tmp i H1 H2 H3; [reflexivity|].
  cbn [sift sdown].
  destruct (i + i <=? n)%nat eqn:E; [|reflexivity].
  apply Nat.leb_le in E.
  rewrite (get_set_other a (pl + i - 1) (pl + (i + i) - 1)) by lia.
  rewrite (get_set_other a (pl + i - 1) (pl + (i + i))) by lia.
  rewrite get_set_same by lia.
  set (j := if (i + i <? n)%nat && lt v (get a (pl + (i + i) - 1)) (get a (pl + (i + i)))
            then S (i + i) else (i + i)%nat).
  assert (Hj : (i < j <= n)%nat).
  { unfold j. destruct (i + i <? n)%nat eqn:E2; cbn [andb].
    - apply Nat.ltb_lt in E2. destruct (lt v _ _); lia.
    - lia. }
  clearbody j.
  rewrite get_set_other by lia.
  destruct (lt v tmp (get a (pl + j - 1))); [|reflexivity].
  rewrite IH by (rewrite ?set_length; lia).
  f_equal. unfold swap.
  rewrite get_set_same by lia. rewrite get_set_other by lia.
  rewrite set_set. reflexivity.
Qed.

Section Heap.

Variable pl : nat.

Local Abbreviation node := (NpyState.node v pl) (only parsing).
Local Abbreviation heap_from := (NpyState.heap_from v pl) (only parsing).
Local Abbreviation heap_but := (NpyState.heap_but v pl) (only parsing).




Lemma node_swap_l a i j :
  (1 <= i)%nat -> (1 <= j)%nat -> (pl + i <= List.length a)%nat ->
  (pl + j <= List.length a)%nat ->
  node (swap a (pl + i - 1) (pl + j - 1)) i = node a j.
Proof. intros. unfold node. apply K_swap_l; lia. Qed.

Lemma node_swap_r a i j :
  (1 <= j)%nat -> (pl + j <= List.length a)%nat ->
  node (swap a (pl + i - 1) (pl + j - 1)) j = node a i.
Proof. intros. unfold node. apply K_swap_r; lia. Qed.

Lemma node_swap_other a i j k :
  (1 <= i)%nat -> (1 <= j)%nat -> (1 <= k)%nat -> k <> i -> k <> j ->
  node (swap a (pl + i - 1) (pl + j - 1)) k = node a k.
Proof. intros. unfold node. apply K_swap_other; lia. Qed.

Lemma sdown_spec lo n top fuel : forall a i,
  (1 <= lo)%nat -> (lo <= i)%nat -> (i <= n)%nat -> (n <= top)%nat ->
  (pl + top <= List.length a)%nat ->
  (n < i + fuel)%nat ->
  heap_but a lo n i ->
  moves pl (pl + n - 1) a (sdown fuel a pl i n) /\
  heap_from (sdown fuel a pl i n) lo n.
Proof.
  induction fuel as [|f IH]; intros a i H0 H1 H2 H3 H4 Hf [B1 B2]; [lia|].
  cbn [sdown].
  destruct (i + i <=? n)%nat eqn:E.
  - apply Nat.leb_le in E.
    set (j := if (i + i <? n)%nat && lt v (get a (pl + (i + i) - 1)) (get a (pl + (i + i)))
              then S (i + i) else (i + i)%nat).
    (* [j] is the larger child *)
    assert (Hj : (j = i + i \/ j = S (i + i)) /\ (j <= n)%nat /\
                 (forall c, (c = i + i \/ c = S (i + i)) -> (c <= n)%nat ->
                            (node a c <= node a j)%Q)).
    { unfold j. destruct (i + i <? n)%nat eqn:E2; cbn [andb].
      - apply Nat.ltb_lt in E2.
        destruct (lt v (get a (pl + (i + i) - 1)) (get a (pl + (i + i)))) eqn:L.
        + apply lt_true in L. split; [right; reflexivity|]. split; [lia|].
          intros c [-> | ->] Hc; [|apply Qle_refl].
          unfold node. replace (pl + S (i + i) - 1)%nat with (pl + (i + i))%nat by lia.
          apply Qlt_le_weak. exact L.
        + apply lt_false in L. split; [left; reflexivity|]. split; [lia|].
          intros c [-> | ->] Hc; [apply Qle_refl|].
          unfold node. replace (pl + S (i + i) - 1)%nat with (pl + (i + i))%nat by lia.
          exact L.
      - apply Nat.ltb_ge in E2. split; [left; reflexivity|]. split; [lia|].
        intros c [-> | ->] Hc; [apply Qle_refl|lia]. }
    clearbody j. destruct Hj as (Hj1 & Hj2 & Hj3).
    destruct (lt v (get a (pl + i - 1)) (get a (pl + j - 1))) eqn:L.
    + apply lt_true in L. fold (node a i) in L. fold (node a j) in L.
      destruct (IH (swap a (pl + i - 1) (pl + j - 1)) j) as [M Hp]; try lia.
      { rewrite swap_length. lia. }
      { split.
        - intros k c Hk Nk Hc Hcn.
          destruct (Nat.eq_dec k i) as [->|Nki].
          + rewrite node_swap_l by lia.
            destruct (Nat.eq_dec c j) as [->|Ncj].
            * rewrite node_swap_r by lia. apply Qlt_le_weak. exact L.
            * rewrite node_swap_other by lia. apply Hj3; assumption.
          + rewrite (node_swap_other a i j k) by lia.
            destruct (Nat.eq_dec c i) as [->|Nci].
            * rewrite node_swap_l by lia. apply (B2 k j); try assumption; lia.
            * rewrite node_swap_other by lia. apply B1; assumption.
        - intros p c Hp Hpj Hc Hcn.
          assert (p = i) by lia. subst p.
          rewrite node_swap_l by lia. rewrite node_swap_other by lia.
          apply B1; try assumption; lia. }
      split; [|exact Hp].
      eapply moves_trans; [apply (moves_one pl (pl + n - 1) a (pl + i - 1) (pl + j - 1)); lia|].
      exact M.
    + apply lt_false in L. fold (node a i) in L. fold (node a j) in L.
      split; [apply moves_refl|].
      intros k c Hk Hc Hcn. destruct (Nat.eq_dec k i) as [->|N].
      * apply Qle_trans with (node a j); [apply Hj3; assumption|exact L].
      * apply B1; assumption.
  - apply Nat.leb_gt in E. split; [apply moves_refl|].
    intros k c Hk Hc Hcn. destruct (Nat.eq_dec k i) as [->|N]; [lia|].
    apply B1; assumption.
Qed.

Lemma heapify_spec n l : forall a,
  (l <= n)%nat -> (pl + n <= List.length a)%nat ->
  heap_from a (S l) n ->
  moves pl (pl + n - 1) a (heapify l v a pl n) /\
  heap_from (heapify l v a pl n) 1 n.
Proof.
  induction l as [|l IH]; intros a H1 H2 Hh.
  - cbn [heapify]. split; [apply moves_refl|exact Hh].
  - cbn [heapify]. rewrite sift_sdown by lia. rewrite set_get.
    destruct (sdown_spec (S l) n n n a (S l)) as [M Hp]; try lia.
    { split.
      - intros k c Hk Nk Hc Hcn. apply Hh; try assumption. lia.
      - intros p c Hp Hpi Hc Hcn. lia. }
    destruct (IH (sdown n a pl (S l) n)) as [M2 Hp2]; try lia.
    { rewrite (moves_length _ _ _ _ M). exact H2. }
    { exact Hp. }
    split; [|exact Hp2]. eapply moves_trans; [exact M|exact M2].
Qed.

Lemma heap_root a n :
  heap_from a 1 n -> forall k, (1 <= k <= n)%nat -> (node a k <= node a 1)%Q.
Proof.
  intros Hh k. induction k as [k IH] using lt_wf_ind. intros Hk.
  destruct (Nat.eq_dec k 1) as [->|N]; [apply Qle_refl|].
  pose proof (Nat.div_mod_eq k 2) as D. pose proof (Nat.mod_upper_bound k 2) as U.
  set (p := (k / 2)%nat) in *.
  apply Qle_trans with (node a p).
  - apply Hh; lia.
  - apply IH; lia.
Qed.

Lemma unheap_spec top m : forall a,
  (pl + m <= S top)%nat -> (S top <= List.length a)%nat -> (pl <= top)%nat ->
  heap_from a 1 m ->
  sorted_on a (pl + m) top ->
  (forall i j, (pl <= i)%nat -> (i < pl + m)%nat -> (pl + m <= j)%nat -> (j <= top)%nat ->
               (K a i <= K a j)%Q) ->
  moves pl top a (unheap m v a pl) /\ sorted_on (unheap m v a pl) pl top.
Proof.
  induction m as [|m IH]; intros a H1 H2 H3 Hh So Cr.
  - cbn [unheap]. split; [apply moves_refl|].
    replace pl with (pl + 0)%nat by lia. exact So.
  - destruct m as [|m].
    + cbn [unheap]. split; [apply moves_refl|].
      intros i j Hi Hij Hj.
      destruct (Nat.eq_dec i pl) as [->|Ni].
      * destruct (Nat.eq_dec j pl) as [->|Nj]; [apply Qle_refl|apply Cr; lia].
      * apply So; lia.
    + cbn [unheap].
      change 2%nat with (1 + 1)%nat.
      rewrite sift_sdown by (rewrite ?set_length; lia).
      replace (set (set a (pl + S (S m) - 1) (get a pl)) (pl + 1 - 1)
                   (get a (pl + S (S m) - 1)))
        with (swap a (pl + S (S m) - 1) pl)
        by (unfold swap; replace (pl + 1 - 1)%nat with pl by lia; reflexivity).
      set (b := swap a (pl + S (S m) - 1) pl).
      assert (Lb : List.length b = List.length a) by apply swap_length.
      assert (Mb : moves pl top a b) by (apply moves_one; lia).
      assert (Kb1 : K b pl = K a (pl + S (S m) - 1)).
      { unfold b. apply K_swap_r. lia. }
      assert (Kb2 : K b (pl + S (S m) - 1) = K a pl).
      { unfold b. apply K_swap_l; lia. }
      assert (Kb3 : forall i, i <> pl -> i <> (pl + S (S m) - 1)%nat -> K b i = K a i).
      { intros i N1 N2. unfold b. apply K_swap_other; assumption. }
      pose proof (heap_root a (S (S m)) Hh) as Root.
      destruct (sdown_spec 1 (S m) (S m) (S (S m)) b 1) as [M Hp]; try lia.
      { split.
        - intros k c Hk Nk Hc Hcn. unfold node.
          rewrite !Kb3 by lia. apply Hh; try assumption. lia.
        - intros p c Hp Hpi Hc Hcn. lia. }
      set (c := sdown (S (S m)) b pl 1 (S m)) in *.
      assert (Lc : List.length c = List.length a)
        by (rewrite (moves_length _ _ _ _ M); exact Lb).
      destruct (IH c) as [M2 S2]; try lia.
      { exact Hp. }
      { (* the tail, one longer, is in order *)
        intros i j Hi Hij Hj. unfold K.
        rewrite !(moves_outside _ _ _ _ _ M) by lia. fold (K b i). fold (K b j).
        destruct (Nat.eq_dec i (pl + S (S m) - 1)) as [->|Ni].
        - destruct (Nat.eq_dec j (pl + S (S m) - 1)) as [->|Nj]; [apply Qle_refl|].
          rewrite Kb2, Kb3 by lia. apply Cr; lia.
        - rewrite !Kb3 by lia. apply So; lia. }
      { (* the heap lies below the tail *)
        intros i j Hi Hi2 Hj Hj2. unfold K at 2.
        rewrite (moves_outside _ _ _ _ j M) by lia. fold (K b j).
        apply (moves_forall pl (pl + S m - 1) b c (fun x => (key v x <= K b j)%Q) M);
          [|lia].
        intros i' Hi'. fold (K b i').
        assert (Ha : forall t, (pl <= t)%nat -> (t < pl + S (S m))%nat ->
                     (K a t <= K b j)%Q).
        { intros t Ht Ht2.
          destruct (Nat.eq_dec j (pl + S (S m) - 1)) as [->|Nj].
          - rewrite Kb2.
            pose proof (Root (t - pl + 1)%nat) as R. unfold node in R.
            replace (pl + (t - pl + 1) - 1)%nat with t in R by lia.
            replace (pl + 1 - 1)%nat with pl in R by lia.
            apply R. lia.
          - rewrite Kb3 by lia. apply Cr; lia. }
        destruct (Nat.eq_dec i' pl) as [->|Ni'].
        - rewrite Kb1. apply Ha; lia.
        - rewrite Kb3 by lia. apply Ha; lia. }
      split; [|exact S2].
      eapply moves_trans; [exact Mb|]. eapply moves_trans; [|exact M2].
      eapply moves_widen; [| |exact M]; lia.
Qed.

Lemma aheapsort_spec a n :
  (1 <= n)%nat -> (pl + n <= List.length a)%nat ->
  moves pl (pl + n - 1) a (aheapsort v a pl n) /\
  sorted_on (aheapsort v a pl n) pl (pl + n - 1).
Proof.
  intros H1 H2. unfold aheapsort.
  pose proof (Nat.div_mod_eq n 2) as D. pose proof (Nat.mod_upper_bound n 2) as U.
  destruct (heapify_spec n (Nat.div2 n) a) as [M Hh].
  { rewrite Nat.div2_div. lia. }
  { exact H2. }
  { intros k c Hk Hc Hcn. rewrite Nat.div2_div in Hk. lia. }
  destruct (unheap_spec (pl + n - 1) n (heapify (Nat.div2 n) v a pl n)) as [M2 S2];
    [lia|rewrite (moves_length _ _ _ _ M); lia|lia|exact Hh
    |intros i j Hi Hij Hj; lia|intros i j Hi Hi2 Hj Hj2; lia|].
  split; [|exact S2]. eapply moves_trans; [exact M|exact M2].
Qed.

End Heap.

(** *** The stack of segments *)






Lemma pending_bounds a l r rest :
  pending a ((l, r) :: rest) ->
  (l <= r)%nat /\ (r < List.length a)%nat /\ cut a l /\ cut a (S r).
Proof.
  intros (W & [D _] & C).
  destruct (W l r (or_introl eq_refl)) as [W1 W2].
  split; [exact W1|]. split; [exact W2|].
  split.
  - destruct (C l) as [H|(l' & r' & [E|I] & H)]; [exact H| |].
    + injection E as <- <-. lia.
    + specialize (D _ I). unfold apart in D. simpl in D. lia.
  - destruct (C (S r)) as [H|(l' & r' & [E|I] & H)]; [exact H| |].
    + injection E as <- <-. lia.
    + specialize (D _ I). unfold apart in D. simpl in D. lia.
Qed.

Lemma pending_moves a b l r rest :
  pending a ((l, r) :: rest) -> moves l r a b -> pending b ((l, r) :: rest).
Proof.
  intros P M. destruct (pending_bounds _ _ _ _ P) as (B1 & B2 & _).
  destruct P as (W & D & C).
  split; [|split; [exact D|]].
  - intros l' r' H. rewrite (moves_length _ _ _ _ M). apply W. exact H.
  - intros c. destruct (C c) as [H|H]; [|right; exact H].
    destruct (Nat.le_gt_cases c l) as [A|A].
    + left. apply (cut_moves l r a b c M); auto.
    + destruct (Nat.lt_ge_cases r c) as [A'|A'].
      * left. apply (cut_moves l r a b c M); auto.
      * right. exists l, r. split; [left; reflexivity|lia].
Qed.

Lemma pending_done a l r rest :
  pending a ((l, r) :: rest) -> sorted_on a l r -> pending a rest.
Proof.
  intros P So. destruct (pending_bounds _ _ _ _ P) as (B1 & B2 & C1 & C2).
  destruct P as (W & [_ D] & C).
  split; [|split; [exact D|]].
  - intros l' r' H. apply W. right. exact H.
  - intros c. destruct (C c) as [H|(l' & r' & [E|I] & H)].
    + left. exact H.
    + injection E as <- <-. left.
      apply (cut_inside_sorted a l r c C1 C2 So). lia.
    + right. exists l', r'. split; assumption.
Qed.

Lemma pending_split a l r p rest :
  pending a ((l, r) :: rest) -> (l < p < r)%nat ->
  (forall i, (l <= i < p)%nat -> (K a i <= K a p)%Q) ->
  (forall j, (p < j <= r)%nat -> (K a p <= K a j)%Q) ->
  pending a ((l, p - 1) :: (S p, r) :: rest) /\
  pending a ((S p, r) :: (l, p - 1) :: rest).
Proof.
  intros P Hp L R. destruct (pending_bounds _ _ _ _ P) as (B1 & B2 & C1 & C2).
  destruct (cut_at_pivot a l r p C1 C2) as [Cp CSp]; [lia|exact L|exact R|].
  destruct P as (W & [D1 D2] & C).
  assert (A1 : forall s', In s' rest -> apart (l, (p - 1)%nat) s').
  { intros s' I. specialize (D1 _ I). unfold apart in *. simpl in *. lia. }
  assert (A2 : forall s', In s' rest -> apart (S p, r) s').
  { intros s' I. specialize (D1 _ I). unfold apart in *. simpl in *. lia. }
  assert (Wn : forall l' r', In (l', r') ((l, (p - 1)%nat) :: (S p, r) :: rest) ->
                 (l' <= r')%nat /\ (r' < List.length a)%nat).
  { intros l' r' [E|[E|I]]; [injection E as <- <-; lia|injection E as <- <-; lia|].
    apply W. right. exact I. }
  assert (Cn : forall c, cut a c \/
                 exists l' r', In (l', r') ((l, (p - 1)%nat) :: (S p, r) :: rest) /\
                               (l' < c <= r')%nat).
  { intros c. destruct (C c) as [H|(l' & r' & [E|I] & H)].
    - left. exact H.
    - injection E as <- <-.
      destruct (Nat.eq_dec c p) as [->|N1]; [left; exact Cp|].
      destruct (Nat.eq_dec c (S p)) as [->|N2]; [left; exact CSp|].
      right. destruct (Nat.lt_ge_cases c p).
      + exists l, (p - 1)%nat. split; [left; reflexivity|lia].
      + exists (S p), r. split; [right; left; reflexivity|lia].
    - right. exists l', r'. split; [right; right; exact I|exact H]. }
  split.
  - split; [exact Wn|]. split; [|exact Cn].
    split; [|split; [exact A2|exact D2]].
    intros s' [<-|I]; [unfold apart; simpl; lia|apply A1; exact I].
  - split; [|split].
    + intros l' r' [E|[E|I]]; apply Wn; [right; left|left|right; right]; assumption.
    + split; [|split; [exact A1|exact D2]].
      intros s' [<-|I]; [unfold apart; simpl; lia|apply A2; exact I].
    + intros c. destruct (Cn c) as [H|(l' & r' & [E|[E|I]] & H)]; [left; exact H| | |];
        right; exists l', r'; (split; [|exact H]).
      * right; left; exact E.
      * left; exact E.
      * right; right; exact I.
Qed.

Lemma split_spec fuel : forall a pl pr d stack,
  pending a ((pl, pr) :: segsof stack) ->
  let '(b, pl', pr', stack') := split fuel v a pl pr d stack in
  pending b ((pl', pr') :: segsof stack') /\
  moves 0 (List.length a - 1) a b /\
  (mu ((pl', pr') :: segsof stack') <= mu ((pl, pr) :: segsof stack))%nat.
Proof.
  induction fuel as [|f IH]; intros a pl pr d stack P.
  - cbn [split]. split; [exact P|]. split; [apply moves_refl|lia].
  - cbn [split].
    destruct (SMALL_QUICKSORT <? pr - pl)%nat eqn:E;
      [|split; [exact P|]; split; [apply moves_refl|lia]].
    apply Nat.ltb_lt in E. unfold SMALL_QUICKSORT in E.
    destruct (pending_bounds _ _ _ _ P) as (B1 & B2 & _).
    pose proof (partition_spec a pl pr) as X.
    destruct (partition v a pl pr) as [b p].
    destruct X as (M & Hp & L & R); [lia|exact B2|].
    pose proof (pending_moves _ _ _ _ _ P M) as Pb.
    destruct (pending_split b pl pr p _ Pb Hp L R) as [P1 P2].
    assert (Lb : List.length b = List.length a) by apply (moves_length _ _ _ _ M).
    assert (Mw : moves 0 (List.length a - 1) a b)
      by (eapply moves_widen; [| |exact M]; lia).
    destruct (p - pl <? pr - p)%nat.
    + specialize (IH b pl (p - 1)%nat (d - 1)%Z ((p + 1, pr, (d - 1)%Z)%nat :: stack)).
      cbn [segsof map fst] in IH. fold (segsof stack) in IH.
      replace (p + 1)%nat with (S p) in * by lia.
      destruct (split f v b pl (p - 1) (d - 1) ((S p, pr, (d - 1)%Z) :: stack))
        as [[[c pl'] pr'] stack'].
      destruct (IH P1) as (Q1 & Q2 & Q3).
      split; [exact Q1|]. split.
      * eapply moves_trans; [exact Mw|]. rewrite <- Lb. exact Q2.
      * cbn [mu] in *. fold (segsof stack) in *. lia.
    + specialize (IH b (p + 1)%nat pr (d - 1)%Z ((pl, (p - 1)%nat, (d - 1)%Z) :: stack)).
      cbn [segsof map fst] in IH. fold (segsof stack) in IH.
      replace (p + 1)%nat with (S p) in * by lia.
      destruct (split f v b (S p) pr (d - 1) ((pl, (p - 1)%nat, (d - 1)%Z) :: stack))
        as [[[c pl'] pr'] stack'].
      destruct (IH P2) as (Q1 & Q2 & Q3).
      split; [exact Q1|]. split.
      * eapply moves_trans; [exact Mw|]. rewrite <- Lb. exact Q2.
      * cbn [mu] in *. fold (segsof stack) in *. lia.
Qed.

Lemma segments_spec fuel : forall a pl pr d stack,
  pending a ((pl, pr) :: segsof stack) ->
  (mu ((pl, pr) :: segsof stack) <= fuel)%nat ->
  let r := segments fuel v a pl pr d stack in
  pending r [] /\ moves 0 (List.length a - 1) a r.
Proof.
  induction fuel as [|f IH]; intros a pl pr d stack P Hm; [cbn [mu] in Hm; lia|].
  cbn [segments].
  (* one segment is finished, by heap sort or by splitting and insertion *)
  assert (X : exists b stack',
             (if (d <? 0)%Z
              then (aheapsort v a pl (pr - pl + 1), stack)
              else let '(a0, pl0, pr0, stack0) := split (List.length a) v a pl pr d stack in
                   (insertion (pr0 - pl0) v a0 pl0 (S pl0), stack0)) = (b, stack') /\
             pending b (segsof stack') /\ moves 0 (List.length a - 1) a b /\
             (mu (segsof stack') <= f)%nat).
  { destruct (d <? 0)%Z.
    - destruct (pending_bounds _ _ _ _ P) as (B1 & B2 & _).
      destruct (aheapsort_spec pl a (pr - pl + 1)) as [M So]; try lia.
      replace (pl + (pr - pl + 1) - 1)%nat with pr in * by lia.
      exists (aheapsort v a pl (pr - pl + 1)), stack.
      split; [reflexivity|]. split; [|split].
      + eapply pending_done; [eapply pending_moves; [exact P|exact M]|exact So].
      + eapply moves_widen; [| |exact M]; lia.
      + cbn [mu] in Hm. lia.
    - pose proof (split_spec (List.length a) a pl pr d stack P) as Y.
      destruct (split (List.length a) v a pl pr d stack) as [[[b pl'] pr'] stack'].
      destruct Y as (Q1 & Q2 & Q3).
      destruct (pending_bounds _ _ _ _ Q1) as (B1 & B2 & _).
      destruct (insertion_spec pl' pr' (pr' - pl') b (S pl')) as [M So]; try lia.
      { replace (S pl' - 1)%nat with pl' by lia.
        intros i j Hi Hij Hj. assert (i = j) by lia. subst j. apply Qle_refl. }
      exists (insertion (pr' - pl') v b pl' (S pl')), stack'.
      split; [reflexivity|]. split; [|split].
      + eapply pending_done; [eapply pending_moves; [exact Q1|exact M]|exact So].
      + eapply moves_trans; [exact Q2|].
        eapply moves_widen; [| |exact M];
          [lia|rewrite <- (moves_length _ _ _ _ Q2); lia].
      + cbn [mu] in Q3, Hm. cbn [mu] in *. lia. }
  destruct X as (b & stack' & E & Pb & Mb & Hb). rewrite E.
  destruct stack' as [|[[pl' pr'] d'] stack''].
  - split; [exact Pb|exact Mb].
  - cbn [segsof map fst] in Pb, Hb.
    destruct (IH b pl' pr' d' stack'' Pb Hb) as [R1 R2].
    split; [exact R1|].
    eapply moves_trans; [exact Mb|].
    rewrite <- (moves_length _ _ _ _ Mb). exact R2.
Qed.

End Sorting.

Lemma pairwise_sorted (l : list Q) :
  (forall i j, (i < j)%nat -> (j < List.length l)%nat -> (nth i l 0 <= nth j l 0)%Q) ->
  Sorted Qle l.
Proof.
  induction l as [|x tl IH]; intros H; [constructor|].
  constructor.
  - apply IH. intros i j Hij Hj. apply (H (S i) (S j)); simpl; lia.
  - destruct tl as [|y tl']; constructor.
    apply (H 0%nat 1%nat); simpl; lia.
Qed.

(** The default kind sorts every array. *)
Lemma aquicksort_sorts : argsort_spec aquicksort.
Proof.
  intros v. unfold sorts, aquicksort. cbv zeta.
  destruct (List.length v) as [|m] eqn:En.
  - split; [reflexivity|constructor].
  - set (n := S m) in *.
    assert (P0 : pending v (seq 0 n) [(0, n - 1)%nat]).
    { split; [|split].
      - intros l r [E|[]]. injection E as <- <-. rewrite length_seq. lia.
      - split; [intros s' []|exact I].
      - intros c. destruct (Nat.eq_dec c 0) as [->|N0].
        + left. intros i j Hi. lia.
        + destruct (Nat.le_gt_cases c (n - 1)).
          * right. exists 0%nat, (n - 1)%nat. split; [left; reflexivity|lia].
          * left. intros i j Hi Hj Hl. rewrite length_seq in Hl. lia. }
    destruct (segments_spec v (S n) (seq 0 n) 0 (n - 1) (2 * Z.log2 (Z.of_nat n)) [] P0)
      as [(_ & _ & C) M].
    { cbn [mu segsof map]. lia. }
    set (r := segments (S n) v (seq 0 n) 0 (n - 1) (2 * Z.log2 (Z.of_nat n)) []) in *.
    split.
    + apply (moves_perm _ _ _ _ M).
    + apply pairwise_sorted. intros i j Hij Hj.
      rewrite length_map in Hj.
      rewrite !(nth_indep (map (key v) r) 0%Q (key v 0%nat)) by (rewrite length_map; lia).
      rewrite !map_nth.
      destruct (C j) as [H|(l' & r' & [] & _)].
      apply (H i j); lia.
Qed.

End NpyFacts.

(** ** The frame returned for a batch *)

Ltac find_ranked :=
  unfold ranked_frame, scored_columns; cbn [columns];
  rewrite lookup_put, lookup_take, ?lookup_put; eqb_names;
  try (rewrite nine_columns by assumption; cbn [columns lookup]; eqb_names);
  reflexivity.

Lemma ranked_value_score ix rows :
  lookup "value_score" (columns (ranked_frame ix rows)) =
  Some (NumCol (take_cells ix (map Some (value_scores rows)))).
Proof. find_ranked. Qed.

Lemma ranked_value_rank ix rows :
  lookup "value_rank" (columns (ranked_frame ix rows)) =
  Some (value_rank_col (List.length ix)).
Proof.
  unfold ranked_frame; cbn [columns]. rewrite lookup_put. eqb_names. reflexivity.
Qed.

Lemma ranked_attribute ix rows raw norm :
  rows <> [] -> In (raw, norm) scored_attributes ->
  exists x,
    List.length x = List.length rows /\
    lookup raw (columns (ranked_frame ix rows)) = Some (NumCol (take_cells ix x)) /\
    lookup norm (columns (ranked_frame ix rows)) =
      Some (NumCol (take_cells ix (norm_cells x))).
Proof.
  intros Hne H. simpl in H.
  destruct H as [H|[H|[H|[H|[]]]]]; injection H as <- <-.
  - exists (prices rows). split; [apply length_map|]. split; find_ranked.
  - exists (depreciations rows). split; [apply length_map|]. split; find_ranked.
  - exists (mileages rows). split; [apply length_map|]. split; find_ranked.
  - exists (ages rows). split; [unfold ages; rewrite !length_map; reflexivity|].
    split; find_ranked.
Qed.

Lemma ranked_carried ix rows : carried ix (DataFrame_of_rows rows) (ranked_frame ix rows).
Proof.
  intros name c H.
  destruct rows as [|r tl]; [discriminate|].
  assert (Hne : r :: tl <> []) by discriminate.
  set (rows := r :: tl) in *. clearbody rows.
  assert (D : ~ In name derived_names).
  { rewrite nine_columns in H by assumption. cbn [columns lookup] in H.
    repeat match type of H with
           | (if String.eqb ?a name then _ else _) = _ =>
               destruct (String.eqb_spec a name) as [<-|_];
               [intros D; vm_compute in D; intuition discriminate|]
           end.
    discriminate. }
  unfold ranked_frame, scored_columns; cbn [columns].
  rewrite lookup_put, lookup_take, !lookup_put.
  repeat match goal with
         | |- context [String.eqb ?a name] =>
             destruct (String.eqb_spec a name) as [<-|_];
             [exfalso; apply D; vm_compute; tauto|]
         end.
  rewrite H. reflexivity.
Qed.

Lemma nth_take_cells {A : Type} (ix : list nat) (l : list (option A)) k :
  nth k (take_cells ix l) None =
  match nth_error ix k with Some i => nth i l None | None => None end.
Proof.
  unfold take_cells. revert k; induction ix as [|i tl IH]; intros [|k]; simpl; auto.
Qed.

Lemma value_scores_nth rows j :
  (j < List.length rows)%nat ->
  nth j (map Some (value_scores rows)) None = Some (value_score_at rows j).
Proof.
  intros H. unfold value_scores. rewrite map_map.
  rewrite (nth_indep _ None (Some (value_score_at rows 0)))
    by (rewrite length_map, length_seq; exact H).
  rewrite (map_nth (fun i => Some (value_score_at rows i))).
  rewrite seq_nth by exact H. reflexivity.
Qed.

Lemma value_scores_key rows j :
  (j < List.length rows)%nat -> key (value_scores rows) j = value_score_at rows j.
Proof.
  intros H. unfold key, value_scores.
  rewrite (nth_indep _ 0%Q (value_score_at rows 0))
    by (rewrite length_map, length_seq; exact H).
  rewrite map_nth. rewrite seq_nth by exact H. reflexivity.
Qed.

Lemma value_scores_length rows : List.length (value_scores rows) = List.length rows.
Proof. unfold value_scores. rewrite length_map. apply length_seq. Qed.

(** The score column of the returned frame, read through the indexer. *)
Lemma take_scores ix rows :
  (forall i, In i ix -> (i < List.length rows)%nat) ->
  take_cells ix (map Some (value_scores rows)) =
  map Some (map (key (value_scores rows)) ix).
Proof.
  intros H. unfold take_cells. rewrite map_map. apply map_ext_in.
  intros i Hi. rewrite value_scores_nth by auto.
  rewrite value_scores_key by auto. reflexivity.
Qed.

(** ** Rounding and the range of a score *)

Lemma rint_floor q : (Qfloor q <= rint q <= Qfloor q + 1)%Z.
Proof.
  unfold rint. destruct (Qcompare _ _); [destruct (Z.even _)| |]; lia.
Qed.

Lemma rint_lower (a : Z) q : (inject_Z a <= q)%Q -> (a <= rint q)%Z.
Proof.
  intros H. apply Qfloor_resp_le in H. rewrite Qfloor_Z in H.
  pose proof (rint_floor q). lia.
Qed.

Lemma rint_upper (b : Z) q : (q <= inject_Z b)%Q -> (rint q <= b)%Z.
Proof.
  intros H. pose proof (Qfloor_resp_le _ _ H) as F. rewrite Qfloor_Z in F.
  pose proof (rint_floor q) as R.
  destruct (Z.eq_dec (Qfloor q) b) as [E|N]; [|lia].
  assert (C : (q - inject_Z (Qfloor q) ?= 1 # 2)%Q = Lt).
  { pose proof (Qfloor_le q) as L. rewrite E in *.
    set (t := inject_Z b) in *. clearbody t. rewrite <- Qlt_alt. lra. }
  unfold rint. rewrite C. lia.
Qed.

Lemma np_round1_range q :
  (0 <= q)%Q -> (q <= 100)%Q -> (0 <= np_round1 q)%Q /\ (np_round1 q <= 100)%Q.
Proof.
  intros H0 H1. unfold np_round1.
  assert (L : (0 <= rint (q * 10))%Z) by (apply rint_lower; change (inject_Z 0) with 0%Q; lra).
  assert (U : (rint (q * 10) <= 1000)%Z).
  { apply rint_upper. change (inject_Z 1000) with 1000%Q. lra. }
  rewrite Zle_Qle in L, U.
  change (inject_Z 0) with 0%Q in L. change (inject_Z 1000) with 1000%Q in U.
  set (z := inject_Z (rint (q * 10))) in *. clearbody z.
  split.
  - apply Qle_shift_div_l; lra.
  - apply Qle_shift_div_r; lra.
Qed.

Lemma safe_val_norm_range x i :
  (0 <= safe_val (nth i (norm_cells x) None))%Q /\
  (safe_val (nth i (norm_cells x) None) <= 1)%Q.
Proof.
  destruct (nth i (norm_cells x) None) as [q|] eqn:E; simpl.
  - eapply norm_cells_range. exact E.
  - split; discriminate.
Qed.

Lemma score_range p d m a :
  (0 <= p <= 1)%Q -> (0 <= d <= 1)%Q -> (0 <= m <= 1)%Q -> (0 <= a <= 1)%Q ->
  (0 <= score p d m a * 100)%Q /\ (score p d m a * 100 <= 100)%Q.
Proof. unfold score. intros. lra. Qed.

Lemma value_score_at_range rows i :
  (0 <= value_score_at rows i)%Q /\ (value_score_at rows i <= 100)%Q.
Proof.
  unfold value_score_at.
  apply np_round1_range; apply score_range; apply safe_val_norm_range.
Qed.

Lemma neutral_score :
  (np_round1 (score (1 # 2) (1 # 2) (1 # 2) (1 # 2) * 100) == 50)%Q.
Proof. vm_compute. reflexivity. Qed.

(** In binary64 the weighted sum of four halves falls one step short of
    0.5, and the rounding to one decimal brings the score to 50 exactly. *)
Example neutral_score_binary64 :
  Binary64.score 0.5 0.5 0.5 0.5 = 0x1.fffffffffffffp-2%float /\
  Binary64.np_round1 (Binary64.score 0.5 0.5 0.5 0.5 * 100) = 50%float.
Proof. split; vm_compute; reflexivity. Qed.

Lemma unscored_score rows j r :
  nth_error rows j = Some r -> unscored r ->
  value_score_at rows j = np_round1 (score (1 # 2) (1 # 2) (1 # 2) (1 # 2) * 100).
Proof.
  intros Hj (Hp & Hd & Hm & Hy).
  assert (N : forall f : ListingRecord -> option Q,
             f r = None -> nth j (map f rows) None = None).
  { intros f Hf. rewrite <- Hf.
    clear -Hj. revert j Hj; induction rows as [|a tl IH]; intros [|j] H;
      simpl in *; try discriminate; [congruence|auto]. }
  unfold value_score_at.
  assert (E1 : nth j (norm_cells (prices rows)) None = None).
  { apply norm_cells_none. apply (N (fun r => num_of (price_sgd r))).
    rewrite Hp. reflexivity. }
  assert (E2 : nth j (norm_cells (depreciations rows)) None = None).
  { apply norm_cells_none. apply (N (fun r => num_of (depreciation_per_year r))).
    rewrite Hd. reflexivity. }
  assert (E3 : nth j (norm_cells (mileages rows)) None = None).
  { apply norm_cells_none. apply (N (fun r => num_of (mileage_km r))).
    rewrite Hm. reflexivity. }
  assert (E4 : nth j (norm_cells (ages rows)) None = None).
  { apply norm_cells_none. unfold ages. rewrite map_map.
    apply (N (fun r => option_map (fun y => (current_year - y)%Q) (num_of (year r)))).
    rewrite Hy. reflexivity. }
  rewrite E1, E2, E3, E4. reflexivity.
Qed.


Lemma value_rank_cells n :
  value_rank_col n = NumCol (map (fun r => Some (inject_Z (Z.of_nat r))) (seq 1 n)).
Proof.
  unfold value_rank_col. f_equal. rewrite <- seq_shift, map_map.
  apply map_ext. intros i. do 2 f_equal. lia.
Qed.

Lemma rank_nth n k :
  (k < n)%nat ->
  nth k (map (fun r => Some (inject_Z (Z.of_nat r))) (seq 1 n)) None =
  Some (inject_Z (Z.of_nat (S k))).
Proof.
  intros H.
  rewrite (nth_indep _ None (Some (inject_Z (Z.of_nat 0))))
    by (rewrite length_map, length_seq; exact H).
  rewrite (map_nth (fun r => Some (inject_Z (Z.of_nat r)))).
  rewrite seq_nth by exact H. reflexivity.
Qed.

(** ** Scorer: the claims about a batch *)

Section Ranking.

Variable argsort : list Q -> list nat.
Variable rows : list ListingRecord.
Hypothesis call_ok : sorts argsort (sort_call rows).

Let N := List.length rows.
Let ix := nargsort_desc argsort (value_scores rows).

Lemma ix_perm : Permutation ix (seq 0 N).
Proof.
  subst ix N. rewrite <- (value_scores_length rows).
  apply nargsort_desc_perm. exact call_ok.
Qed.

Lemma ix_length : List.length ix = N.
Proof. rewrite (Permutation_length ix_perm). apply length_seq. Qed.

Lemma ix_bound i : In i ix -> (i < N)%nat.
Proof. intros H. apply (Permutation_in _ ix_perm) in H. apply in_seq in H. lia. Qed.

Lemma ranked_scores :
  lookup "value_score" (columns (ranked_frame ix rows)) =
  Some (NumCol (map Some (map (value_score_at rows) ix))).
Proof.
  rewrite ranked_value_score, take_scores by apply ix_bound.
  do 3 f_equal. apply map_ext_in. intros i Hi.
  apply value_scores_key. apply ix_bound. exact Hi.
Qed.

Lemma ranked_sorted :
  StronglySorted (fun a b => (b <= a)%Q) (map (value_score_at rows) ix).
Proof.
  replace (map (value_score_at rows) ix) with (map (key (value_scores rows)) ix).
  - apply nargsort_desc_sorted. exact call_ok.
  - apply map_ext_in. intros i Hi. apply value_scores_key. apply ix_bound. exact Hi.
Qed.

Lemma ranked_nth a :
  (a < N)%nat ->
  nth a (map (value_score_at rows) ix) 0%Q = key (value_scores rows) (nth a ix 0%nat).
Proof.
  intros H.
  rewrite (nth_indep _ 0%Q (value_score_at rows 0)) by (rewrite length_map, ix_length; exact H).
  rewrite map_nth. symmetry. apply value_scores_key.
  apply ix_bound. apply nth_In. rewrite ix_length. exact H.
Qed.

End Ranking.

(** C3, as the code has it.  In the frame returned for a non-empty batch,
    each of the four normalised scores lies in [0,1] when present, and it
    is missing in a row exactly when the raw attribute is missing in that
    same row (so it is missing in every row when the whole batch lacks
    the attribute, and also in single rows of a batch that has it). *)
Theorem C3_normalised_score_follows_own_attribute :
  forall (argsort : list Q -> list nat) (rows : list ListingRecord),
    rows <> [] ->
    exists out,
      compute_value_scores argsort (DataFrame_of_rows rows) = Ok out /\
      forall raw norm, In (raw, norm) scored_attributes ->
        exists xs ns,
          lookup raw (columns out) = Some (NumCol xs) /\
          lookup norm (columns out) = Some (NumCol ns) /\
          List.length xs = nrows out /\ List.length ns = nrows out /\
          forall k,
            (nth k ns None = None <-> nth k xs None = None) /\
            (forall q, nth k ns None = Some q -> (0 <= q)%Q /\ (q <= 1)%Q).
Proof.
  intros argsort rows Hne.
  eexists. split; [apply scorer_run; exact Hne|].
  intros raw norm Hin.
  destruct (ranked_attribute (nargsort_desc argsort (value_scores rows)) rows
              raw norm Hne Hin) as (x & Hlen & Hraw & Hnorm).
  eexists; eexists. split; [exact Hraw|]. split; [exact Hnorm|].
  unfold ranked_frame, take_cells; cbn [nrows]. rewrite !length_map.
  split; [reflexivity|]. split; [reflexivity|].
  intros k. fold (take_cells (nargsort_desc argsort (value_scores rows)) x).
  fold (take_cells (nargsort_desc argsort (value_scores rows)) (norm_cells x)).
  rewrite !nth_take_cells.
  destruct (nth_error _ k) as [i|].
  - split; [apply norm_cells_none|intros q; apply norm_cells_range].
  - split; [tauto|discriminate].
Qed.

Lemma C3_witness :
  exists out,
    compute_value_scores Npy.aquicksort (DataFrame_of_rows one_priced_one_not) = Ok out /\
    forall raw norm, In (raw, norm) scored_attributes ->
      exists xs ns,
        lookup raw (columns out) = Some (NumCol xs) /\
        lookup norm (columns out) = Some (NumCol ns) /\
        List.length xs = nrows out /\ List.length ns = nrows out /\
        forall k,
          (nth k ns None = None <-> nth k xs None = None) /\
          (forall q, nth k ns None = Some q -> (0 <= q)%Q /\ (q <= 1)%Q).
Proof.
  apply (C3_normalised_score_follows_own_attribute Npy.aquicksort one_priced_one_not).
  discriminate.
Defined.

(** C3, as the design document has it, fails: the batch has a price, yet
    the record without a price has no normalised price. *)
Lemma C3_counterexample :
  exists out,
    compute_value_scores Npy.aquicksort (DataFrame_of_rows one_priced_one_not) = Ok out /\
    lookup "price_sgd" (columns out) = Some (NumCol [Some (inject_Z 50000); None]) /\
    lookup "price_norm" (columns out) = Some (NumCol [Some (1 # 2)%Q; None]).
Proof.
  eexists. split; [vm_compute; reflexivity|]. split; reflexivity.
Qed.

(** C5. In a non-empty batch, a record without price, depreciation,
    mileage and year is found in the returned frame (row [k], where the
    indexer [ix] of the sort puts it) with [value_score] 50 and with the
    rank [k + 1], a number from 1 to N.  The one thing taken from numpy is
    that its [argsort], called on the score column of this batch, returns
    the positions in ascending order of value, as every sort kind does;
    the default kind does so on every array ([NpyFacts.aquicksort_sorts]). *)
Theorem C5_record_without_attributes_scores_50 :
  forall (argsort : list Q -> list nat) (rows : list ListingRecord),
    sorts argsort (sort_call rows) ->
    rows <> [] ->
    exists out ix,
      compute_value_scores argsort (DataFrame_of_rows rows) = Ok out /\
      nrows out = List.length rows /\
      Permutation ix (seq 0 (List.length rows)) /\
      carried ix (DataFrame_of_rows rows) out /\
      forall j r,
        nth_error rows j = Some r -> unscored r ->
        exists k s,
          nth_error ix k = Some j /\
          nth k (num_cells "value_score" out) None = Some s /\ (s == 50)%Q /\
          nth k (num_cells "value_rank" out) None = Some (inject_Z (Z.of_nat (S k))) /\
          (1 <= S k <= List.length rows)%nat.
Proof.
  intros argsort rows Hok Hne.
  set (ix := nargsort_desc argsort (value_scores rows)).
  exists (ranked_frame ix rows), ix.
  split; [apply scorer_run; exact Hne|].
  split; [apply ix_length; exact Hok|].
  split; [apply ix_perm; exact Hok|].
  split; [apply ranked_carried|].
  intros j r Hj Hr.
  assert (Hlt : (j < List.length rows)%nat) by (apply nth_error_Some; congruence).
  assert (Hin : In j ix).
  { apply (Permutation_in _ (Permutation_sym (ix_perm argsort rows Hok))).
    apply in_seq. lia. }
  destruct (In_nth_error _ _ Hin) as [k Hk].
  assert (Hkl : (k < List.length rows)%nat).
  { rewrite <- (ix_length argsort rows Hok). apply nth_error_Some. fold ix. congruence. }
  exists k, (value_score_at rows j).
  split; [exact Hk|].
  unfold num_cells. rewrite ranked_value_score, ranked_value_rank, value_rank_cells.
  rewrite nth_take_cells, Hk, value_scores_nth by exact Hlt.
  split; [reflexivity|].
  split; [rewrite (unscored_score rows j r Hj Hr); apply neutral_score|].
  unfold ix. rewrite (ix_length argsort rows Hok).
  split; [apply rank_nth; exact Hkl|lia].
Qed.

Lemma C5_witness :
  exists out ix,
    compute_value_scores Npy.aquicksort (DataFrame_of_rows one_priced_one_not) = Ok out /\
    nrows out = 2%nat /\
    Permutation ix [0; 1]%nat /\
    carried ix (DataFrame_of_rows one_priced_one_not) out /\
    forall j r,
      nth_error one_priced_one_not j = Some r -> unscored r ->
      exists k s,
        nth_error ix k = Some j /\
        nth k (num_cells "value_score" out) None = Some s /\ (s == 50)%Q /\
        nth k (num_cells "value_rank" out) None = Some (inject_Z (Z.of_nat (S k))) /\
        (1 <= S k <= 2)%nat.
Proof.
  apply (C5_record_without_attributes_scores_50 Npy.aquicksort one_priced_one_not).
  - apply sortsb_sound. vm_compute. reflexivity.
  - discriminate.
Defined.

(** The four weights add up to one. *)
Lemma weights_sum_to_one : (0.35 + 0.30 + 0.20 + 0.15 == 1)%Q.
Proof. reflexivity. Qed.

(** With [kind="stable"], rows of equal score keep the order of the batch. *)
Lemma stable_kind_keeps_batch_order rows a b :
  (a < b < List.length rows)%nat ->
  let ix := nargsort_desc argsort_stable (value_scores rows) in
  (value_score_at rows (nth a ix 0%nat) == value_score_at rows (nth b ix 0%nat))%Q ->
  (nth a ix 0 < nth b ix 0)%nat.
Proof.
  intros Hab ix E.
  pose proof (argsort_stable_spec (sort_call rows)) as Hok.
  assert (B : forall c, (c < List.length rows)%nat -> (nth c ix 0 < List.length rows)%nat).
  { intros c Hc. apply (ix_bound argsort_stable rows Hok).
    apply nth_In. rewrite (ix_length argsort_stable rows Hok). exact Hc. }
  apply (nargsort_desc_ties argsort_stable (value_scores rows) Hok
           (argsort_stable_keeps_ties _) a b).
  - rewrite value_scores_length. exact Hab.
  - fold ix. rewrite !value_scores_key by (apply B; lia). exact E.
Qed.

(** C6. For a non-empty batch of N records, every [value_score] of the
    returned frame lies in [0,100]; the [value_rank] column reads 1, 2,
    ..., N from the first row down, which is a permutation of 1..N without
    gap or repetition; and the first row, the one of rank 1, has a score
    no other row exceeds.  As in C5, numpy's [argsort] is taken to sort
    the score column of the batch, which the default kind does on every
    array ([NpyFacts.aquicksort_sorts]). *)
Theorem C6_scores_in_range_and_ranks_1_to_N :
  forall (argsort : list Q -> list nat) (rows : list ListingRecord),
    sorts argsort (sort_call rows) ->
    rows <> [] ->
    exists out scores ranks,
      compute_value_scores argsort (DataFrame_of_rows rows) = Ok out /\
      nrows out = List.length rows /\
      lookup "value_score" (columns out) = Some (NumCol (map Some scores)) /\
      List.length scores = List.length rows /\
      Forall (fun s => (0 <= s)%Q /\ (s <= 100)%Q) scores /\
      lookup "value_rank" (columns out) =
        Some (NumCol (map (fun r => Some (inject_Z (Z.of_nat r))) ranks)) /\
      ranks = seq 1 (List.length rows) /\
      Permutation ranks (seq 1 (List.length rows)) /\
      NoDup ranks /\
      (forall s, In s scores -> (s <= nth 0 scores 0)%Q).
Proof.
  intros argsort rows Hok Hne.
  set (ix := nargsort_desc argsort (value_scores rows)).
  exists (ranked_frame ix rows), (map (value_score_at rows) ix), (seq 1 (List.length rows)).
  split; [apply scorer_run; exact Hne|].
  split; [apply ix_length; exact Hok|].
  split; [apply ranked_scores; exact Hok|].
  split; [rewrite length_map; apply ix_length; exact Hok|].
  split.
  { apply Forall_forall. intros s Hs. apply in_map_iff in Hs.
    destruct Hs as (i & <- & _). apply value_score_at_range. }
  split.
  { rewrite ranked_value_rank, value_rank_cells.
    unfold ix. rewrite (ix_length argsort rows Hok). reflexivity. }
  split; [reflexivity|]. split; [reflexivity|]. split; [apply seq_NoDup|].
  pose proof (ranked_sorted argsort rows Hok) as S. fold ix in S.
  destruct (map (value_score_at rows) ix) as [|h tl]; [intros s []|].
  intros s [<-|Hs]; simpl; [apply Qle_refl|].
  apply StronglySorted_inv in S. destruct S as [_ F].
  rewrite Forall_forall in F. apply F. exact Hs.
Qed.

Lemma C6_witness :
  exists out scores ranks,
    compute_value_scores Npy.aquicksort (DataFrame_of_rows [car_B; car_A]) = Ok out /\
    nrows out = 2%nat /\
    lookup "value_score" (columns out) = Some (NumCol (map Some scores)) /\
    List.length scores = 2%nat /\
    Forall (fun s => (0 <= s)%Q /\ (s <= 100)%Q) scores /\
    lookup "value_rank" (columns out) =
      Some (NumCol (map (fun r => Some (inject_Z (Z.of_nat r))) ranks)) /\
    ranks = [1; 2]%nat /\
    Permutation ranks [1; 2]%nat /\
    NoDup ranks /\
    (forall s, In s scores -> (s <= nth 0 scores 0)%Q).
Proof.
  apply (C6_scores_in_range_and_ranks_1_to_N Npy.aquicksort [car_B; car_A]).
  - apply sortsb_sound. vm_compute. reflexivity.
  - discriminate.
Defined.

(** The example of the design document: A ranks first with 100, B second
    with 0, whichever of the two sort routines is used. *)
Example end_to_end_A_before_B :
  forall argsort, In argsort [argsort_stable; Npy.aquicksort] ->
    exists out,
      compute_value_scores argsort (DataFrame_of_rows [car_B; car_A]) = Ok out /\
      lookup "title" (columns out) = Some (ObjCol [Some "A"; Some "B"]) /\
      lookup "value_score" (columns out) = Some (NumCol [Some 100.0%Q; Some 0.0%Q]) /\
      lookup "value_rank" (columns out) =
        Some (NumCol [Some (inject_Z 1); Some (inject_Z 2)]).
Proof.
  intros argsort [<-|[<-|[]]]; eexists; (split; [vm_compute; reflexivity|]);
    repeat split; reflexivity.
Qed.

(** C1, as the code has it.  The returned frame holds the rows of the
    batch, each once, picked by the indexer [ix] of the sort, and their
    scores never increase from one row to the next.  Rows of equal score
    keep the order of the batch when the sort routine keeps the ties of
    the score column (as kind "stable" does); the call asks for no such
    routine.  As in C5, numpy's [argsort] is taken to sort the score
    column of the batch, which the default kind does on every array
    ([NpyFacts.aquicksort_sorts]). *)
Theorem C1_ranking_descends_ties_follow_sort_kind :
  forall (argsort : list Q -> list nat) (rows : list ListingRecord),
    sorts argsort (sort_call rows) ->
    rows <> [] ->
    exists out ix scores,
      compute_value_scores argsort (DataFrame_of_rows rows) = Ok out /\
      Permutation ix (seq 0 (List.length rows)) /\
      carried ix (DataFrame_of_rows rows) out /\
      scores = map (value_score_at rows) ix /\
      lookup "value_score" (columns out) = Some (NumCol (map Some scores)) /\
      StronglySorted (fun a b => (b <= a)%Q) scores /\
      (keeps_ties argsort (sort_call rows) ->
       forall a b, (a < b < List.length rows)%nat ->
         (nth a scores 0 == nth b scores 0)%Q ->
         (nth a ix 0 < nth b ix 0)%nat).
Proof.
  intros argsort rows Hok Hne.
  set (ix := nargsort_desc argsort (value_scores rows)).
  exists (ranked_frame ix rows), ix, (map (value_score_at rows) ix).
  split; [apply scorer_run; exact Hne|].
  split; [apply ix_perm; exact Hok|].
  split; [apply ranked_carried|].
  split; [reflexivity|].
  split; [apply ranked_scores; exact Hok|].
  split; [apply ranked_sorted; exact Hok|].
  intros K a b Hab E. unfold ix in *.
  rewrite !(ranked_nth argsort rows Hok) in E by lia.
  apply (nargsort_desc_ties argsort (value_scores rows) Hok K a b).
  - rewrite value_scores_length. exact Hab.
  - exact E.
Qed.

Lemma C1_witness :
  exists out ix scores,
    compute_value_scores Npy.aquicksort (DataFrame_of_rows eighteen_alike) = Ok out /\
    Permutation ix (seq 0 18) /\
    carried ix (DataFrame_of_rows eighteen_alike) out /\
    scores = map (value_score_at eighteen_alike) ix /\
    lookup "value_score" (columns out) = Some (NumCol (map Some scores)) /\
    StronglySorted (fun a b => (b <= a)%Q) scores /\
    (keeps_ties Npy.aquicksort (sort_call eighteen_alike) ->
     forall a b, (a < b < 18)%nat ->
       (nth a scores 0 == nth b scores 0)%Q ->
       (nth a ix 0 < nth b ix 0)%nat).
Proof.
  apply (C1_ranking_descends_ties_follow_sort_kind Npy.aquicksort eighteen_alike).
  - apply sortsb_sound. vm_compute. reflexivity.
  - discriminate.
Defined.

(** With [kind="stable"] the eighteen equal records stay in place. *)
Example eighteen_alike_stable :
  exists out,
    compute_value_scores argsort_stable (DataFrame_of_rows eighteen_alike) = Ok out /\
    lookup "raw_text" (columns out) = Some (ObjCol (map (fun r => Some (raw_text r)) eighteen_alike)).
Proof. eexists. split; [vm_compute; reflexivity|]. reflexivity. Qed.

(** C1, as the design document has it, fails with the sort the code asks
    for: of eighteen records that all score 50, "car 15" stands before
    "car 16" in the batch and after it in the ranking. *)
Lemma C1_counterexample :
  nth 15 (map raw_text eighteen_alike) "" = "car 15" /\
  nth 16 (map raw_text eighteen_alike) "" = "car 16" /\
  sortsb Npy.aquicksort (sort_call eighteen_alike) = true /\
  exists out,
    compute_value_scores Npy.aquicksort (DataFrame_of_rows eighteen_alike) = Ok out /\
    nth 2 (obj_cells "raw_text" out) None = Some "car 16" /\
    nth 3 (obj_cells "raw_text" out) None = Some "car 15" /\
    nth 2 (num_cells "value_score" out) None = Some 50.0%Q /\
    nth 3 (num_cells "value_score" out) None = Some 50.0%Q.
Proof.
  split; [reflexivity|]. split; [reflexivity|].
  split; [vm_compute; reflexivity|].
  eexists. split; [vm_compute; reflexivity|].
  repeat split; reflexivity.
Qed.

(* ------------------------------------------------------------------ *)
(** * Further properties *)

Module ReFacts.
Import Re ReLang.

Lemma set_cap_In n s cs m g :
  In (m, g) (set_cap n s cs) -> (m = n /\ g = s) \/ In (m, g) cs.
Proof.
  unfold set_cap. intros [E|H].
  - injection E as <- <-. left. split; reflexivity.
  - right. apply filter_In in H. apply H.
Qed.

Section Sound.

Variable ic : bool.
Variable r0 : regex.
Variable text : chars.

Local Abbreviation ok := (caps_ok ic r0 text) (only parsing).

(** Whatever [run] hands to its continuation is a state reached by
    consuming a text of the pattern. *)
Lemma run_sound : forall r st k c,
  sub_groups r0 r ->
  within text st -> ok (caps st) ->
  run ic r st k = Some c ->
  exists st' w,
    rest st = (w ++ rest st')%list /\ lang ic r w /\
    ok (caps st') /\ k st' = Some c.
Proof.
  induction r as [ch|p| |r1 IH1 r2 IH2|r1 IH1 r2 IH2|lo hi r' IH|n r' IH];
    intros st k c SG W OK R.
  - cbn [run] in R. unfold step_char in R.
    destruct (rest st) as [|x xs] eqn:E; [discriminate|].
    destruct (lit_ok ic ch x) eqn:L; [|discriminate].
    exists (MState (Some x) xs (caps st)), [x]. cbn [rest caps].
    split; [reflexivity|]. split; [|split; assumption].
    exists x. split; [reflexivity|exact L].
  - cbn [run] in R. unfold step_char in R.
    destruct (rest st) as [|x xs] eqn:E; [discriminate|].
    destruct (p x) eqn:L; [|discriminate].
    exists (MState (Some x) xs (caps st)), [x]. cbn [rest caps].
    split; [reflexivity|]. split; [|split; assumption].
    exists x. split; [reflexivity|exact L].
  - cbn [run] in R.
    destruct (xorb _ _); [|discriminate].
    exists st, []. split; [reflexivity|]. split; [reflexivity|]. split; assumption.
  - cbn [run] in R.
    assert (S1 : sub_groups r0 r1).
    { intros n r' H. apply SG. cbn. apply in_or_app. left. exact H. }
    assert (S2 : sub_groups r0 r2).
    { intros n r' H. apply SG. cbn. apply in_or_app. right. exact H. }
    destruct (IH1 _ _ _ S1 W OK R) as (st1 & w1 & E1 & L1 & OK1 & R1).
    assert (W1 : within text st1).
    { destruct W as [pre W]. exists (pre ++ w1)%list.
      rewrite <- app_assoc, <- E1. exact W. }
    destruct (IH2 _ _ _ S2 W1 OK1 R1) as (st2 & w2 & E2 & L2 & OK2 & R2).
    exists st2, (w1 ++ w2)%list. split; [|split; [|split]]; try assumption.
    + rewrite E1, E2, app_assoc. reflexivity.
    + exists w1, w2. split; [reflexivity|]. split; assumption.
  - cbn [run] in R.
    assert (S1 : sub_groups r0 r1).
    { intros n r' H. apply SG. cbn. apply in_or_app. left. exact H. }
    assert (S2 : sub_groups r0 r2).
    { intros n r' H. apply SG. cbn. apply in_or_app. right. exact H. }
    destruct (run ic r1 st k) as [c1|] eqn:R1.
    + injection R as <-.
      destruct (IH1 _ _ _ S1 W OK R1) as (st1 & w1 & E1 & L1 & OK1 & K1).
      exists st1, w1. split; [exact E1|]. split; [left; exact L1|]. split; assumption.
    + destruct (IH2 _ _ _ S2 W OK R) as (st1 & w1 & E1 & L1 & OK1 & K1).
      exists st1, w1. split; [exact E1|]. split; [right; exact L1|]. split; assumption.
  - cbn [run] in R.
    assert (S1 : sub_groups r0 r') by (intros n r1 H; apply SG; exact H).
    assert (B0 : match hi with None => True | Some h => (0 <= h)%nat end)
      by (destruct hi; [lia|exact I]).
    assert (G : forall fuel cnt st0,
      match hi with None => True | Some h => (cnt <= h)%nat end ->
      within text st0 -> ok (caps st0) ->
      (fix loop (fuel cnt : nat) (st0 : mstate) {struct fuel} : option captures :=
         let stop := if (lo <=? cnt)%nat then k st0 else None in
         match fuel with
         | O => stop
         | S fuel' =>
             if may_repeat hi cnt then
               match run ic r' st0
                       (fun st1 =>
                          if (List.length (rest st1) <? List.length (rest st0))%nat
                          then loop fuel' (S cnt) st1 else None) with
               | Some c => Some c
               | None => stop
               end
             else stop
         end) fuel cnt st0 = Some c ->
      exists st' ws,
        rest st0 = (List.concat ws ++ rest st')%list /\ Forall (lang ic r') ws /\
        (lo <= cnt + List.length ws)%nat /\
        match hi with None => True | Some h => (cnt + List.length ws <= h)%nat end /\
        ok (caps st') /\ k st' = Some c).
    { clear R W OK B0.
      assert (Stop : forall cnt st0,
        match hi with None => True | Some h => (cnt <= h)%nat end ->
        ok (caps st0) ->
        (if (lo <=? cnt)%nat then k st0 else None) = Some c ->
        exists st' ws,
          rest st0 = (List.concat ws ++ rest st')%list /\ Forall (lang ic r') ws /\
          (lo <= cnt + List.length ws)%nat /\
          match hi with None => True | Some h => (cnt + List.length ws <= h)%nat end /\
          ok (caps st') /\ k st' = Some c).
      { intros cnt st0 B OK E.
        destruct (Nat.leb_spec lo cnt); [|discriminate].
        exists st0, []. cbn [List.concat List.length app]. rewrite Nat.add_0_r.
        split; [reflexivity|]. split; [constructor|]. split; [lia|].
        split; [exact B|]. split; assumption. }
      induction fuel as [|fuel IHf]; intros cnt st0 B W OK R.
      - apply Stop; assumption.
      - cbv fix beta iota zeta in R. fold (run ic) in R.
        destruct (may_repeat hi cnt) eqn:M; [|apply Stop; assumption].
        match type of R with
        | match ?X with _ => _ end = _ => destruct X as [c1|] eqn:R1
        end; [|apply Stop; assumption].
        injection R as <-.
        destruct (IH _ _ _ S1 W OK R1) as (st1 & w1 & E1 & L1 & OK1 & K1).
        destruct (List.length (rest st1) <? List.length (rest st0))%nat; [|discriminate].
        assert (W1 : within text st1).
        { destruct W as [pre W]. exists (pre ++ w1)%list.
          rewrite <- app_assoc, <- E1. exact W. }
        assert (B1 : match hi with None => True | Some h => (S cnt <= h)%nat end).
        { destruct hi as [h|]; [|exact I]. cbn in M. apply Nat.ltb_lt in M. lia. }
        destruct (IHf _ _ B1 W1 OK1 K1) as (st2 & ws & E2 & F2 & Lo & Hi & OK2 & K2).
        exists st2, (w1 :: ws). cbn [List.concat List.length].
        split; [rewrite E1, E2, app_assoc; reflexivity|].
        split; [constructor; assumption|].
        split; [lia|]. split; [|split; assumption].
        destruct hi; [lia|exact I]. }
    destruct (G (S (List.length (rest st))) 0%nat st B0 W OK R) as (st' & ws & E & F & Lo & Hi & OK' & K').
    exists st', (List.concat ws). split; [exact E|]. split; [|split; assumption].
    exists ws. split; [reflexivity|]. split; [exact F|]. split; [exact Lo|exact Hi].
  - cbn [run] in R.
    assert (S1 : sub_groups r0 r').
    { intros m r1 H. apply SG. cbn. right. exact H. }
    destruct (IH _ _ _ S1 W OK R) as (st1 & w & E & L & OK1 & K1).
    cbv zeta in K1. cbn [rest caps prev] in K1.
    eexists; exists w. split; [|split; [exact L|split; [|exact K1]]].
    + cbn [rest]. exact E.
    + cbn [caps]. intros m g H. apply set_cap_In in H.
      destruct H as [[-> ->]|H]; [|apply OK1; exact H].
      rewrite E, length_app, Nat.add_sub, firstn_app, Nat.sub_diag, firstn_all.
      cbn [firstn]. rewrite app_nil_r.
      split.
      * destruct W as [pre W]. exists pre, (rest st1).
        rewrite W, E. reflexivity.
      * exists r'. split; [apply SG; cbn; left; reflexivity|exact L].
Qed.

Lemma run_top before tl pre c :
  text = (pre ++ tl)%list ->
  run ic r0 (MState before tl []) (fun st => Some (caps st)) = Some c ->
  caps_ok ic r0 text c /\ exists w, factor w text /\ lang ic r0 w.
Proof.
  intros E R.
  assert (W : within text (MState before tl [])) by (exists pre; exact E).
  assert (OK : caps_ok ic r0 text (caps (MState before tl []))) by (intros n g []).
  destruct (run_sound r0 _ _ _ (fun n r' H => H) W OK R) as (st' & w & E1 & L & OK' & K).
  injection K as <-. split; [exact OK'|].
  exists w. split; [|exact L].
  exists pre, (rest st'). rewrite E. cbn [rest] in E1. rewrite E1. reflexivity.
Qed.

(** [re.search]: the groups of a match are pieces of the text, each
    matched by the body of its group, and the match itself is a piece of
    the text that the pattern can consume. *)
Lemma search_from_sound : forall tl before pre cs,
  text = (pre ++ tl)%list ->
  search_from ic r0 before tl = Some cs ->
  caps_ok ic r0 text cs /\ exists w, factor w text /\ lang ic r0 w.
Proof.
  induction tl as [|x xs IH]; intros before pre cs E R; cbn [search_from] in R.
  - destruct (run ic r0 (MState before [] []) (fun st => Some (caps st))) as [c|] eqn:R1;
      [|discriminate].
    injection R as <-. exact (run_top _ _ _ _ E R1).
  - destruct (run ic r0 (MState before (x :: xs) []) (fun st => Some (caps st)))
      as [c|] eqn:R1.
    + injection R as <-. exact (run_top _ _ _ _ E R1).
    + apply (IH (Some x) (pre ++ [x])%list cs); [|exact R].
      rewrite <- app_assoc. exact E.
Qed.

End Sound.

Lemma search_sound ic r text cs :
  search ic r text = Some cs ->
  caps_ok ic r (list_ascii_of_string text) cs /\
  exists w, factor w (list_ascii_of_string text) /\ lang ic r w.
Proof.
  unfold search. apply (search_from_sound ic r _ _ None []). reflexivity.
Qed.

Lemma group_In n cs g :
  group n cs = Some g -> exists l, In (n, l) cs /\ g = string_of_list_ascii l.
Proof.
  induction cs as [|[i l] tl IH]; cbn [group]; [discriminate|].
  destruct (Nat.eqb_spec i n) as [->|N].
  - intros E. injection E as <-. exists l. split; [left; reflexivity|reflexivity].
  - intros E. destruct (IH E) as (l' & I & ->). exists l'. split; [right; exact I|reflexivity].
Qed.

End ReFacts.

Module ExtractFacts.
Import Re ReLang ReFacts.

(** *** Digits *)

Lemma digit_val_range c : is_digit c = true -> (0 <= digit_val c <= 9)%Z.
Proof.
  unfold is_digit, between, digit_val. intros H.
  apply andb_true_iff in H. destruct H as [H1 H2].
  apply Nat.leb_le in H1, H2. lia.
Qed.

Lemma fold_digits_bounds : forall l acc,
  forallb is_digit l = true -> (0 <= acc)%Z ->
  (acc * 10 ^ Z.of_nat (List.length l) <=
   fold_left (fun a c => a * 10 + digit_val c) l acc <
   (acc + 1) * 10 ^ Z.of_nat (List.length l))%Z.
Proof.
  induction l as [|c tl IH]; intros acc H A.
  - cbn. lia.
  - cbn [forallb] in H. apply andb_true_iff in H. destruct H as [Hc Ht].
    pose proof (digit_val_range c Hc) as D.
    cbn [fold_left List.length].
    specialize (IH (acc * 10 + digit_val c)%Z Ht ltac:(lia)).
    rewrite Nat2Z.inj_succ, Z.pow_succ_r by lia.
    assert (P : (0 < 10 ^ Z.of_nat (List.length tl))%Z) by (apply Z.pow_pos_nonneg; lia).
    nia.
Qed.

Lemma int_of_digits_bounds l :
  forallb is_digit l = true ->
  (0 <= int_of_digits l < 10 ^ Z.of_nat (List.length l))%Z.
Proof.
  intros H. unfold int_of_digits.
  pose proof (fold_digits_bounds l 0%Z H ltac:(lia)). lia.
Qed.

Lemma forallb_filter {A} (p : A -> bool) l : forallb p (filter p l) = true.
Proof.
  induction l as [|x tl IH]; [reflexivity|]. cbn [filter].
  destruct (p x) eqn:E; [cbn [forallb]; rewrite E; exact IH|exact IH].
Qed.

(** *** What the groups of the patterns hold *)

Lemma lang_rep_cls ic lo hi p w :
  lang ic (Rep lo hi (Cls p)) w ->
  forallb p w = true /\ (lo <= List.length w)%nat /\
  match hi with None => True | Some h => (List.length w <= h)%nat end.
Proof.
  cbn [lang]. intros (ws & -> & F & Lo & Hi).
  assert (G : forallb p (List.concat ws) = true /\
              List.length (List.concat ws) = List.length ws).
  { clear Lo Hi. induction F as [|x l (c & -> & Hc) F IH]; [split; reflexivity|].
    destruct IH as [IH1 IH2]. cbn. rewrite Hc, IH1, IH2. split; reflexivity. }
  destruct G as [G1 G2]. rewrite G2. repeat split; assumption.
Qed.

Lemma lit_ok_exact c x : lit_ok false c x = true -> x = c.
Proof. unfold lit_ok. intros H. apply Ascii.eqb_eq in H. symmetry. exact H. Qed.

(** The text found by a search, the group it came from and where it sat. *)
Lemma search_group1_sound ic r text g :
  search_group1 ic r text = Some g ->
  factor (list_ascii_of_string g) (list_ascii_of_string text) /\
  exists r', In (1%nat, r') (groups r) /\ lang ic r' (list_ascii_of_string g).
Proof.
  unfold search_group1. destruct (search ic r text) as [cs|] eqn:E; [|discriminate].
  intros G. apply group_In in G. destruct G as (l & I & ->).
  rewrite list_ascii_of_string_of_list_ascii.
  destruct (search_sound _ _ _ _ E) as [OK _]. exact (OK _ _ I).
Qed.

Lemma search_group1_whole ic r text g :
  search_group1 ic r text = Some g ->
  exists w, factor w (list_ascii_of_string text) /\ lang ic r w.
Proof.
  unfold search_group1. destruct (search ic r text) as [cs|] eqn:E; [|discriminate].
  intros _. destruct (search_sound _ _ _ _ E) as [_ H]. exact H.
Qed.

(** The year pattern captures "19" or "20" and two digits. *)
Lemma year_group raw g :
  search_group1 false Pat.year raw = Some g ->
  exists a b,
    (list_ascii_of_string g = ["2"; "0"; a; b]%char \/
     list_ascii_of_string g = ["1"; "9"; a; b]%char) /\
    is_digit a = true /\ is_digit b = true.
Proof.
  intros H. apply search_group1_sound in H. destruct H as (_ & r' & I & L).
  cbn in I. destruct I as [I|[]]. injection I as <-.
  assert (D : forall w, lang false (Rep 2 (Some 2) d) w ->
                exists a b, w = [a; b] /\ is_digit a = true /\ is_digit b = true).
  { intros w Hw. apply lang_rep_cls in Hw. destruct Hw as (F & Lo & Hi).
    destruct w as [|a [|b [|c tl]]]; cbn in Lo, Hi; try lia.
    cbn in F. apply andb_true_iff in F. destruct F as [Fa F].
    apply andb_true_iff in F. destruct F as [Fb _].
    exists a, b. repeat split; assumption. }
  cbn [lang lit lit_chars list_ascii_of_string] in L.
  destruct L as [(w1 & w2 & E & (u1 & u2 & -> & (x & -> & Hx) & (y & -> & Hy)) & L2)
                |(w1 & w2 & E & (u1 & u2 & -> & (x & -> & Hx) & (y & -> & Hy)) & L2)];
    apply lit_ok_exact in Hx, Hy; subst x y;
    destruct (D _ L2) as (a & b & -> & Ha & Hb);
    exists a, b; (split; [|split; assumption]); [left|right]; exact E.
Qed.

(** [int] of such a text. *)
Lemma py_int_digits l :
  l <> [] -> forallb is_digit l = true ->
  py_int (string_of_list_ascii l) = Some (int_of_digits l).
Proof.
  intros N F. unfold py_int. rewrite list_ascii_of_string_of_list_ascii.
  destruct l; [congruence|]. rewrite F. reflexivity.
Qed.

Lemma year_value raw g :
  search_group1 false Pat.year raw = Some g ->
  exists y, py_int g = Some y /\ (1900 <= y <= 2099)%Z.
Proof.
  intros H. destruct (year_group _ _ H) as (a & b & E & Ha & Hb).
  rewrite <- (string_of_list_ascii_of_string g).
  pose proof (digit_val_range a Ha). pose proof (digit_val_range b Hb).
  destruct E as [E|E]; rewrite E;
    (rewrite py_int_digits;
     [|discriminate|cbn [forallb]; rewrite Ha, Hb; reflexivity]);
    eexists; (split; [reflexivity|]);
    unfold int_of_digits; cbn [fold_left];
    change (digit_val "2") with 2%Z; change (digit_val "0") with 0%Z;
    change (digit_val "1") with 1%Z; change (digit_val "9") with 9%Z; lia.
Qed.
Lemma extract_year_range raw y :
  extract_year raw = Some y -> (1900 <= y <= 2099)%Z.
Proof.
  unfold extract_year. destruct (String.eqb raw ""); [discriminate|].
  destruct (search_group1 false Pat.year raw) as [g|] eqn:E; [|discriminate].
  destruct (year_value _ _ E) as (y' & P & R). rewrite P. intros H. injection H as <-. exact R.
Qed.

Lemma search_empty ic r g : search_group1 ic r "" = Some g -> g = "".
Proof.
  intros H. apply search_group1_sound in H. destruct H as ((a & b & E) & _).
  cbn in E. destruct a; [|discriminate]. cbn in E.
  destruct (list_ascii_of_string g) eqn:G; [|discriminate].
  rewrite <- (string_of_list_ascii_of_string g), G. reflexivity.
Qed.

Lemma extract_year_found raw g :
  search_group1 false Pat.year raw = Some g -> exists y, extract_year raw = Some y.
Proof.
  intros H. unfold extract_year.
  destruct (String.eqb_spec raw "") as [->|N].
  - destruct (year_group _ _ H) as (a & b & E & _).
    rewrite (search_empty _ _ _ H) in E. destruct E; discriminate.
  - rewrite H. destruct (year_value _ _ H) as (y & P & _). exists y. exact P.
Qed.

(** *** [_to_int] *)

Lemma string_nonempty (l : chars) : l <> [] -> string_of_list_ascii l <> "".
Proof. destruct l; [congruence|discriminate]. Qed.

Lemma to_int_some s :
  filter is_digit (list_ascii_of_string s) <> [] ->
  _to_int (Some s) = Some (int_of_digits (filter is_digit (list_ascii_of_string s))).
Proof.
  intros H. unfold _to_int. destruct s as [|c s']; [cbn in H; congruence|].
  destruct (filter is_digit (list_ascii_of_string (String c s'))); [congruence|reflexivity].
Qed.

Lemma to_int_none s :
  filter is_digit (list_ascii_of_string s) = [] -> _to_int (Some s) = None.
Proof.
  intros H. unfold _to_int. destruct s as [|c s']; [reflexivity|]. rewrite H. reflexivity.
Qed.

Lemma filter_all {A} (p : A -> bool) l : forallb p l = true -> filter p l = l.
Proof.
  induction l as [|x tl IH]; [reflexivity|]. cbn. intros H.
  apply andb_true_iff in H. destruct H as [Hx Ht]. rewrite Hx, IH by exact Ht. reflexivity.
Qed.

Lemma filter_none {A} (p : A -> bool) l :
  (forall x, In x l -> p x = false) -> filter p l = [].
Proof.
  induction l as [|x tl IH]; [reflexivity|]. cbn. intros H.
  rewrite (H x) by (left; reflexivity). apply IH. intros y Hy. apply H. right. exact Hy.
Qed.

Lemma to_int_nonneg s n : _to_int s = Some n -> (0 <= n)%Z.
Proof.
  destruct s as [s|]; [|discriminate].
  destruct (filter is_digit (list_ascii_of_string s)) as [|c tl] eqn:F.
  - rewrite to_int_none by exact F. discriminate.
  - rewrite to_int_some by (rewrite F; discriminate).
    intros H. injection H as <-.
    apply int_of_digits_bounds. apply forallb_filter.
Qed.

(** *** Engine capacity *)

Lemma engine_group raw g :
  search_group1 true Pat.engine raw = Some g ->
  forallb is_digit (list_ascii_of_string g) = true /\
  (3 <= List.length (list_ascii_of_string g) <= 4)%nat.
Proof.
  intros H. apply search_group1_sound in H. destruct H as (_ & r' & I & L).
  cbn in I. destruct I as [I|[]]. injection I as <-.
  apply lang_rep_cls in L. destruct L as (F & Lo & Hi). split; [exact F|lia].
Qed.

Lemma engine_value raw g :
  search_group1 true Pat.engine raw = Some g ->
  exists n, _to_int (Some g) = Some n /\ (0 <= n <= 9999)%Z.
Proof.
  intros H. destruct (engine_group _ _ H) as (F & L).
  assert (N : filter is_digit (list_ascii_of_string g) <> []).
  { rewrite filter_all by exact F. destruct (list_ascii_of_string g); cbn in L; [lia|discriminate]. }
  rewrite to_int_some by exact N. eexists. split; [reflexivity|].
  rewrite filter_all by exact F.
  pose proof (int_of_digits_bounds _ F) as B.
  assert (P : (10 ^ Z.of_nat (List.length (list_ascii_of_string g)) <= 10 ^ 4)%Z).
  { apply Z.pow_le_mono_r; lia. }
  change (10 ^ 4)%Z with 10000%Z in P. lia.
Qed.

Lemma extract_engine_range raw n :
  extract_engine raw = Some n -> (0 <= n <= 9999)%Z.
Proof.
  unfold extract_engine. destruct (String.eqb raw ""); [discriminate|].
  destruct (search_group1 true Pat.engine raw) as [g|] eqn:E; [|discriminate].
  destruct (engine_value _ _ E) as (n' & P & R). rewrite P. intros H. injection H as <-. exact R.
Qed.
(** *** COE left *)

Lemma lit_ok_dot ic x : lit_ok ic "." x = true -> x = "."%char.
Proof.
  unfold lit_ok.
  destruct ic, x as [[] [] [] [] [] [] [] []]; try discriminate; reflexivity.
Qed.

Lemma lit_ok_dollar ic x : lit_ok ic "$" x = true -> x = "$"%char.
Proof.
  unfold lit_ok.
  destruct ic, x as [[] [] [] [] [] [] [] []]; try discriminate; reflexivity.
Qed.

Lemma digit_not_dot c : is_digit c = true -> Ascii.eqb c "." = false.
Proof. destruct c as [[] [] [] [] [] [] [] []]; try discriminate; reflexivity. Qed.

Lemma split_dot_digits ds tl :
  forallb is_digit ds = true ->
  split_dot (ds ++ "."%char :: tl)%list = (ds, Some tl) /\ split_dot ds = (ds, None).
Proof.
  induction ds as [|c ds IH]; intros F; [split; reflexivity|].
  cbn [forallb] in F. apply andb_true_iff in F. destruct F as [Fc F].
  destruct (IH F) as [I1 I2]. cbn [split_dot app].
  rewrite (digit_not_dot c Fc), I1, I2. split; reflexivity.
Qed.

Lemma coe_group raw g :
  search_group1 true Pat.coe raw = Some g ->
  exists ip,
    ip <> [] /\ forallb is_digit ip = true /\
    (list_ascii_of_string g = ip \/
     exists fp, fp <> [] /\ forallb is_digit fp = true /\
                list_ascii_of_string g = (ip ++ "."%char :: fp)%list).
Proof.
  intros H. apply search_group1_sound in H. destruct H as (_ & r' & I & L).
  cbn in I. destruct I as [I|[]]. injection I as <-.
  destruct L as (w1 & w2 & E & L1 & L2).
  apply lang_rep_cls in L1. destruct L1 as (F1 & Lo1 & _).
  exists w1. split; [destruct w1; cbn in Lo1; [lia|discriminate]|]. split; [exact F1|].
  destruct L2 as (ws & -> & F & _ & Hi).
  destruct ws as [|u [|u' ws']]; cbn in Hi; try lia.
  - left. rewrite E. cbn. apply app_nil_r.
  - right. apply Forall_inv in F.
    destruct F as (a & b & -> & (x & -> & Hx) & Lb).
    apply lit_ok_dot in Hx. subst x.
    apply lang_rep_cls in Lb. destruct Lb as (Fb & Lob & _).
    exists b. split; [destruct b; cbn in Lob; [lia|discriminate]|]. split; [exact Fb|].
    rewrite E. cbn. rewrite app_nil_r. reflexivity.
Qed.

Lemma coe_value raw g :
  search_group1 true Pat.coe raw = Some g ->
  exists q, py_float g = Some q /\ (0 <= q)%Q.
Proof.
  intros H. destruct (coe_group _ _ H) as (ip & N & F & [E|(fp & Nf & Ff & E)]);
    unfold py_float; rewrite E.
  - rewrite (proj2 (split_dot_digits ip [] F)).
    destruct ip as [|c ip']; [congruence|]. rewrite F.
    eexists. split; [reflexivity|].
    pose proof (int_of_digits_bounds _ F) as B.
    unfold Qle. cbn [Qnum Qden inject_Z]. lia.
  - rewrite (proj1 (split_dot_digits ip fp F)).
    destruct ip as [|c ip']; [congruence|].
    destruct fp as [|c' fp']; [congruence|]. rewrite F, Ff. cbn [andb].
    eexists. split; [reflexivity|].
    assert (Fa : forallb is_digit ((c :: ip') ++ c' :: fp') = true).
    { rewrite forallb_app, F, Ff. reflexivity. }
    pose proof (int_of_digits_bounds _ Fa) as B.
    unfold Qle. cbn [Qnum Qden]. lia.
Qed.

Lemma extract_coe_nonneg raw q : extract_coe raw = Some q -> (0 <= q)%Q.
Proof.
  unfold extract_coe. destruct (String.eqb raw ""); [discriminate|].
  destruct (search_group1 true Pat.coe raw) as [g|] eqn:E; [|discriminate].
  destruct (coe_value _ _ E) as (q' & P & R). rewrite P. intros H. injection H as <-. exact R.
Qed.

Lemma extract_coe_found raw g :
  search_group1 true Pat.coe raw = Some g -> exists q, extract_coe raw = Some q.
Proof.
  intros H. unfold extract_coe.
  destruct (String.eqb_spec raw "") as [->|N].
  - destruct (coe_group _ _ H) as (ip & Ni & _ & [E|(fp & _ & _ & E)]);
      rewrite (search_empty _ _ _ H) in E; cbn in E.
    + congruence.
    + destruct ip; discriminate.
  - rewrite H. destruct (coe_value _ _ H) as (q & P & _). exists q. exact P.
Qed.
Lemma factor_In g text x : factor g text -> In x g -> In x text.
Proof.
  intros (a & b & ->) H. apply in_or_app. right. apply in_or_app. left. exact H.
Qed.

Lemma existsb_false {A} (p : A -> bool) l x : existsb p l = false -> In x l -> p x = false.
Proof.
  intros H I. destruct (p x) eqn:E; [|reflexivity].
  assert (existsb p l = true) by (apply existsb_exists; exists x; split; assumption).
  congruence.
Qed.

Lemma group_no_digit ic r raw g :
  has_digit raw = false -> search_group1 ic r raw = Some g ->
  forall x, In x (list_ascii_of_string g) -> is_digit x = false.
Proof.
  intros H S x I. apply search_group1_sound in S. destruct S as (F & _).
  apply (existsb_false _ _ x H). exact (factor_In _ _ _ F I).
Qed.

Lemma to_int_no_digit ic r raw :
  has_digit raw = false -> _to_int (search_group1 ic r raw) = None.
Proof.
  intros H. destruct (search_group1 ic r raw) as [g|] eqn:S; [|reflexivity].
  apply to_int_none. apply filter_none. exact (group_no_digit _ _ _ _ H S).
Qed.

Lemma no_digit_no_number raw :
  has_digit raw = false ->
  extract_price raw = None /\ extract_mileage raw = None /\
  extract_depreciation raw = None /\ extract_year raw = None /\
  extract_coe raw = None /\ extract_engine raw = None.
Proof.
  intros H.
  unfold extract_price, extract_mileage, extract_depreciation, extract_year,
    extract_coe, extract_engine.
  destruct (String.eqb raw ""); [repeat split; reflexivity|].
  rewrite !to_int_no_digit by exact H.
  split; [reflexivity|]. split; [reflexivity|].
  split.
  { destruct (search_group1 true Pat.depreciation_labelled raw) as [g|] eqn:S; [|reflexivity].
    apply to_int_none. apply filter_none. exact (group_no_digit _ _ _ _ H S). }
  split.
  { destruct (search_group1 false Pat.year raw) as [g|] eqn:S; [|reflexivity].
    destruct (year_group _ _ S) as (a & b & E & Ha & _).
    assert (I : In a (list_ascii_of_string g)) by (destruct E as [-> | ->]; cbn; tauto).
    rewrite (group_no_digit _ _ _ _ H S a I) in Ha. discriminate. }
  split; [|reflexivity].
  destruct (search_group1 true Pat.coe raw) as [g|] eqn:S; [|reflexivity].
  destruct (coe_group _ _ S) as (ip & N & F & E).
  destruct ip as [|c ip']; [congruence|].
  assert (I : In c (list_ascii_of_string g)).
  { destruct E as [-> |(fp & _ & _ & ->)]; [left; reflexivity|].
    apply in_or_app. left. left. reflexivity. }
  cbn [forallb] in F. apply andb_true_iff in F. destruct F as [Fc _].
  rewrite (group_no_digit _ _ _ _ H S c I) in Fc. discriminate.
Qed.

Lemma dollar_in_match ic rs w :
  lang ic (Cat (Lit "$") rs) w -> In "$"%char w.
Proof.
  intros (w1 & w2 & -> & (x & -> & Hx) & _).
  apply lit_ok_dollar in Hx. subst x. left. reflexivity.
Qed.

Lemma no_dollar_no_match ic r raw :
  has_char "$" raw = false ->
  (forall w, lang ic r w -> In "$"%char w) ->
  search_group1 ic r raw = None.
Proof.
  intros H D. destruct (search_group1 ic r raw) as [g|] eqn:S; [|reflexivity].
  destruct (search_group1_whole _ _ _ _ S) as (w & F & L).
  pose proof (factor_In _ _ _ F (D w L)) as I.
  pose proof (existsb_false _ _ _ H I) as E. rewrite Ascii.eqb_refl in E. discriminate.
Qed.

Lemma no_dollar_no_amount raw :
  has_char "$" raw = false ->
  extract_price raw = None /\ extract_depreciation raw = None.
Proof.
  intros H. unfold extract_price, extract_depreciation.
  destruct (String.eqb raw ""); [split; reflexivity|].
  rewrite (no_dollar_no_match false Pat.price raw H) by (apply dollar_in_match).
  rewrite (no_dollar_no_match true Pat.depreciation_any raw H) by (apply dollar_in_match).
  rewrite (no_dollar_no_match true Pat.depreciation_labelled raw H).
  - split; reflexivity.
  - intros w L. cbn [Pat.depreciation_labelled cat] in L.
    destruct L as (w1 & w2 & -> & _ & (w3 & w4 & -> & _ & L)).
    apply in_or_app. right. apply in_or_app. right.
    exact (dollar_in_match _ _ _ L).
Qed.

Lemma extract_card_fields c :
  let r := extract_card c in
  raw_text r = _clean (Some (get_text c)) /\
  price_sgd r = extract_price (raw_text r) /\
  mileage_km r = extract_mileage (raw_text r) /\
  depreciation_per_year r = extract_depreciation (raw_text r) /\
  year r = extract_year (raw_text r) /\
  coe_left_years r = extract_coe (raw_text r) /\
  engine_cc r = extract_engine (raw_text r).
Proof.
  unfold extract_card. destruct (select_info_link c); cbn; repeat split; reflexivity.
Qed.

End ExtractFacts.

Module CleanFacts.
Local Open Scope list_scope.
Import Re.

Lemma clean_eq t :
  _clean t = string_of_list_ascii (strip (collapse_ws false (text_of t))).
Proof. destruct t as [[|c t]|]; reflexivity. Qed.

Lemma lstrip_spec l :
  exists ws, l = (ws ++ lstrip l)%list /\ forallb is_space ws = true /\
             (forall c tl, lstrip l = c :: tl -> is_space c = false).
Proof.
  induction l as [|x tl IH].
  - exists []. repeat split. intros c tl H. discriminate.
  - cbn [lstrip]. destruct (is_space x) eqn:E.
    + destruct IH as (ws & E1 & F & H). exists (x :: ws).
      split; [cbn; f_equal; exact E1|]. split; [cbn; rewrite E, F; reflexivity|exact H].
    + exists []. repeat split. intros c tl' H. injection H as <- <-. exact E.
Qed.

Lemma rstrip_spec l :
  exists ws, l = (rstrip l ++ ws)%list /\ forallb is_space ws = true /\
             (forall p c, rstrip l = (p ++ [c])%list -> is_space c = false).
Proof.
  unfold rstrip. destruct (lstrip_spec (rev l)) as (ws & E & F & H).
  exists (rev ws). split; [|split].
  - rewrite <- rev_app_distr, <- E, rev_involutive. reflexivity.
  - rewrite forallb_forall in *. intros x I. apply F. apply in_rev. exact I.
  - intros p c Ep. apply (H c (rev p)).
    rewrite <- (rev_involutive (lstrip (rev l))), Ep, rev_app_distr. reflexivity.
Qed.

Lemma strip_rstrip l : strip l = rstrip (lstrip l).
Proof. reflexivity. Qed.

Lemma single_spaced_cons x y l :
  single_spaced (x :: y :: l) = negb (is_space x && is_space y) && single_spaced (y :: l).
Proof. reflexivity. Qed.

Lemma single_spaced_app a b :
  single_spaced (a ++ b) = true -> single_spaced a = true /\ single_spaced b = true.
Proof.
  induction a as [|x a IH]; intros H; [split; [reflexivity|exact H]|].
  destruct a as [|y a'].
  - split; [reflexivity|]. destruct b as [|z b']; [reflexivity|].
    cbn [app] in H. rewrite single_spaced_cons in H. apply andb_true_iff in H. apply H.
  - change ((x :: y :: a') ++ b)%list with (x :: y :: (a' ++ b))%list in H.
    rewrite single_spaced_cons in H. apply andb_true_iff in H. destruct H as [H1 H2].
    destruct (IH H2) as [I1 I2]. split; [|exact I2].
    rewrite single_spaced_cons, H1. exact I1.
Qed.

(** [collapse_ws] *)
Lemma collapse_spaces b l c :
  In c (collapse_ws b l) -> is_space c = true -> c = " "%char.
Proof.
  revert b. induction l as [|x tl IH]; intros b I S; [destruct I|].
  cbn [collapse_ws] in I. destruct (is_space x) eqn:E.
  - destruct b; [exact (IH _ I S)|].
    destruct I as [<-|I]; [reflexivity|exact (IH _ I S)].
  - destruct I as [<-|I]; [congruence|exact (IH _ I S)].
Qed.

Lemma collapse_head_run l c tl :
  collapse_ws true l = c :: tl -> is_space c = false.
Proof.
  induction l as [|x l' IH]; [discriminate|].
  cbn [collapse_ws]. destruct (is_space x) eqn:E; [exact IH|].
  intros H. injection H as <- _. exact E.
Qed.

Lemma collapse_single b l : single_spaced (collapse_ws b l) = true.
Proof.
  revert b. induction l as [|x tl IH]; intros b; [reflexivity|].
  cbn [collapse_ws]. destruct (is_space x) eqn:E.
  - destruct b; [apply IH|].
    destruct (collapse_ws true tl) as [|y tl'] eqn:C; [reflexivity|].
    rewrite single_spaced_cons, (collapse_head_run _ _ _ C), andb_false_r.
    cbn [negb andb]. rewrite <- C. apply IH.
  - destruct (collapse_ws false tl) as [|y tl'] eqn:C; [reflexivity|].
    rewrite single_spaced_cons, E. cbn [negb andb]. rewrite <- C. apply IH.
Qed.

Lemma collapse_visible b l : visible (collapse_ws b l) = visible l.
Proof.
  revert b. induction l as [|x tl IH]; intros b; [reflexivity|].
  cbn [collapse_ws]. unfold visible in *. cbn [filter]. destruct (is_space x) eqn:E; cbn [negb].
  - destruct b; [apply IH|]. cbn [filter].
    change (is_space " ") with true. cbn [negb]. apply IH.
  - cbn [filter]. rewrite E. cbn [negb]. f_equal. apply IH.
Qed.

Lemma visible_spaces ws : forallb is_space ws = true -> visible ws = [].
Proof.
  induction ws as [|x tl IH]; [reflexivity|]. cbn. intros H.
  apply andb_true_iff in H. destruct H as [Hx Ht]. rewrite Hx. cbn. apply IH. exact Ht.
Qed.

Lemma visible_app a b : visible (a ++ b) = (visible a ++ visible b)%list.
Proof. apply filter_app. Qed.

(** [strip] keeps a piece of the text and drops white space only. *)
Lemma strip_spec l :
  exists a b, l = (a ++ strip l ++ b)%list /\
              forallb is_space a = true /\ forallb is_space b = true /\
              (forall c tl, strip l = c :: tl -> is_space c = false) /\
              (forall p c, strip l = (p ++ [c])%list -> is_space c = false).
Proof.
  rewrite strip_rstrip.
  destruct (lstrip_spec l) as (a & Ea & Fa & Ha).
  destruct (rstrip_spec (lstrip l)) as (b & Eb & Fb & Hb).
  exists a, b. split; [rewrite <- Eb; exact Ea|].
  split; [exact Fa|]. split; [exact Fb|]. split; [|exact Hb].
  intros c tl E. rewrite E in Eb. apply (Ha c (tl ++ b)%list). exact Eb.
Qed.

Lemma cleaned_strip_collapse l : cleaned (strip (collapse_ws false l)).
Proof.
  destruct (strip_spec (collapse_ws false l)) as (a & b & E & Fa & Fb & Hh & Hl).
  split; [|split; [|split]]; try assumption.
  - intros c I S. apply (collapse_spaces false l c); [|exact S].
    rewrite E. apply in_or_app. right. apply in_or_app. left. exact I.
  - pose proof (collapse_single false l) as S. rewrite E in S.
    apply single_spaced_app in S. destruct S as [_ S].
    apply single_spaced_app in S. apply S.
Qed.

Lemma visible_strip_collapse l : visible (strip (collapse_ws false l)) = visible l.
Proof.
  destruct (strip_spec (collapse_ws false l)) as (a & b & E & Fa & Fb & _).
  rewrite <- (collapse_visible false l). rewrite E at 2.
  rewrite !visible_app, (visible_spaces a Fa), (visible_spaces b Fb), app_nil_r.
  reflexivity.
Qed.

(** A cleaned text is left as it is. *)
Lemma collapse_cleaned l :
  (forall c, In c l -> is_space c = true -> c = " "%char) ->
  single_spaced l = true ->
  collapse_ws false l = l /\
  ((forall c tl, l = c :: tl -> is_space c = false) -> collapse_ws true l = l).
Proof.
  induction l as [|x tl IH]; intros Sp Si; [split; reflexivity|].
  assert (Sp' : forall c, In c tl -> is_space c = true -> c = " "%char)
    by (intros c I; apply Sp; right; exact I).
  assert (Si' : single_spaced tl = true).
  { destruct tl as [|y tl']; [reflexivity|].
    rewrite single_spaced_cons in Si. apply andb_true_iff in Si. apply Si. }
  destruct (IH Sp' Si') as [I1 I2].
  cbn [collapse_ws]. destruct (is_space x) eqn:E.
  - split.
    + rewrite (Sp x (or_introl eq_refl) E). f_equal.
      apply I2. intros c tl' ->.
      rewrite single_spaced_cons in Si. rewrite E in Si. cbn [andb] in Si.
      apply andb_true_iff in Si. destruct Si as [Si _].
      apply negb_true_iff in Si. exact Si.
    + intros H. rewrite (H x tl eq_refl) in E. discriminate.
  - split; [f_equal; exact I1|intros _; f_equal; exact I1].
Qed.

Lemma lstrip_head l :
  (forall c tl, l = c :: tl -> is_space c = false) -> lstrip l = l.
Proof.
  destruct l as [|x tl]; [reflexivity|]. intros H. cbn [lstrip].
  rewrite (H x tl eq_refl). reflexivity.
Qed.

Lemma strip_cleaned l : cleaned l -> strip (collapse_ws false l) = l.
Proof.
  intros (Sp & Si & Hh & Hl).
  rewrite (proj1 (collapse_cleaned l Sp Si)).
  unfold strip. rewrite (lstrip_head l Hh).
  rewrite lstrip_head; [apply rev_involutive|].
  intros c tl E. apply (Hl (rev tl) c).
  rewrite <- (rev_involutive l), E. reflexivity.
Qed.

End CleanFacts.

Module FetchFacts.
Local Open Scope list_scope.

Lemma extract_rows_firstn cards : forall rows mx,
  extract_rows cards rows mx =
  rows ++ map extract_card
              (firstn (Z.to_nat (Z.max 1 (mx - Z.of_nat (List.length rows)))) cards).
Proof.
  induction cards as [|c tl IH]; intros rows mx.
  - cbn [extract_rows]. rewrite firstn_nil. cbn. rewrite app_nil_r. reflexivity.
  - cbn [extract_rows].
    assert (L : List.length (rows ++ [extract_card c]) = S (List.length rows))
      by (rewrite length_app; cbn; lia).
    rewrite L.
    destruct (Z.geb_spec (Z.of_nat (S (List.length rows))) mx) as [G|G].
    + replace (Z.to_nat (Z.max 1 (mx - Z.of_nat (List.length rows)))) with 1%nat by lia.
      reflexivity.
    + rewrite IH, L.
      replace (Z.to_nat (Z.max 1 (mx - Z.of_nat (List.length rows))))
        with (S (Z.to_nat (Z.max 1 (mx - Z.of_nat (S (List.length rows)))))) by lia.
      cbn [firstn map]. rewrite <- app_assoc. reflexivity.
Qed.

Lemma extract_rows_start cards mx :
  extract_rows cards [] mx = map extract_card (firstn (Z.to_nat (Z.max 1 mx)) cards).
Proof.
  rewrite extract_rows_firstn. cbn [List.length app]. rewrite Z.sub_0_r. reflexivity.
Qed.

Lemma frame_of_rows_shape rows :
  rows <> [] ->
  let df := DataFrame_of_rows rows in
  nrows df = List.length rows /\ col_names df = fetched_names /\
  well_formed df /\ empty df = false.
Proof.
  intros N. destruct rows as [|r tl]; [congruence|].
  cbv zeta. split; [reflexivity|]. split; [reflexivity|]. split; [|reflexivity].
  unfold well_formed, DataFrame_of_rows. cbn [columns nrows].
  repeat (constructor; [cbn [snd col_len]; rewrite ?length_map; reflexivity|]).
  constructor.
Qed.

End FetchFacts.

(* ------------------------------------------------------------------ *)
(** ** What the fetcher returns *)

Import ReFacts ExtractFacts CleanFacts FetchFacts.

(** X1. Whatever the text of a card, the numbers read from it are in
    range: price, mileage and depreciation are not negative, the engine
    capacity lies between 0 and 9999, the COE years are not negative and
    the year lies between 1900 and 2099. *)
Theorem extracted_numbers_are_in_range :
  forall (c : card),
    let r := extract_card c in
    (forall n, price_sgd r = Some n -> (0 <= n)%Z) /\
    (forall n, mileage_km r = Some n -> (0 <= n)%Z) /\
    (forall n, depreciation_per_year r = Some n -> (0 <= n)%Z) /\
    (forall n, engine_cc r = Some n -> (0 <= n <= 9999)%Z) /\
    (forall q, coe_left_years r = Some q -> (0 <= q)%Q) /\
    (forall y, year r = Some y -> (1900 <= y <= 2099)%Z).
Proof.
  intros c r.
  destruct (extract_card_fields c) as (_ & Ep & Em & Ed & Ey & Ec & Ee).
  fold r in Ep, Em, Ed, Ey, Ec, Ee.
  rewrite Ep, Em, Ed, Ey, Ec, Ee.
  split; [|split; [|split; [|split; [|split]]]].
  - intros n. unfold extract_price. destruct (String.eqb _ _); [discriminate|].
    apply to_int_nonneg.
  - intros n. unfold extract_mileage. destruct (String.eqb _ _); [discriminate|].
    apply to_int_nonneg.
  - intros n. unfold extract_depreciation. destruct (String.eqb _ _); [discriminate|].
    destruct (search_group1 true Pat.depreciation_labelled _); apply to_int_nonneg.
  - apply extract_engine_range.
  - apply extract_coe_nonneg.
  - apply extract_year_range.
Qed.

(** X2. The two [except ValueError] branches of the loop are never taken:
    what the year pattern captures is always read by [int], and what the
    COE pattern captures is always read by [float]. *)
Theorem captured_numbers_always_convert :
  forall (raw : string),
    (forall g, search_group1 false Pat.year raw = Some g ->
               exists y, py_int g = Some y /\ extract_year raw = Some y) /\
    (forall g, search_group1 true Pat.coe raw = Some g ->
               exists q, py_float g = Some q /\ extract_coe raw = Some q).
Proof.
  intros raw. split; intros g H.
  - destruct (year_value _ _ H) as (y & P & _).
    destruct (extract_year_found _ _ H) as (y' & E).
    exists y. split; [exact P|].
    unfold extract_year in *. destruct (String.eqb raw ""); [discriminate|].
    rewrite H in *. exact P.
  - destruct (coe_value _ _ H) as (q & P & _).
    destruct (extract_coe_found _ _ H) as (q' & E).
    exists q. split; [exact P|].
    unfold extract_coe in *. destruct (String.eqb raw ""); [discriminate|].
    rewrite H in *. exact P.
Qed.

(** X3. A card whose text holds no digit gives a record without any of the
    six numbers. *)
Theorem text_without_digit_gives_no_number :
  forall (c : card),
    has_digit (raw_text (extract_card c)) = false ->
    let r := extract_card c in
    price_sgd r = None /\ mileage_km r = None /\ depreciation_per_year r = None /\
    year r = None /\ coe_left_years r = None /\ engine_cc r = None.
Proof.
  intros c H r.
  destruct (extract_card_fields c) as (_ & Ep & Em & Ed & Ey & Ec & Ee).
  fold r in Ep, Em, Ed, Ey, Ec, Ee. rewrite Ep, Em, Ed, Ey, Ec, Ee.
  destruct (no_digit_no_number _ H) as (A & B & C & D & E & F).
  repeat split; assumption.
Qed.

Lemma text_without_digit_witness :
  let r := extract_card (mkCard "  Call   the dealer  " []) in
  price_sgd r = None /\ mileage_km r = None /\ depreciation_per_year r = None /\
  year r = None /\ coe_left_years r = None /\ engine_cc r = None.
Proof.
  apply (text_without_digit_gives_no_number (mkCard "  Call   the dealer  " [])).
  vm_compute. reflexivity.
Defined.

(** X4. A card whose text holds no dollar sign gives a record without
    price and without depreciation. *)
Theorem text_without_dollar_gives_no_amount :
  forall (c : card),
    has_char "$" (raw_text (extract_card c)) = false ->
    price_sgd (extract_card c) = None /\
    depreciation_per_year (extract_card c) = None.
Proof.
  intros c H.
  destruct (extract_card_fields c) as (_ & Ep & _ & Ed & _).
  rewrite Ep, Ed. apply no_dollar_no_amount. exact H.
Qed.

Lemma text_without_dollar_witness :
  price_sgd (extract_card (mkCard "Honda Fit 2015 80,000 km 9,000/yr" [])) = None /\
  depreciation_per_year (extract_card (mkCard "Honda Fit 2015 80,000 km 9,000/yr" [])) = None.
Proof.
  apply (text_without_dollar_gives_no_amount (mkCard "Honda Fit 2015 80,000 km 9,000/yr" [])).
  vm_compute. reflexivity.
Defined.

(** X5. [_clean] returns a text whose only white space is single space
    characters between other characters, none at either end, and whose
    other characters are those of its argument, in their order. *)
Theorem clean_text_shape :
  forall (t : option string),
    cleaned (list_ascii_of_string (_clean t)) /\
    visible (list_ascii_of_string (_clean t)) = visible (text_of t).
Proof.
  intros t. rewrite clean_eq, list_ascii_of_string_of_list_ascii.
  split; [apply cleaned_strip_collapse|apply visible_strip_collapse].
Qed.

(** X6. Cleaning twice is cleaning once. *)
Theorem clean_is_idempotent :
  forall (t : option string), _clean (Some (_clean t)) = _clean t.
Proof.
  intros t. rewrite (clean_eq (Some (_clean t))). cbn [text_of].
  rewrite strip_cleaned; [apply string_of_list_ascii_of_string|].
  rewrite clean_eq, list_ascii_of_string_of_list_ascii. apply cleaned_strip_collapse.
Qed.

Lemma contains_app sub p h :
  contains sub h = true -> contains sub (p ++ h) = true.
Proof.
  intros H. induction p as [|c p IH]; [exact H|].
  cbn [append contains]. rewrite IH. apply orb_true_r.
Qed.

Lemma select_info_link_href c a :
  select_info_link c = Some a ->
  exists h, href a = Some h /\ contains "/used-cars/info/" h = true.
Proof.
  unfold select_info_link. intros H. apply find_some in H. destruct H as [_ H].
  destruct (href a) as [h|]; [|discriminate]. exists h. split; [reflexivity|exact H].
Qed.

(** X7. A record has a title exactly when it has a listing URL. The URL is
    never empty and never a path of its own: it holds [/used-cars/info/],
    and a reference that starts with [/] is completed with the address of
    the site. *)
Theorem title_and_url_come_together :
  forall (c : card),
    let r := extract_card c in
    (title r = None <-> listing_url r = None) /\
    (forall u, listing_url r = Some u ->
       contains "/used-cars/info/" u = true /\
       String.prefix "/" u = false /\ u <> "").
Proof.
  intros c. unfold extract_card.
  destruct (select_info_link c) as [a|] eqn:S; cbn.
  2:{ split; [tauto|discriminate]. }
  destruct (select_info_link_href c a S) as (h & Hh & Ch).
  rewrite Hh. cbn [or_empty].
  destruct h as [|x h']; [discriminate Ch|].
  destruct (String.prefix "/" (String x h')) eqn:P.
  - split; [split; discriminate|].
    intros u E. injection E as <-.
    split; [exact (contains_app _ "https://www.sgcarmart.com" _ Ch)|].
    split; [reflexivity|discriminate].
  - cbn [String.eqb]. split; [split; discriminate|].
    intros u E. injection E as <-.
    split; [exact Ch|]. split; [exact P|discriminate].
Qed.

(** X8. With a 200 answer that holds cards, the loop reads the cards in
    their order and stops after [max_results] of them, but never before
    the first: the frame has one row for each of the first [max(1,
    max_results)] cards, or for all cards when they are fewer. *)
Theorem fetch_reads_the_first_cards :
  forall (rnd : nat) (requests_get : request -> http_outcome)
         (bmin bmax : option Z) (make : option string) (max_results : Z)
         (cards : list card),
    requests_get (build_request rnd bmin bmax make) = Response 200 cards ->
    cards <> [] ->
    let df := fetch_used_cars_live rnd requests_get bmin bmax make max_results in
    df = DataFrame_of_rows (map extract_card (firstn (cards_read max_results cards) cards)) /\
    nrows df = cards_read max_results cards /\
    (1 <= nrows df)%nat /\
    (nrows df <= List.length cards)%nat /\
    (1 <= max_results -> Z.of_nat (nrows df) <= max_results)%Z.
Proof.
  intros rnd net bmin bmax make mx cards H N df.
  assert (K : (1 <= cards_read mx cards)%nat).
  { unfold cards_read. destruct cards; [congruence|]. cbn [List.length]. lia. }
  assert (E : df = DataFrame_of_rows
                     (map extract_card (firstn (cards_read mx cards) cards))).
  { unfold df, fetch_used_cars_live. rewrite H.
    change (negb (200 =? 200)%Z) with false. cbv iota.
    destruct cards as [|c cs]; [congruence|].
    rewrite extract_rows_start. unfold cards_read.
    destruct (Nat.le_ge_cases (List.length (c :: cs)) (Z.to_nat (Z.max 1 mx))) as [L|L].
    - rewrite Nat.min_l by exact L. rewrite !firstn_all2 by lia. reflexivity.
    - rewrite Nat.min_r by exact L. reflexivity. }
  assert (R : nrows df = cards_read mx cards).
  { rewrite E.
    assert (L : List.length (map extract_card (firstn (cards_read mx cards) cards)) =
                cards_read mx cards).
    { rewrite length_map, length_firstn. unfold cards_read. lia. }
    destruct (map extract_card (firstn (cards_read mx cards) cards)) as [|r tl];
      [cbn in L; lia|exact L]. }
  split; [exact E|]. split; [exact R|]. rewrite R.
  split; [exact K|]. unfold cards_read. split; lia.
Qed.

Lemma fetch_reads_the_first_cards_witness :
  let df := fetch_used_cars_live 0 (one_card_site 200) None None None 0 in
  df = DataFrame_of_rows (map extract_card (firstn (cards_read 0 [corolla_card]) [corolla_card])) /\
  nrows df = cards_read 0 [corolla_card] /\
  (1 <= nrows df)%nat /\
  (nrows df <= 1)%nat /\
  (1 <= 0 -> Z.of_nat (nrows df) <= 0)%Z.
Proof.
  apply (fetch_reads_the_first_cards 0 (one_card_site 200) None None None 0 [corolla_card]).
  - reflexivity.
  - discriminate.
Defined.

(** X9. With a 200 answer that holds cards, the frame returned has the
    nine columns of the docstring, in that order, each with one cell per
    row, and it is not empty. *)
Theorem fetched_frame_has_the_nine_columns :
  forall (rnd : nat) (requests_get : request -> http_outcome)
         (bmin bmax : option Z) (make : option string) (max_results : Z)
         (cards : list card),
    requests_get (build_request rnd bmin bmax make) = Response 200 cards ->
    cards <> [] ->
    let df := fetch_used_cars_live rnd requests_get bmin bmax make max_results in
    col_names df = fetched_names /\ well_formed df /\ empty df = false.
Proof.
  intros rnd net bmin bmax make mx cards H N df.
  unfold df, fetch_used_cars_live. rewrite H.
  change (negb (200 =? 200)%Z) with false. cbv iota.
  destruct cards as [|c cs]; [congruence|].
  pose proof (extract_rows_cons c cs [] mx) as L.
  assert (Hne : extract_rows (c :: cs) [] mx <> []).
  { intros E. rewrite E in L. cbn in L. lia. }
  destruct (frame_of_rows_shape _ Hne) as (_ & A & B & C).
  split; [exact A|]. split; [exact B|exact C].
Qed.

Lemma fetched_frame_witness :
  let df := fetch_used_cars_live 0 (one_card_site 200) None None None 40 in
  col_names df = fetched_names /\ well_formed df /\ empty df = false.
Proof.
  apply (fetched_frame_has_the_nine_columns 0 (one_card_site 200) None None None 40
           [corolla_card]).
  - reflexivity.
  - discriminate.
Defined.


Module ScoreFacts.
Local Open Scope list_scope.

(** *** Rounding keeps the order *)

Lemma rint_comp q q' : (q == q')%Q -> rint q = rint q'.
Proof.
  intros E. unfold rint. rewrite (Qfloor_comp _ _ E).
  assert (C : (q - inject_Z (Qfloor q') ?= 1 # 2)%Q = (q' - inject_Z (Qfloor q') ?= 1 # 2)%Q).
  { apply Qcompare_comp; [rewrite E; reflexivity|reflexivity]. }
  rewrite C. reflexivity.
Qed.

Lemma np_round1_comp q q' : (q == q')%Q -> np_round1 q = np_round1 q'.
Proof.
  intros E. unfold np_round1. rewrite (rint_comp (q * 10) (q' * 10)); [reflexivity|].
  rewrite E. reflexivity.
Qed.

Lemma rint_mono q q' : (q <= q')%Q -> (rint q <= rint q')%Z.
Proof.
  intros H. pose proof (Qfloor_resp_le _ _ H) as F.
  pose proof (rint_floor q) as R. pose proof (rint_floor q') as R'.
  destruct (Z.eq_dec (Qfloor q) (Qfloor q')) as [E|N]; [|lia].
  unfold rint. rewrite <- E.
  destruct (Qcompare_spec (q - inject_Z (Qfloor q)) (1 # 2)) as [C|C|C];
    destruct (Qcompare_spec (q' - inject_Z (Qfloor q)) (1 # 2)) as [C'|C'|C'];
    try (destruct (Z.even (Qfloor q))); try lia;
    exfalso; set (t := inject_Z (Qfloor q)) in *; clearbody t; lra.
Qed.

Lemma np_round1_mono q q' : (q <= q')%Q -> (np_round1 q <= np_round1 q')%Q.
Proof.
  intros H. unfold np_round1.
  assert (M : (rint (q * 10) <= rint (q' * 10))%Z) by (apply rint_mono; lra).
  rewrite Zle_Qle in M.
  set (a := inject_Z (rint (q * 10))) in *. set (b := inject_Z (rint (q' * 10))) in *.
  clearbody a b. apply Qle_shift_div_l; [reflexivity|].
  unfold Qdiv. rewrite <- Qmult_assoc.
  setoid_rewrite (Qmult_comm (/ 10) 10). rewrite Qmult_inv_r by discriminate. lra.
Qed.

Lemma score_mono p d m a p' d' m' a' :
  (p <= p')%Q -> (d <= d')%Q -> (m <= m')%Q -> (a <= a')%Q ->
  (score p d m a * 100 <= score p' d' m' a' * 100)%Q.
Proof. unfold score. intros. lra. Qed.

(** *** The normalised cell of a row, by what the column holds *)

Lemma nth_map_row {A} (f : ListingRecord -> option A) rows j r :
  nth_error rows j = Some r -> nth j (map f rows) None = f r.
Proof.
  revert j; induction rows as [|a tl IH]; intros [|j] H; simpl in *;
    try discriminate; [congruence|auto].
Qed.

Lemma min_max_order v vs : (list_min v vs <= list_max v vs)%Q.
Proof.
  eapply Qle_trans; [apply list_min_le|apply list_max_ge]; left; reflexivity.
Qed.

(** Less is better: the smaller value gets the larger normalised cell. *)
Lemma norm_cells_mono x i j a b :
  nth i x None = Some a -> nth j x None = Some b -> (a <= b)%Q ->
  (safe_val (nth j (norm_cells x) None) <= safe_val (nth i (norm_cells x) None))%Q.
Proof.
  intros Hi Hj Hab. unfold norm_cells.
  destruct (present x) as [|v vs] eqn:P.
  - rewrite !nth_map_none by reflexivity. apply Qle_refl.
  - destruct (Qeq_bool _ _) eqn:E; rewrite !nth_map_none by reflexivity; rewrite Hi, Hj.
    + apply Qle_refl.
    + cbn [option_map safe_val].
      pose proof (spread_pos v vs E) as S.
      apply Qle_shift_div_l; [lra|].
      unfold Qdiv. rewrite <- Qmult_assoc.
      setoid_rewrite (Qmult_comm (/ (list_max v vs - list_min v vs))).
      rewrite Qmult_inv_r by lra. lra.
Qed.

Lemma norm_cells_missing x i j :
  nth i x None = None -> nth j x None = None ->
  safe_val (nth j (norm_cells x) None) = safe_val (nth i (norm_cells x) None).
Proof.
  intros Hi Hj.
  rewrite (proj2 (norm_cells_none x i) Hi), (proj2 (norm_cells_none x j) Hj). reflexivity.
Qed.

(** A column whose present values are all equal gives one half in every
    row. *)
Lemma norm_cells_uniform x i :
  (forall a b, In (Some a) x -> In (Some b) x -> (a == b)%Q) ->
  safe_val (nth i (norm_cells x) None) = (1 # 2)%Q.
Proof.
  intros U. unfold norm_cells. destruct (present x) as [|v vs] eqn:P.
  - rewrite nth_map_none by reflexivity. reflexivity.
  - assert (E : Qeq_bool (list_max v vs) (list_min v vs) = true).
    { apply Qeq_eq_bool. apply U; apply present_In; rewrite P;
        [apply list_max_In|apply list_min_In]. }
    rewrite E, nth_map_none by reflexivity.
    destruct (nth i x None); reflexivity.
Qed.

(** The least value of a column with a spread gets 1, the greatest 0. *)
Lemma norm_cells_least x i a :
  nth i x None = Some a ->
  (forall b, In (Some b) x -> (a <= b)%Q) ->
  (exists b, In (Some b) x /\ (a < b)%Q) ->
  (safe_val (nth i (norm_cells x) None) == 1)%Q.
Proof.
  intros Hi L (b & Ib & Hb). unfold norm_cells.
  destruct (present x) as [|v vs] eqn:P.
  - apply present_In in Ib. rewrite P in Ib. destruct Ib.
  - assert (Ia : In a (v :: vs)) by (rewrite <- P; apply present_In; eapply nth_Some_In; exact Hi).
    assert (Ib' : In b (v :: vs)) by (rewrite <- P; apply present_In; exact Ib).
    assert (Emin : (list_min v vs == a)%Q).
    { apply Qle_antisym; [apply list_min_le; exact Ia|].
      apply L. apply present_In. rewrite P. apply list_min_In. }
    pose proof (list_max_ge vs v b Ib') as Mb.
    assert (E : Qeq_bool (list_max v vs) (list_min v vs) = false).
    { destruct (Qeq_bool _ _) eqn:E; [|reflexivity].
      apply Qeq_bool_eq in E. exfalso. lra. }
    rewrite E, nth_map_none by reflexivity. rewrite Hi. cbn [option_map safe_val].
    rewrite Emin. apply Qmult_inv_r. lra.
Qed.

Lemma norm_cells_greatest x i a :
  nth i x None = Some a ->
  (forall b, In (Some b) x -> (b <= a)%Q) ->
  (exists b, In (Some b) x /\ (b < a)%Q) ->
  (safe_val (nth i (norm_cells x) None) == 0)%Q.
Proof.
  intros Hi L (b & Ib & Hb). unfold norm_cells.
  destruct (present x) as [|v vs] eqn:P.
  - apply present_In in Ib. rewrite P in Ib. destruct Ib.
  - assert (Ia : In a (v :: vs)) by (rewrite <- P; apply present_In; eapply nth_Some_In; exact Hi).
    assert (Ib' : In b (v :: vs)) by (rewrite <- P; apply present_In; exact Ib).
    assert (Emax : (list_max v vs == a)%Q).
    { apply Qle_antisym; [|apply list_max_ge; exact Ia].
      apply L. apply present_In. rewrite P. apply list_max_In. }
    pose proof (list_min_le vs v b Ib') as Mb.
    assert (E : Qeq_bool (list_max v vs) (list_min v vs) = false).
    { destruct (Qeq_bool _ _) eqn:E; [|reflexivity].
      apply Qeq_bool_eq in E. exfalso. lra. }
    rewrite E, nth_map_none by reflexivity. rewrite Hi. cbn [option_map safe_val].
    rewrite Emax. unfold Qdiv. setoid_replace (a - a)%Q with 0%Q by ring. apply Qmult_0_l.
Qed.

(** *** The score of a record, by what the record holds *)

Lemma nth_prices rows j r :
  nth_error rows j = Some r -> nth j (prices rows) None = num_of (price_sgd r).
Proof. apply (nth_map_row (fun r => num_of (price_sgd r))). Qed.

Lemma nth_depreciations rows j r :
  nth_error rows j = Some r ->
  nth j (depreciations rows) None = num_of (depreciation_per_year r).
Proof. apply (nth_map_row (fun r => num_of (depreciation_per_year r))). Qed.

Lemma nth_mileages rows j r :
  nth_error rows j = Some r -> nth j (mileages rows) None = num_of (mileage_km r).
Proof. apply (nth_map_row (fun r => num_of (mileage_km r))). Qed.

Lemma ages_map rows : ages rows = map age_of rows.
Proof. unfold ages. rewrite map_map. reflexivity. Qed.

Lemma nth_ages rows j r :
  nth_error rows j = Some r -> nth j (ages rows) None = age_of r.
Proof. rewrite ages_map. apply (nth_map_row age_of). Qed.

Lemma In_map_row {A} (f : ListingRecord -> option A) rows a :
  In (Some a) (map f rows) -> exists r, In r rows /\ f r = Some a.
Proof.
  intros H. apply in_map_iff in H. destruct H as (r & E & I). exists r. split; assumption.
Qed.

Lemma no_worse_cells (f : ListingRecord -> option Z) rows i j ri rj :
  nth_error rows i = Some ri -> nth_error rows j = Some rj ->
  no_worse (f ri) (f rj) = true ->
  let x := map (fun r => num_of (f r)) rows in
  (safe_val (nth j (norm_cells x) None) <= safe_val (nth i (norm_cells x) None))%Q.
Proof.
  intros Hi Hj W x.
  pose proof (nth_map_row (fun r => num_of (f r)) rows i ri Hi) as Ni.
  pose proof (nth_map_row (fun r => num_of (f r)) rows j rj Hj) as Nj.
  fold x in Ni, Nj. cbv beta in Ni, Nj.
  unfold no_worse in W. destruct (f ri) as [a|], (f rj) as [b|]; try discriminate.
  - apply (norm_cells_mono x i j (inject_Z a) (inject_Z b) Ni Nj).
    rewrite <- Zle_Qle. apply Z.leb_le. exact W.
  - rewrite (norm_cells_missing x i j Ni Nj). apply Qle_refl.
Qed.

Lemma no_worse_ages rows i j ri rj :
  nth_error rows i = Some ri -> nth_error rows j = Some rj ->
  no_worse (year rj) (year ri) = true ->
  (safe_val (nth j (norm_cells (ages rows)) None) <=
   safe_val (nth i (norm_cells (ages rows)) None))%Q.
Proof.
  intros Hi Hj W.
  pose proof (nth_ages rows i ri Hi) as Ni. pose proof (nth_ages rows j rj Hj) as Nj.
  unfold age_of in Ni, Nj.
  unfold no_worse in W. destruct (year ri) as [a|], (year rj) as [b|]; try discriminate.
  - cbn [num_of option_map] in Ni, Nj.
    apply (norm_cells_mono _ i j _ _ Ni Nj).
    apply Z.leb_le in W. rewrite Zle_Qle in W.
    set (qa := inject_Z a) in *. set (qb := inject_Z b) in *. clearbody qa qb.
    unfold current_year. lra.
  - rewrite (norm_cells_missing _ i j Ni Nj). apply Qle_refl.
Qed.

Lemma dominates_score rows i j ri rj :
  nth_error rows i = Some ri -> nth_error rows j = Some rj ->
  dominates ri rj = true ->
  (value_score_at rows j <= value_score_at rows i)%Q.
Proof.
  intros Hi Hj D. unfold dominates in D.
  apply andb_true_iff in D. destruct D as [D Dy].
  apply andb_true_iff in D. destruct D as [D Dm].
  apply andb_true_iff in D. destruct D as [Dp Dd].
  unfold value_score_at. apply np_round1_mono. apply score_mono.
  - exact (no_worse_cells price_sgd rows i j ri rj Hi Hj Dp).
  - exact (no_worse_cells depreciation_per_year rows i j ri rj Hi Hj Dd).
  - exact (no_worse_cells mileage_km rows i j ri rj Hi Hj Dm).
  - exact (no_worse_ages rows i j ri rj Hi Hj Dy).
Qed.

(** The score cell of the row that holds record [i]. *)
Lemma ranked_score_cell argsort rows a i :
  sorts argsort (sort_call rows) ->
  nth_error (nargsort_desc argsort (value_scores rows)) a = Some i ->
  nth a (num_cells "value_score"
           (ranked_frame (nargsort_desc argsort (value_scores rows)) rows)) None =
  Some (value_score_at rows i).
Proof.
  intros Hok Ha. unfold num_cells. rewrite ranked_value_score.
  rewrite nth_take_cells, Ha. apply value_scores_nth.
  apply (ix_bound argsort rows Hok). eapply nth_error_In. exact Ha.
Qed.

Lemma position_of argsort rows i :
  sorts argsort (sort_call rows) -> (i < List.length rows)%nat ->
  exists a, nth_error (nargsort_desc argsort (value_scores rows)) a = Some i.
Proof.
  intros Hok Hi. apply In_nth_error.
  apply (Permutation_in _ (Permutation_sym (ix_perm argsort rows Hok))).
  apply in_seq. lia.
Qed.

End ScoreFacts.

Import ScoreFacts.

(** X10. A record that is no worse than another one of the batch on each
    of the four scored attributes never gets the lower [value_score], and
    with a strictly higher score it stands in an earlier row. *)
Theorem dominating_record_scores_no_lower :
  forall (argsort : list Q -> list nat) (rows : list ListingRecord)
         (i j : nat) (ri rj : ListingRecord),
    sorts argsort (sort_call rows) ->
    nth_error rows i = Some ri -> nth_error rows j = Some rj ->
    dominates ri rj = true ->
    exists out ix a b si sj,
      compute_value_scores argsort (DataFrame_of_rows rows) = Ok out /\
      Permutation ix (seq 0 (List.length rows)) /\
      carried ix (DataFrame_of_rows rows) out /\
      nth_error ix a = Some i /\ nth_error ix b = Some j /\
      nth a (num_cells "value_score" out) None = Some si /\
      nth b (num_cells "value_score" out) None = Some sj /\
      (sj <= si)%Q /\ ((sj < si)%Q -> (a < b)%nat).
Proof.
  intros argsort rows i j ri rj Hok Hi Hj D.
  assert (Hne : rows <> []) by (intros ->; destruct i; discriminate).
  assert (Li : (i < List.length rows)%nat) by (apply nth_error_Some; congruence).
  assert (Lj : (j < List.length rows)%nat) by (apply nth_error_Some; congruence).
  destruct (position_of argsort rows i Hok Li) as [a Ha].
  destruct (position_of argsort rows j Hok Lj) as [b Hb].
  set (ix := nargsort_desc argsort (value_scores rows)) in *.
  exists (ranked_frame ix rows), ix, a, b, (value_score_at rows i), (value_score_at rows j).
  split; [apply scorer_run; exact Hne|].
  split; [apply ix_perm; exact Hok|].
  split; [apply ranked_carried|].
  split; [exact Ha|]. split; [exact Hb|].
  split; [apply ranked_score_cell; assumption|].
  split; [apply ranked_score_cell; assumption|].
  split; [exact (dominates_score rows i j ri rj Hi Hj D)|].
  intros Lt.
  destruct (Nat.lt_ge_cases a b) as [|Ge]; [assumption|exfalso].
  assert (La : (a < List.length ix)%nat) by (apply nth_error_Some; congruence).
  destruct (Nat.eq_dec a b) as [E|N].
  - subst b. rewrite Ha in Hb. injection Hb as ->. lra.
  - pose proof (ranked_sorted argsort rows Hok) as S. fold ix in S.
    pose proof (StronglySorted_nth _ _ 0%Q S b a) as T.
    rewrite length_map in T. specialize (T ltac:(lia)). cbv beta in T.
    assert (Na : nth a (map (value_score_at rows) ix) 0%Q = value_score_at rows i).
    { rewrite (nth_indep _ 0%Q (value_score_at rows 0)) by (rewrite length_map; lia).
      rewrite map_nth. f_equal. apply nth_error_nth. exact Ha. }
    assert (Nb : nth b (map (value_score_at rows) ix) 0%Q = value_score_at rows j).
    { rewrite (nth_indep _ 0%Q (value_score_at rows 0)) by (rewrite length_map; lia).
      rewrite map_nth. f_equal. apply nth_error_nth. exact Hb. }
    rewrite Na, Nb in T. lra.
Qed.

Lemma dominating_record_witness :
  exists out ix a b si sj,
    compute_value_scores Npy.aquicksort (DataFrame_of_rows [car_B; car_A]) = Ok out /\
    Permutation ix (seq 0 2) /\
    carried ix (DataFrame_of_rows [car_B; car_A]) out /\
    nth_error ix a = Some 1%nat /\ nth_error ix b = Some 0%nat /\
    nth a (num_cells "value_score" out) None = Some si /\
    nth b (num_cells "value_score" out) None = Some sj /\
    (sj <= si)%Q /\ ((sj < si)%Q -> (a < b)%nat).
Proof.
  apply (dominating_record_scores_no_lower Npy.aquicksort [car_B; car_A] 1 0 car_A car_B).
  - apply sortsb_sound. vm_compute. reflexivity.
  - reflexivity.
  - reflexivity.
  - reflexivity.
Defined.

Lemma uniform_cells (f : ListingRecord -> option Z) rows i :
  same_where_present f rows ->
  safe_val (nth i (norm_cells (map (fun r => num_of (f r)) rows)) None) = (1 # 2)%Q.
Proof.
  intros U. apply norm_cells_uniform. intros a b Ia Ib.
  apply (In_map_row (fun r => num_of (f r))) in Ia, Ib.
  destruct Ia as (r1 & I1 & E1). destruct Ib as (r2 & I2 & E2).
  destruct (f r1) as [za|] eqn:F1, (f r2) as [zb|] eqn:F2; try discriminate.
  cbn in E1, E2. injection E1 as <-. injection E2 as <-.
  rewrite (U r1 r2 za zb I1 I2 F1 F2). reflexivity.
Qed.

Lemma uniform_ages rows i :
  same_where_present year rows ->
  safe_val (nth i (norm_cells (ages rows)) None) = (1 # 2)%Q.
Proof.
  intros U. apply norm_cells_uniform. intros a b Ia Ib.
  rewrite ages_map in Ia, Ib.
  apply (In_map_row age_of) in Ia, Ib.
  destruct Ia as (r1 & I1 & E1). destruct Ib as (r2 & I2 & E2).
  unfold age_of in E1, E2.
  destruct (year r1) as [za|] eqn:F1, (year r2) as [zb|] eqn:F2; try discriminate.
  cbn in E1, E2. injection E1 as <-. injection E2 as <-.
  rewrite (U r1 r2 za zb I1 I2 F1 F2). reflexivity.
Qed.

Lemma no_spread_score rows i :
  no_spread rows ->
  value_score_at rows i = np_round1 (score (1 # 2) (1 # 2) (1 # 2) (1 # 2) * 100).
Proof.
  intros (Up & Ud & Um & Uy). unfold value_score_at.
  fold (prices rows). unfold prices, depreciations, mileages.
  rewrite (uniform_cells price_sgd rows i Up), (uniform_cells depreciation_per_year rows i Ud),
    (uniform_cells mileage_km rows i Um), (uniform_ages rows i Uy).
  reflexivity.
Qed.

(** X11. In a batch where no attribute has two different values (a batch
    of one record is such a batch), every record gets the score 50,
    whatever its attributes are. *)
Theorem batch_without_spread_scores_50 :
  forall (argsort : list Q -> list nat) (rows : list ListingRecord),
    sorts argsort (sort_call rows) ->
    rows <> [] ->
    no_spread rows ->
    exists out scores,
      compute_value_scores argsort (DataFrame_of_rows rows) = Ok out /\
      nrows out = List.length rows /\
      lookup "value_score" (columns out) = Some (NumCol (map Some scores)) /\
      List.length scores = List.length rows /\
      Forall (fun s => (s == 50)%Q) scores.
Proof.
  intros argsort rows Hok Hne U.
  set (ix := nargsort_desc argsort (value_scores rows)).
  exists (ranked_frame ix rows), (map (value_score_at rows) ix).
  split; [apply scorer_run; exact Hne|].
  split; [apply ix_length; exact Hok|].
  split; [apply ranked_scores; exact Hok|].
  split; [rewrite length_map; apply ix_length; exact Hok|].
  apply Forall_forall. intros s Hs. apply in_map_iff in Hs.
  destruct Hs as (i & <- & _). rewrite (no_spread_score rows i U). apply neutral_score.
Qed.

Lemma batch_without_spread_witness :
  exists out scores,
    compute_value_scores Npy.aquicksort (DataFrame_of_rows [car_A]) = Ok out /\
    nrows out = 1%nat /\
    lookup "value_score" (columns out) = Some (NumCol (map Some scores)) /\
    List.length scores = 1%nat /\
    Forall (fun s => (s == 50)%Q) scores.
Proof.
  apply (batch_without_spread_scores_50 Npy.aquicksort [car_A]).
  - apply sortsb_sound. vm_compute. reflexivity.
  - discriminate.
  - repeat split; intros r1 r2 a b [<-|[]] [<-|[]] E1 E2; cbn in E1, E2; congruence.
Defined.

Lemma least_cells (f : ListingRecord -> option Z) rows i r :
  nth_error rows i = Some r -> least f rows r ->
  (safe_val (nth i (norm_cells (map (fun r => num_of (f r)) rows)) None) == 1)%Q.
Proof.
  intros Hi (a & Fa & L & (r' & b & I' & Fb & Lt)).
  apply (norm_cells_least _ i (inject_Z a)).
  - rewrite (nth_map_row (fun r => num_of (f r)) rows i r Hi), Fa. reflexivity.
  - intros q Iq. apply (In_map_row (fun r => num_of (f r))) in Iq.
    destruct Iq as (r1 & I1 & E1). destruct (f r1) as [z|] eqn:F1; [|discriminate].
    cbn in E1. injection E1 as <-. rewrite <- Zle_Qle. exact (L r1 z I1 F1).
  - exists (inject_Z b). split.
    + apply in_map_iff. exists r'. split; [rewrite Fb; reflexivity|exact I'].
    + rewrite <- Zlt_Qlt. exact Lt.
Qed.

Lemma greatest_cells (f : ListingRecord -> option Z) rows i r :
  nth_error rows i = Some r -> greatest f rows r ->
  (safe_val (nth i (norm_cells (map (fun r => num_of (f r)) rows)) None) == 0)%Q.
Proof.
  intros Hi (a & Fa & L & (r' & b & I' & Fb & Lt)).
  apply (norm_cells_greatest _ i (inject_Z a)).
  - rewrite (nth_map_row (fun r => num_of (f r)) rows i r Hi), Fa. reflexivity.
  - intros q Iq. apply (In_map_row (fun r => num_of (f r))) in Iq.
    destruct Iq as (r1 & I1 & E1). destruct (f r1) as [z|] eqn:F1; [|discriminate].
    cbn in E1. injection E1 as <-. rewrite <- Zle_Qle. exact (L r1 z I1 F1).
  - exists (inject_Z b). split.
    + apply in_map_iff. exists r'. split; [rewrite Fb; reflexivity|exact I'].
    + rewrite <- Zlt_Qlt. exact Lt.
Qed.

Lemma newest_ages rows i r :
  nth_error rows i = Some r -> greatest year rows r ->
  (safe_val (nth i (norm_cells (ages rows)) None) == 1)%Q.
Proof.
  intros Hi (a & Fa & L & (r' & b & I' & Fb & Lt)).
  apply (norm_cells_least _ i (current_year - inject_Z a)%Q).
  - rewrite (nth_ages rows i r Hi). unfold age_of. rewrite Fa. reflexivity.
  - intros q Iq. rewrite ages_map in Iq. apply (In_map_row age_of) in Iq.
    destruct Iq as (r1 & I1 & E1). unfold age_of in E1.
    destruct (year r1) as [z|] eqn:F1; [|discriminate].
    cbn in E1. injection E1 as <-.
    pose proof (L r1 z I1 F1) as Le. rewrite Zle_Qle in Le.
    set (qa := inject_Z a) in *. set (qz := inject_Z z) in *. clearbody qa qz. lra.
  - exists (current_year - inject_Z b)%Q. split.
    + rewrite ages_map. apply in_map_iff. exists r'.
      split; [unfold age_of; rewrite Fb; reflexivity|exact I'].
    + rewrite Zlt_Qlt in Lt.
      set (qa := inject_Z a) in *. set (qb := inject_Z b) in *. clearbody qa qb. lra.
Qed.

Lemma oldest_ages rows i r :
  nth_error rows i = Some r -> least year rows r ->
  (safe_val (nth i (norm_cells (ages rows)) None) == 0)%Q.
Proof.
  intros Hi (a & Fa & L & (r' & b & I' & Fb & Lt)).
  apply (norm_cells_greatest _ i (current_year - inject_Z a)%Q).
  - rewrite (nth_ages rows i r Hi). unfold age_of. rewrite Fa. reflexivity.
  - intros q Iq. rewrite ages_map in Iq. apply (In_map_row age_of) in Iq.
    destruct Iq as (r1 & I1 & E1). unfold age_of in E1.
    destruct (year r1) as [z|] eqn:F1; [|discriminate].
    cbn in E1. injection E1 as <-.
    pose proof (L r1 z I1 F1) as Le. rewrite Zle_Qle in Le.
    set (qa := inject_Z a) in *. set (qz := inject_Z z) in *. clearbody qa qz. lra.
  - exists (current_year - inject_Z b)%Q. split.
    + rewrite ages_map. apply in_map_iff. exists r'.
      split; [unfold age_of; rewrite Fb; reflexivity|exact I'].
    + rewrite Zlt_Qlt in Lt.
      set (qa := inject_Z a) in *. set (qb := inject_Z b) in *. clearbody qa qb. lra.
Qed.

Lemma best_score rows i r :
  nth_error rows i = Some r -> best_of rows r -> (value_score_at rows i == 100)%Q.
Proof.
  intros Hi (Bp & Bd & Bm & By). unfold value_score_at.
  pose proof (least_cells price_sgd rows i r Hi Bp) as Ep.
  pose proof (least_cells depreciation_per_year rows i r Hi Bd) as Ed.
  pose proof (least_cells mileage_km rows i r Hi Bm) as Em.
  pose proof (newest_ages rows i r Hi By) as Ey.
  fold (prices rows) in Ep. fold (depreciations rows) in Ed. fold (mileages rows) in Em.
  rewrite (np_round1_comp _ 100%Q); [vm_compute; reflexivity|].
  unfold score. rewrite Ep, Ed, Em, Ey. vm_compute. reflexivity.
Qed.

Lemma worst_score rows i r :
  nth_error rows i = Some r -> worst_of rows r -> (value_score_at rows i == 0)%Q.
Proof.
  intros Hi (Bp & Bd & Bm & By). unfold value_score_at.
  pose proof (greatest_cells price_sgd rows i r Hi Bp) as Ep.
  pose proof (greatest_cells depreciation_per_year rows i r Hi Bd) as Ed.
  pose proof (greatest_cells mileage_km rows i r Hi Bm) as Em.
  pose proof (oldest_ages rows i r Hi By) as Ey.
  fold (prices rows) in Ep. fold (depreciations rows) in Ed. fold (mileages rows) in Em.
  rewrite (np_round1_comp _ 0%Q); [vm_compute; reflexivity|].
  unfold score. rewrite Ep, Ed, Em, Ey. vm_compute. reflexivity.
Qed.

(** In binary64 too, four ones give 100 and four zeros give 0. *)
Example extreme_scores_binary64 :
  Binary64.np_round1 (Binary64.score 1 1 1 1 * 100) = 100%float /\
  Binary64.np_round1 (Binary64.score 0 0 0 0 * 100) = 0%float.
Proof. split; vm_compute; reflexivity. Qed.

(** X12. The record that has the lowest price, depreciation and mileage
    and the latest year of a batch, none of the four being the same for
    all records, gets the score 100. *)
Theorem best_record_scores_100 :
  forall (argsort : list Q -> list nat) (rows : list ListingRecord)
         (i : nat) (r : ListingRecord),
    sorts argsort (sort_call rows) ->
    nth_error rows i = Some r ->
    best_of rows r ->
    exists out ix a s,
      compute_value_scores argsort (DataFrame_of_rows rows) = Ok out /\
      Permutation ix (seq 0 (List.length rows)) /\
      carried ix (DataFrame_of_rows rows) out /\
      nth_error ix a = Some i /\
      nth a (num_cells "value_score" out) None = Some s /\ (s == 100)%Q.
Proof.
  intros argsort rows i r Hok Hi B.
  assert (Hne : rows <> []) by (intros ->; destruct i; discriminate).
  assert (Li : (i < List.length rows)%nat) by (apply nth_error_Some; congruence).
  destruct (position_of argsort rows i Hok Li) as [a Ha].
  set (ix := nargsort_desc argsort (value_scores rows)) in *.
  exists (ranked_frame ix rows), ix, a, (value_score_at rows i).
  split; [apply scorer_run; exact Hne|].
  split; [apply ix_perm; exact Hok|].
  split; [apply ranked_carried|].
  split; [exact Ha|].
  split; [apply ranked_score_cell; assumption|].
  exact (best_score rows i r Hi B).
Qed.

Ltac extreme_of :=
  eexists; split; [reflexivity|]; split;
  [ intros r' b [<-|[<-|[]]] E; cbn in E; injection E as <-; lia
  | first [ solve [eexists; eexists; split; [left; reflexivity|];
                   split; [reflexivity|lia]]
          | solve [eexists; eexists; split; [right; left; reflexivity|];
                   split; [reflexivity|lia]] ] ].

Lemma best_record_witness :
  exists out ix a s,
    compute_value_scores Npy.aquicksort (DataFrame_of_rows [car_B; car_A]) = Ok out /\
    Permutation ix (seq 0 2) /\
    carried ix (DataFrame_of_rows [car_B; car_A]) out /\
    nth_error ix a = Some 1%nat /\
    nth a (num_cells "value_score" out) None = Some s /\ (s == 100)%Q.
Proof.
  apply (best_record_scores_100 Npy.aquicksort [car_B; car_A] 1 car_A).
  - apply sortsb_sound. vm_compute. reflexivity.
  - reflexivity.
  - repeat split; extreme_of.
Defined.

(** X13. The record that has the highest price, depreciation and mileage
    and the earliest year of a batch, none of the four being the same for
    all records, gets the score 0. *)
Theorem worst_record_scores_0 :
  forall (argsort : list Q -> list nat) (rows : list ListingRecord)
         (i : nat) (r : ListingRecord),
    sorts argsort (sort_call rows) ->
    nth_error rows i = Some r ->
    worst_of rows r ->
    exists out ix a s,
      compute_value_scores argsort (DataFrame_of_rows rows) = Ok out /\
      Permutation ix (seq 0 (List.length rows)) /\
      carried ix (DataFrame_of_rows rows) out /\
      nth_error ix a = Some i /\
      nth a (num_cells "value_score" out) None = Some s /\ (s == 0)%Q.
Proof.
  intros argsort rows i r Hok Hi B.
  assert (Hne : rows <> []) by (intros ->; destruct i; discriminate).
  assert (Li : (i < List.length rows)%nat) by (apply nth_error_Some; congruence).
  destruct (position_of argsort rows i Hok Li) as [a Ha].
  set (ix := nargsort_desc argsort (value_scores rows)) in *.
  exists (ranked_frame ix rows), ix, a, (value_score_at rows i).
  split; [apply scorer_run; exact Hne|].
  split; [apply ix_perm; exact Hok|].
  split; [apply ranked_carried|].
  split; [exact Ha|].
  split; [apply ranked_score_cell; assumption|].
  exact (worst_score rows i r Hi B).
Qed.

Lemma worst_record_witness :
  exists out ix a s,
    compute_value_scores Npy.aquicksort (DataFrame_of_rows [car_B; car_A]) = Ok out /\
    Permutation ix (seq 0 2) /\
    carried ix (DataFrame_of_rows [car_B; car_A]) out /\
    nth_error ix a = Some 0%nat /\
    nth a (num_cells "value_score" out) None = Some s /\ (s == 0)%Q.
Proof.
  apply (worst_record_scores_0 Npy.aquicksort [car_B; car_A] 0 car_B).
  - apply sortsb_sound. vm_compute. reflexivity.
  - reflexivity.
  - repeat split; extreme_of.
Defined.

(** *** Batches holding the same records *)

Lemma same_extremes v vs v' vs' :
  (forall q, In q (v :: vs) <-> In q (v' :: vs')) ->
  (list_min v vs == list_min v' vs')%Q /\ (list_max v vs == list_max v' vs')%Q.
Proof.
  intros S. split; apply Qle_antisym.
  - apply list_min_le. apply S. apply list_min_In.
  - apply list_min_le. apply S. apply list_min_In.
  - apply list_max_ge. apply S. apply list_max_In.
  - apply list_max_ge. apply S. apply list_max_In.
Qed.

Lemma norm_cells_same_values x x' i j o :
  (forall q, In (Some q) x <-> In (Some q) x') ->
  nth i x None = o -> nth j x' None = o ->
  (safe_val (nth i (norm_cells x) None) == safe_val (nth j (norm_cells x') None))%Q.
Proof.
  intros S Hi Hj. destruct o as [a|].
  2:{ rewrite (proj2 (norm_cells_none x i) Hi), (proj2 (norm_cells_none x' j) Hj).
      reflexivity. }
  assert (S' : forall q, In q (present x) <-> In q (present x')).
  { intros q. rewrite !present_In. apply S. }
  unfold norm_cells.
  destruct (present x) as [|v vs] eqn:P.
  { exfalso. apply nth_Some_In in Hi. apply present_In in Hi. rewrite P in Hi. exact Hi. }
  destruct (present x') as [|v' vs'] eqn:P'.
  { exfalso. apply nth_Some_In in Hj. apply present_In in Hj. rewrite P' in Hj. exact Hj. }
  destruct (same_extremes v vs v' vs' S') as [Emin Emax].
  assert (EB : Qeq_bool (list_max v vs) (list_min v vs) =
               Qeq_bool (list_max v' vs') (list_min v' vs')).
  { destruct (Qeq_bool (list_max v' vs') (list_min v' vs')) eqn:B.
    - apply Qeq_bool_eq in B. apply Qeq_eq_bool. rewrite Emin, Emax. exact B.
    - destruct (Qeq_bool (list_max v vs) (list_min v vs)) eqn:B0; [|reflexivity].
      apply Qeq_bool_eq in B0. apply Qeq_bool_neq in B. exfalso. apply B.
      rewrite <- Emin, <- Emax. exact B0. }
  rewrite EB.
  destruct (Qeq_bool (list_max v' vs') (list_min v' vs')) eqn:B;
    rewrite !nth_map_none by reflexivity; rewrite Hi, Hj; cbn [notna option_map safe_val].
  - reflexivity.
  - rewrite Emin, Emax. reflexivity.
Qed.

Lemma same_records_values {A} (f : ListingRecord -> option A) rows rows' :
  (forall r, In r rows <-> In r rows') ->
  forall q, In (Some q) (map f rows) <-> In (Some q) (map f rows').
Proof.
  intros S q. rewrite !in_map_iff.
  split; intros (r & E & I); exists r; (split; [exact E|apply S; exact I]).
Qed.

Lemma same_records_score rows rows' i j r :
  (forall r, In r rows <-> In r rows') ->
  nth_error rows i = Some r -> nth_error rows' j = Some r ->
  (value_score_at rows i == value_score_at rows' j)%Q.
Proof.
  intros S Hi Hj. unfold value_score_at.
  assert (Ep := norm_cells_same_values (prices rows) (prices rows') i j _
                  (same_records_values _ rows rows' S)
                  (nth_prices rows i r Hi) (nth_prices rows' j r Hj)).
  assert (Ed := norm_cells_same_values (depreciations rows) (depreciations rows') i j _
                  (same_records_values _ rows rows' S)
                  (nth_depreciations rows i r Hi) (nth_depreciations rows' j r Hj)).
  assert (Em := norm_cells_same_values (mileages rows) (mileages rows') i j _
                  (same_records_values _ rows rows' S)
                  (nth_mileages rows i r Hi) (nth_mileages rows' j r Hj)).
  assert (Ea : (safe_val (nth i (norm_cells (ages rows)) None) ==
                safe_val (nth j (norm_cells (ages rows')) None))%Q).
  { apply (norm_cells_same_values _ _ i j (age_of r)).
    - rewrite !ages_map. apply same_records_values. exact S.
    - apply nth_ages. exact Hi.
    - apply nth_ages. exact Hj. }
  match goal with
  | |- (np_round1 ?a == np_round1 ?b)%Q => rewrite (np_round1_comp a b); [reflexivity|]
  end.
  unfold score. rewrite Ep, Ed, Em, Ea. reflexivity.
Qed.

(** X14. The score of a record depends on the records of the batch, not on
    their order nor on how often each occurs: in two batches that hold the
    same records, a record gets the same [value_score]. *)
Theorem score_depends_on_the_records_only :
  forall (argsort : list Q -> list nat) (rows rows' : list ListingRecord)
         (i j : nat) (r : ListingRecord),
    sorts argsort (sort_call rows) ->
    sorts argsort (sort_call rows') ->
    (forall r0, In r0 rows <-> In r0 rows') ->
    nth_error rows i = Some r -> nth_error rows' j = Some r ->
    exists out out' ix ix' a b s s',
      compute_value_scores argsort (DataFrame_of_rows rows) = Ok out /\
      compute_value_scores argsort (DataFrame_of_rows rows') = Ok out' /\
      carried ix (DataFrame_of_rows rows) out /\
      carried ix' (DataFrame_of_rows rows') out' /\
      nth_error ix a = Some i /\ nth_error ix' b = Some j /\
      nth a (num_cells "value_score" out) None = Some s /\
      nth b (num_cells "value_score" out') None = Some s' /\
      (s == s')%Q.
Proof.
  intros argsort rows rows' i j r Hok Hok' S Hi Hj.
  assert (Hne : rows <> []) by (intros ->; destruct i; discriminate).
  assert (Hne' : rows' <> []) by (intros ->; destruct j; discriminate).
  assert (Li : (i < List.length rows)%nat) by (apply nth_error_Some; congruence).
  assert (Lj : (j < List.length rows')%nat) by (apply nth_error_Some; congruence).
  destruct (position_of argsort rows i Hok Li) as [a Ha].
  destruct (position_of argsort rows' j Hok' Lj) as [b Hb].
  set (ix := nargsort_desc argsort (value_scores rows)) in *.
  set (ix' := nargsort_desc argsort (value_scores rows')) in *.
  exists (ranked_frame ix rows), (ranked_frame ix' rows'), ix, ix', a, b,
    (value_score_at rows i), (value_score_at rows' j).
  split; [apply scorer_run; exact Hne|].
  split; [apply scorer_run; exact Hne'|].
  split; [apply ranked_carried|]. split; [apply ranked_carried|].
  split; [exact Ha|]. split; [exact Hb|].
  split; [apply ranked_score_cell; assumption|].
  split; [apply ranked_score_cell; assumption|].
  exact (same_records_score rows rows' i j r S Hi Hj).
Qed.

Lemma score_depends_on_the_records_witness :
  exists out out' ix ix' a b s s',
    compute_value_scores Npy.aquicksort (DataFrame_of_rows [car_B; car_A]) = Ok out /\
    compute_value_scores Npy.aquicksort (DataFrame_of_rows [car_A; car_B; car_A]) = Ok out' /\
    carried ix (DataFrame_of_rows [car_B; car_A]) out /\
    carried ix' (DataFrame_of_rows [car_A; car_B; car_A]) out' /\
    nth_error ix a = Some 1%nat /\ nth_error ix' b = Some 0%nat /\
    nth a (num_cells "value_score" out) None = Some s /\
    nth b (num_cells "value_score" out') None = Some s' /\
    (s == s')%Q.
Proof.
  apply (score_depends_on_the_records_only Npy.aquicksort
           [car_B; car_A] [car_A; car_B; car_A] 1 0 car_A).
  - apply sortsb_sound. vm_compute. reflexivity.
  - apply sortsb_sound. vm_compute. reflexivity.
  - intros r0. cbn [In]. tauto.
  - reflexivity.
  - reflexivity.
Defined.

Module FrameFacts.
Local Open Scope list_scope.

Lemma numeric_cells df name :
  numeric_if_present df name -> has_col name df = true ->
  lookup name (columns df) = Some (NumCol (cells_of df name)) /\
  List.length (cells_of df name) = nrows df.
Proof.
  unfold numeric_if_present, cells_of. rewrite has_col_lookup.
  destruct (lookup name (columns df)) as [[l|l]|]; intros H E;
    try discriminate; try contradiction.
  split; [reflexivity|exact H].
Qed.

Lemma age_cells_length df :
  numeric_if_present df "year" -> List.length (age_cells df) = nrows df.
Proof.
  unfold numeric_if_present, age_cells.
  destruct (lookup "year" (columns df)) as [[l|l]|]; intros H.
  - contradiction.
  - rewrite length_map. exact H.
  - apply repeat_length.
Qed.

(** The first step of [with_norms]: the age column. *)
Lemma age_step df :
  numeric_if_present df "year" ->
  (if has_col "year" df
   then (y <- getitem df "year" ;; rsub current_year y)
   else Ok (NumCol (repeat None (nrows df)))) = Ok (NumCol (age_cells df)).
Proof.
  unfold numeric_if_present, age_cells, getitem. rewrite has_col_lookup.
  destruct (lookup "year" (columns df)) as [[l|l]|]; intros H;
    [contradiction|reflexivity|reflexivity].
Qed.

Lemma norm_col_missing df col :
  lookup col (columns df) = None -> norm_col df col false = Raise (KeyError col).
Proof.
  intros H. unfold norm_col, float_column, getitem. rewrite H. reflexivity.
Qed.

Lemma has_col_false name df : has_col name df = false -> lookup name (columns df) = None.
Proof.
  rewrite has_col_lookup. destruct (lookup name (columns df)); [discriminate|reflexivity].
Qed.

Lemma norm_col_numeric frame col x :
  lookup col (columns frame) = Some (NumCol x) -> List.length x = nrows frame ->
  norm_col frame col false = Ok (NumCol (norm_cells x)).
Proof.
  intros H L. apply norm_col_cells; [apply float_column_num; exact H|exact L].
Qed.

Ltac other_column := cbn [columns]; rewrite ?lookup_put; eqb_names.

Ltac norm_ok x Hx Lx :=
  rewrite (norm_col_numeric _ _ x) by (first [other_column; exact Hx | exact Lx]);
  cbn [bind];
  rewrite setitem_ok by (cbn [col_len nrows]; rewrite norm_cells_length; exact Lx);
  cbn [bind nrows columns].

Section Frame.

Variable df : DataFrame.
Hypothesis Hyear : numeric_if_present df "year".

Lemma aged_frame :
  setitem df "car_age" (NumCol (age_cells df)) =
  Ok (mkFrame (nrows df) (put "car_age" (NumCol (age_cells df)) (columns df))).
Proof. apply setitem_ok. cbn [col_len]. apply age_cells_length. exact Hyear. Qed.

Lemma with_norms_price_missing :
  has_col "price_sgd" df = false -> with_norms df = Raise (KeyError "price_sgd").
Proof.
  intros H. unfold with_norms. rewrite (age_step df Hyear). cbn [bind].
  rewrite aged_frame. cbn [bind nrows columns]. rewrite norm_col_missing; [reflexivity|].
  other_column. apply has_col_false. exact H.
Qed.

Variable p : list (option Q).
Hypothesis Hp : lookup "price_sgd" (columns df) = Some (NumCol p).
Hypothesis Lp : List.length p = nrows df.

Lemma with_norms_depreciation_missing :
  has_col "depreciation_per_year" df = false ->
  with_norms df = Raise (KeyError "depreciation_per_year").
Proof.
  intros H. unfold with_norms. rewrite (age_step df Hyear). cbn [bind].
  rewrite aged_frame. cbn [bind nrows columns].
  norm_ok p Hp Lp.
  rewrite norm_col_missing; [reflexivity|].
  other_column. apply has_col_false. exact H.
Qed.

Variable d : list (option Q).
Hypothesis Hd : lookup "depreciation_per_year" (columns df) = Some (NumCol d).
Hypothesis Ld : List.length d = nrows df.

Lemma with_norms_mileage_missing :
  has_col "mileage_km" df = false ->
  with_norms df = Raise (KeyError "mileage_km").
Proof.
  intros H. unfold with_norms. rewrite (age_step df Hyear). cbn [bind].
  rewrite aged_frame. cbn [bind nrows columns].
  norm_ok p Hp Lp. norm_ok d Hd Ld.
  rewrite norm_col_missing; [reflexivity|].
  other_column. apply has_col_false. exact H.
Qed.

Variable m : list (option Q).
Hypothesis Hm : lookup "mileage_km" (columns df) = Some (NumCol m).
Hypothesis Lm : List.length m = nrows df.

Local Abbreviation normed_columns := (Numeric.normed_columns df p d m) (only parsing).
Local Abbreviation raw_scores := (Numeric.raw_scores df p d m) (only parsing).
Local Abbreviation rounded_scores := (Numeric.rounded_scores df p d m) (only parsing).
Local Abbreviation scored_frame := (Numeric.scored_frame df p d m) (only parsing).

Lemma with_norms_numeric :
  with_norms df = Ok (mkFrame (nrows df) normed_columns).
Proof.
  unfold with_norms. rewrite (age_step df Hyear). cbn [bind].
  rewrite aged_frame. cbn [bind nrows columns].
  norm_ok p Hp Lp. norm_ok d Hd Ld. norm_ok m Hm Lm.
  rewrite (norm_col_numeric _ _ (age_cells df));
    [|other_column; reflexivity|cbn [nrows]; apply age_cells_length; exact Hyear].
  cbn [bind].
  rewrite setitem_ok
    by (cbn [col_len nrows]; rewrite norm_cells_length; apply age_cells_length; exact Hyear).
  cbn [nrows columns]. reflexivity.
Qed.

Lemma row_scores_numeric :
  row_scores (mkFrame (nrows df) normed_columns) = Ok raw_scores.
Proof.
  unfold row_scores, normed_columns.
  rewrite (float_column_num _ "price_norm" (norm_cells p)) by (other_column; reflexivity).
  rewrite (float_column_num _ "depr_norm" (norm_cells d)) by (other_column; reflexivity).
  rewrite (float_column_num _ "mileage_norm" (norm_cells m)) by (other_column; reflexivity).
  rewrite (float_column_num _ "age_norm" (norm_cells (age_cells df)))
    by (other_column; reflexivity).
  reflexivity.
Qed.

Lemma scorer_numeric argsort :
  empty df = false ->
  compute_value_scores argsort df = Ok (scored_frame (nargsort_desc argsort rounded_scores)).
Proof.
  intros E. unfold compute_value_scores. rewrite E.
  rewrite with_norms_numeric. cbn [bind].
  rewrite row_scores_numeric. cbn [bind]. fold rounded_scores.
  rewrite setitem_ok
    by (cbn [col_len nrows]; unfold rounded_scores, raw_scores;
        rewrite !length_map, length_seq; reflexivity).
  cbn [bind nrows columns].
  rewrite setitem_ok by (unfold value_rank_col, take; cbn [col_len nrows];
                         rewrite length_map, length_seq; reflexivity).
  reflexivity.
Qed.

End Frame.

End FrameFacts.

Import FrameFacts.

Lemma scorable_parts df :
  scorable df ->
  numeric_if_present df "year" /\ numeric_if_present df "price_sgd" /\
  numeric_if_present df "depreciation_per_year" /\ numeric_if_present df "mileage_km".
Proof.
  intros S. unfold scorable in S.
  inversion_clear S as [|? ? Hy S1]. inversion_clear S1 as [|? ? Hp S2].
  inversion_clear S2 as [|? ? Hd S3]. inversion_clear S3 as [|? ? Hm _].
  repeat split; assumption.
Qed.



Lemma take_missing ix k :
  take_cells ix (repeat (@None Q) k) = repeat None (List.length ix).
Proof.
  unfold take_cells. induction ix as [|i tl IH]; [reflexivity|].
  cbn [map List.length repeat]. rewrite IH. f_equal.
  clear. revert i. induction k as [|k IH]; intros [|i]; cbn; auto.
Qed.

Lemma norm_cells_missing_column k :
  norm_cells (repeat None k) = repeat None k.
Proof.
  unfold norm_cells.
  assert (P : present (repeat None k) = []) by (induction k; [reflexivity|exact IHk]).
  rewrite P. clear P. induction k as [|k IH]; [reflexivity|].
  cbn [repeat map]. f_equal. exact IH.
Qed.



(** X17. [df.empty] also holds of a frame that has rows and no column; the
    two assignments of the empty branch then raise [ValueError], a column
    of no cells not fitting the rows. *)
Theorem rows_without_columns_raise_ValueError :
  forall (argsort : list Q -> list nat) (df : DataFrame),
    columns df = [] -> nrows df <> 0%nat ->
    empty df = true /\ compute_value_scores argsort df = Raise ValueError.
Proof.
  intros argsort df C N. unfold compute_value_scores, empty. rewrite C.
  cbn [List.length Nat.eqb]. rewrite orb_true_r. split; [reflexivity|].
  unfold setitem. cbn [col_len List.length].
  destruct (Nat.eqb_spec 0 (nrows df)); [congruence|reflexivity].
Qed.

Lemma rows_without_columns_witness :
  empty (mkFrame 3 []) = true /\
  compute_value_scores Npy.aquicksort (mkFrame 3 []) = Raise ValueError.
Proof.
  apply rows_without_columns_raise_ValueError; [reflexivity|discriminate].
Defined.

(* ------------------------------------------------------------------ *)
(** ** Fetcher and scorer together *)

Lemma ranked_frame_names ix rows :
  rows <> [] ->
  col_names (ranked_frame ix rows) = (fetched_names ++ derived_names)%list.
Proof.
  intros N. unfold ranked_frame, scored_columns, col_names.
  rewrite nine_columns by exact N. reflexivity.
Qed.

Lemma put_lengths k name c cs :
  col_len c = k -> Forall (fun p => col_len (snd p) = k) cs ->
  Forall (fun p => col_len (snd p) = k) (put name c cs).
Proof.
  intros Hc F. induction F as [|[n c0] tl H F IH]; cbn [put].
  - constructor; [exact Hc|constructor].
  - destruct (String.eqb n name); constructor; assumption.
Qed.

Lemma ranked_frame_well_formed ix rows : well_formed (ranked_frame ix rows).
Proof.
  unfold well_formed, ranked_frame. cbn [nrows columns].
  apply put_lengths.
  - unfold value_rank_col. cbn [col_len]. rewrite length_map. apply length_seq.
  - apply Forall_forall. intros [n c] I. apply in_map_iff in I.
    destruct I as ([n0 c0] & E & _). injection E as <- <-. cbn [snd].
    destruct c0; cbn [take_col col_len]; unfold take_cells; apply length_map.
Qed.

(** X18. The frame returned for a batch of records has the nine fetched
    columns followed by [car_age], [price_norm], [depr_norm],
    [mileage_norm], [age_norm], [value_score] and [value_rank], each with
    one cell per row. *)
Theorem scored_frame_has_sixteen_columns :
  forall (argsort : list Q -> list nat) (rows : list ListingRecord),
    rows <> [] ->
    exists out,
      compute_value_scores argsort (DataFrame_of_rows rows) = Ok out /\
      col_names out = (fetched_names ++ derived_names)%list /\
      well_formed out.
Proof.
  intros argsort rows N. eexists. split; [apply scorer_run; exact N|].
  split; [apply ranked_frame_names; exact N|apply ranked_frame_well_formed].
Qed.

Lemma scored_frame_witness :
  exists out,
    compute_value_scores Npy.aquicksort (DataFrame_of_rows [car_B; car_A]) = Ok out /\
    col_names out = (fetched_names ++ derived_names)%list /\
    well_formed out.
Proof.
  apply (scored_frame_has_sixteen_columns Npy.aquicksort [car_B; car_A]). discriminate.
Defined.

(** X19. Scoring what the fetcher returns never raises, whatever the site
    answers; the scored frame has the columns [value_score] and
    [value_rank]. *)
Theorem scoring_a_fetched_frame_never_raises :
  forall (argsort : list Q -> list nat) (rnd : nat)
         (requests_get : request -> http_outcome)
         (bmin bmax : option Z) (make : option string) (max_results : Z),
    exists out,
      compute_value_scores argsort
        (fetch_used_cars_live rnd requests_get bmin bmax make max_results) = Ok out /\
      has_col "value_score" out = true /\ has_col "value_rank" out = true.
Proof.
  intros argsort rnd net bmin bmax make mx.
  assert (Z : exists out, compute_value_scores argsort DataFrame_new = Ok out /\
                has_col "value_score" out = true /\ has_col "value_rank" out = true).
  { eexists. split; [reflexivity|]. split; reflexivity. }
  unfold fetch_used_cars_live.
  destruct (net (build_request rnd bmin bmax make)) as [|st cards]; [exact Z|].
  destruct (negb (st =? 200)%Z); [exact Z|].
  destruct cards as [|c cs]; [exact Z|].
  pose proof (extract_rows_cons c cs [] mx) as L.
  assert (Hne : extract_rows (c :: cs) [] mx <> []).
  { intros E. rewrite E in L. cbn in L. lia. }
  eexists. split; [apply scorer_run; exact Hne|].
  rewrite !has_col_lookup, ranked_value_score, ranked_value_rank. split; reflexivity.
Qed.

(* ------------------------------------------------------------------ *)
(** ** The two directions of [norm_col] *)

Lemma norm_col_up df col x :
  float_column df col = Ok x -> List.length x = nrows df ->
  norm_col df col true =
  Ok (NumCol
        match present x with
        | [] => map (fun _ => None) x
        | v :: vs =>
            if Qeq_bool (list_max v vs) (list_min v vs)
            then map (fun o => if notna o then Some (1 # 2)%Q else None) x
            else map (option_map
                        (fun xi => (xi - list_min v vs) / (list_max v vs - list_min v vs))%Q) x
        end).
Proof.
  intros Hx Hlen. unfold norm_col. rewrite Hx. cbn [bind].
  destruct (present x) as [|v vs].
  - rewrite <- Hlen, repeat_map_const. reflexivity.
  - destruct (Qeq_bool (list_max v vs) (list_min v vs)); [|reflexivity].
    rewrite <- Hlen.
    rewrite <- (length_map notna x).
    rewrite (map_nth_seq (fun b : bool => if b then Some (1 # 2)%Q else None) false).
    rewrite map_map. reflexivity.
Qed.

(** X20. [norm_col] with [higher_is_better=True] gives, cell by cell, the
    complement of what it gives without: the two add up to 1 where the
    column has a value, and both are missing where it has none. *)
Theorem norm_col_directions_are_complements :
  forall (df : DataFrame) (col : string) (x : list (option Q)),
    float_column df col = Ok x ->
    List.length x = nrows df ->
    exists up down,
      norm_col df col true = Ok (NumCol up) /\
      norm_col df col false = Ok (NumCol down) /\
      forall i,
        match nth i up None, nth i down None with
        | Some u, Some v => nth i x None <> None /\ (u + v == 1)%Q
        | None, None => nth i x None = None
        | _, _ => False
        end.
Proof.
  intros df col x Hx Hlen.
  eexists. eexists.
  split; [exact (norm_col_up df col x Hx Hlen)|].
  split; [exact (norm_col_cells df col x Hx Hlen)|].
  intros i. unfold norm_cells.
  destruct (present x) as [|v vs] eqn:P.
  - rewrite !nth_map_none by reflexivity. apply present_nil_none. exact P.
  - destruct (Qeq_bool (list_max v vs) (list_min v vs)) eqn:E;
      rewrite !nth_map_none by reflexivity.
    + destruct (nth i x None) as [xi|]; cbn [notna]; [|reflexivity].
      split; [discriminate|reflexivity].
    + destruct (nth i x None) as [xi|]; cbn [option_map]; [|reflexivity].
      split; [discriminate|].
      pose proof (spread_pos v vs E) as S.
      field. intros Z. lra.
Qed.

Lemma norm_col_directions_witness :
  exists up down,
    norm_col (DataFrame_of_rows three_prices) "price_sgd" true = Ok (NumCol up) /\
    norm_col (DataFrame_of_rows three_prices) "price_sgd" false = Ok (NumCol down) /\
    forall i,
      match nth i up None, nth i down None with
      | Some u, Some v => nth i (prices three_prices) None <> None /\ (u + v == 1)%Q
      | None, None => nth i (prices three_prices) None = None
      | _, _ => False
      end.
Proof.
  apply (norm_col_directions_are_complements (DataFrame_of_rows three_prices)
           "price_sgd" (prices three_prices)); reflexivity.
Defined.

(* ------------------------------------------------------------------ *)
(** ** The page *)

Module AppFacts.
Import App.
Local Open Scope list_scope.

(** *** Numbers written and read back *)

Lemma digit_char d :
  (0 <= d < 10)%Z ->
  Re.is_digit (ascii_of_nat (48 + Z.to_nat d)) = true /\
  digit_val (ascii_of_nat (48 + Z.to_nat d)) = d.
Proof.
  intros H.
  assert (E : exists k, (k < 10)%nat /\ Z.to_nat d = k) by (exists (Z.to_nat d); lia).
  destruct E as (k & Hk & E).
  assert (D : d = Z.of_nat k) by lia. rewrite E, D. clear E D H d.
  do 10 (destruct k as [|k]; [split; reflexivity|]). lia.
Qed.

Lemma int_of_digits_app l acc :
  fold_left (fun a c => (a * 10 + digit_val c)%Z) l acc =
  (acc * 10 ^ Z.of_nat (List.length l) + int_of_digits l)%Z.
Proof.
  unfold int_of_digits. revert acc. induction l as [|c tl IH]; intros acc.
  - cbn. lia.
  - cbn [fold_left List.length]. rewrite IH, (IH (0 * 10 + digit_val c)%Z).
    rewrite Nat2Z.inj_succ, Z.pow_succ_r by lia. ring.
Qed.

Lemma int_of_digits_cons c l :
  int_of_digits (c :: l) = (digit_val c * 10 ^ Z.of_nat (List.length l) + int_of_digits l)%Z.
Proof.
  unfold int_of_digits at 1. cbn [fold_left]. rewrite int_of_digits_app. ring.
Qed.

(** [digits_from] writes [n] in front of [acc]. *)
Lemma digits_from_spec fuel : forall n acc,
  (0 <= n)%Z -> (n < 10 ^ Z.of_nat (S fuel))%Z ->
  exists ds,
    digits_from fuel n acc = ds ++ acc /\ ds <> [] /\
    forallb Re.is_digit ds = true /\ int_of_digits ds = n.
Proof.
  induction fuel as [|fuel IH]; intros n acc H0 H1.
  - cbn [digits_from]. change (10 ^ Z.of_nat 1)%Z with 10%Z in H1.
    rewrite Z.mod_small by lia.
    destruct (digit_char n ltac:(lia)) as [D1 D2].
    exists [ascii_of_nat (48 + Z.to_nat n)].
    split; [reflexivity|]. split; [discriminate|].
    split; [cbn [forallb]; rewrite D1; reflexivity|].
    rewrite int_of_digits_cons. cbn [List.length int_of_digits fold_left].
    rewrite D2. cbn. lia.
  - cbn [digits_from].
    assert (M : (0 <= n mod 10 < 10)%Z) by (apply Z.mod_pos_bound; lia).
    destruct (digit_char (n mod 10) M) as [D1 D2].
    destruct (Z.ltb_spec n 10) as [L|L].
    + rewrite Z.mod_small in * by lia.
      exists [ascii_of_nat (48 + Z.to_nat n)].
      split; [reflexivity|]. split; [discriminate|].
      split; [cbn [forallb]; rewrite D1; reflexivity|].
      rewrite int_of_digits_cons. cbn [List.length int_of_digits fold_left].
      rewrite D2. cbn. lia.
    + assert (Q0 : (0 <= n / 10)%Z) by (apply Z.div_pos; lia).
      assert (Q1 : (n / 10 < 10 ^ Z.of_nat (S fuel))%Z).
      { apply Z.div_lt_upper_bound; [lia|].
        rewrite (Nat2Z.inj_succ (S fuel)), Z.pow_succ_r in H1 by lia. exact H1. }
      destruct (IH (n / 10)%Z (ascii_of_nat (48 + Z.to_nat (n mod 10)) :: acc) Q0 Q1)
        as (ds & E & N & F & V).
      exists (ds ++ [ascii_of_nat (48 + Z.to_nat (n mod 10))]).
      split; [rewrite E, <- app_assoc; reflexivity|].
      split; [destruct ds; discriminate|].
      split; [rewrite forallb_app, F; cbn [forallb]; rewrite D1; reflexivity|].
      unfold int_of_digits. rewrite fold_left_app. cbn [fold_left].
      fold (int_of_digits ds). rewrite V, D2.
      pose proof (Z.div_mod n 10 ltac:(lia)). lia.
Qed.

Lemma digits_spec n :
  (0 <= n)%Z ->
  digits n <> [] /\ forallb Re.is_digit (digits n) = true /\ int_of_digits (digits n) = n.
Proof.
  intros H. unfold digits.
  assert (B : (n < 10 ^ Z.of_nat (S (Z.to_nat (Z.log2 n))))%Z).
  { destruct (Z.eq_dec n 0) as [->|N]; [reflexivity|].
    pose proof (Z.log2_nonneg n) as L0.
    pose proof (proj2 (Z.log2_spec n ltac:(lia))) as L.
    rewrite Nat2Z.inj_succ, Z2Nat.id by lia.
    eapply Z.lt_le_trans; [exact L|].
    apply Z.pow_le_mono_l. lia. }
  destruct (digits_from_spec _ n [] H B) as (ds & E & N & F & V).
  rewrite app_nil_r in E. rewrite E. repeat split; assumption.
Qed.

Lemma group3_digits : forall n l,
  (List.length l <= n)%nat ->
  filter Re.is_digit (group3 l) = filter Re.is_digit l.
Proof.
  induction n as [|n IH]; intros l H.
  - destruct l; [reflexivity|cbn in H; lia].
  - destruct l as [|a [|b [|c [|d tl]]]]; try reflexivity.
    change (group3 (a :: b :: c :: d :: tl))
      with (a :: b :: c :: ","%char :: group3 (d :: tl)).
    cbn [filter]. change (Re.is_digit ",") with false. cbv iota.
    rewrite (IH (d :: tl)) by (cbn [List.length] in *; lia).
    reflexivity.
Qed.

Lemma filter_rev {A} (p : A -> bool) l : filter p (rev l) = rev (filter p l).
Proof.
  induction l as [|x tl IH]; [reflexivity|].
  cbn [rev filter]. rewrite filter_app, IH. cbn [filter].
  destruct (p x); [reflexivity|apply app_nil_r].
Qed.

Lemma filter_digits l : forallb Re.is_digit l = true -> filter Re.is_digit l = l.
Proof.
  induction l as [|x tl IH]; [reflexivity|]. cbn. intros H.
  apply andb_true_iff in H. destruct H as [Hx Ht]. rewrite Hx, IH by exact Ht. reflexivity.
Qed.

Lemma int_commas_digits z :
  filter Re.is_digit (list_ascii_of_string (int_commas z)) = digits (Z.abs z).
Proof.
  unfold int_commas, signed. rewrite list_ascii_of_string_of_list_ascii.
  destruct (digits_spec (Z.abs z) (Z.abs_nonneg z)) as (_ & F & _).
  assert (E : filter Re.is_digit (rev (group3 (rev (digits (Z.abs z))))) = digits (Z.abs z)).
  { rewrite filter_rev, (group3_digits _ _ (Nat.le_refl _)), filter_rev, rev_involutive.
    apply filter_digits. exact F. }
  destruct (z <? 0)%Z; [|exact E].
  cbn [filter]. change (Re.is_digit "-") with false. cbv iota. exact E.
Qed.

(** *** Cells *)

Lemma nan_at_spec l k :
  nan_at l k = true <->
  nth k l None = None /\ exists j, nth j l None <> None.
Proof.
  unfold nan_at. rewrite andb_true_iff, negb_true_iff. split.
  - intros [A B]. split; [destruct (nth k l None); [discriminate|reflexivity]|].
    clear B. induction l as [|x tl IH]; [discriminate|].
    cbn [forallb] in A. destruct x as [q|].
    + exists 0%nat. discriminate.
    + destruct (IH A) as [j Hj]. exists (S j). exact Hj.
  - intros [A (j & Hj)]. split; [|rewrite A; reflexivity].
    destruct (forallb is_missing l) eqn:F; [|reflexivity].
    exfalso. apply Hj. rewrite forallb_forall in F.
    destruct (nth_in_or_default j l None) as [I|E]; [|exact E].
    specialize (F _ I). destruct (nth j l None); [discriminate|reflexivity].
Qed.

Lemma cell_fetched name l k :
  mem name fetched_names = true ->
  cell name (NumCol l) k =
  if forallb is_missing l then PyNone
  else match nth k l None with
       | None => PyFloat None
       | Some q =>
           if mem name int_columns && forallb (fun o => negb (is_missing o)) l
           then PyInt (Qfloor q) else PyFloat (Some q)
       end.
Proof. intros M. unfold cell. rewrite M, andb_true_r. reflexivity. Qed.

(** A line that goes through [int] raises exactly on [nan]. *)
Lemma int_line name l k (line : Z -> string) :
  mem name fetched_names = true ->
  exists lines,
    (if truthy (cell name (NumCol l) k)
     then (v <- Ok (cell name (NumCol l) k) ;; z <- int v ;; Ok [line z])
     else Ok []) =
    if nan_at l k then Raise ValueError else Ok lines.
Proof.
  intros M. rewrite (cell_fetched name l k M). unfold nan_at.
  destruct (forallb is_missing l); cbn [negb andb truthy].
  - exists []. reflexivity.
  - destruct (nth k l None) as [q|]; cbn [is_missing].
    + destruct (mem name int_columns && _); cbn [truthy].
      * destruct (negb (Qfloor q =? 0)%Z); eexists; reflexivity.
      * destruct (negb (Qeq_bool q 0)); eexists; reflexivity.
    + exists []. reflexivity.
Qed.

Section Lines.

Variable float_str : Q -> string.
Variable float_commas : Q -> string.

Lemma commas_line name l k (line : string -> string) :
  mem name fetched_names = true ->
  exists lines,
    (if truthy (cell name (NumCol l) k)
     then (v <- Ok (cell name (NumCol l) k) ;; s <- fmt_commas float_commas v ;;
           Ok [line s])
     else Ok []) = Ok lines.
Proof.
  intros M. rewrite (cell_fetched name l k M).
  destruct (forallb is_missing l); cbn [truthy].
  - exists []. reflexivity.
  - destruct (nth k l None) as [q|]; cbn [truthy].
    + destruct (mem name int_columns && _); cbn [truthy].
      * destruct (negb (Qfloor q =? 0)%Z); eexists; reflexivity.
      * destruct (negb (Qeq_bool q 0)); eexists; reflexivity.
    + eexists. reflexivity.
Qed.

Lemma get_found r name c d :
  lookup name (columns (frame r)) = Some c -> get r name d = cell name c (pos r).
Proof. intros H. unfold get. rewrite H. reflexivity. Qed.

Lemma item_found r name c :
  lookup name (columns (frame r)) = Some c -> item r name = Ok (cell name c (pos r)).
Proof. intros H. unfold item. rewrite H. reflexivity. Qed.

(** The rows of a frame that has the fetched columns and the two of the
    scorer. *)
Section Row.

Variable r : row.
Variables p m d y coe rank score : list (option Q).
Variables titles urls : list (option string).
Hypothesis Hp : lookup "price_sgd" (columns (frame r)) = Some (NumCol p).
Hypothesis Hm : lookup "mileage_km" (columns (frame r)) = Some (NumCol m).
Hypothesis Hd : lookup "depreciation_per_year" (columns (frame r)) = Some (NumCol d).
Hypothesis Hy : lookup "year" (columns (frame r)) = Some (NumCol y).
Hypothesis Hc : lookup "coe_left_years" (columns (frame r)) = Some (NumCol coe).
Hypothesis Ht : lookup "title" (columns (frame r)) = Some (ObjCol titles).
Hypothesis Hu : lookup "listing_url" (columns (frame r)) = Some (ObjCol urls).
Hypothesis Hr : lookup "value_rank" (columns (frame r)) = Some (NumCol rank).
Hypothesis Hs : lookup "value_score" (columns (frame r)) = Some (NumCol score).
Hypothesis Hrank : exists z, nth (pos r) rank None = Some (inject_Z z).
Hypothesis Hfull : forallb (fun o => negb (is_missing o)) rank = true.

Lemma details_lines_run :
  exists lines,
    details_lines float_str float_commas r =
    if nan_row m d y (pos r) then Raise ValueError else Ok lines.
Proof.
  unfold details_lines, nan_row.
  rewrite (get_found r _ _ _ Hp), (get_found r _ _ _ Hm), (get_found r _ _ _ Hd),
    (get_found r _ _ _ Hy), (get_found r _ _ _ Hc).
  rewrite (item_found r _ _ Hp), (item_found r _ _ Hm), (item_found r _ _ Hd),
    (item_found r _ _ Hy), (item_found r _ _ Hc).
  destruct (commas_line "price_sgd" p (pos r)
              (fun s => "💰 Price: **$" ++ s ++ "**")%string eq_refl) as (l1 & ->).
  destruct (int_line "mileage_km" m (pos r)
              (fun z => "🚘 Mileage: **" ++ int_commas z ++ " km**")%string eq_refl)
    as (l2 & ->).
  destruct (int_line "depreciation_per_year" d (pos r)
              (fun z => "📉 Depreciation: **$" ++ int_commas z ++ "/yr**")%string eq_refl)
    as (l3 & ->).
  destruct (int_line "year" y (pos r)
              (fun z => "📅 Year: **" ++ int_str z ++ "**")%string eq_refl)
    as (l4 & ->).
  cbn [bind].
  destruct (nan_at m (pos r)); cbn [bind orb]; [exists []; reflexivity|].
  destruct (nan_at d (pos r)); cbn [bind orb]; [exists []; reflexivity|].
  destruct (nan_at y (pos r)); cbn [bind orb]; [exists []; reflexivity|].
  destruct (cell "coe_left_years" (NumCol coe) (pos r)); eexists; reflexivity.
Qed.

Lemma card_of_run :
  exists shown,
    card_of float_str float_commas r =
    (shown, if nan_row m d y (pos r) then Some ValueError else None).
Proof.
  unfold card_of.
  rewrite (item_found r _ _ Hr), (item_found r _ _ Hs). cbn [bind].
  assert (R : exists z, int (cell "value_rank" (NumCol rank) (pos r)) = Ok z).
  { destruct Hrank as (z & E). unfold cell.
    change (mem "value_rank" fetched_names) with false. rewrite andb_false_r, E.
    change (mem "value_rank" int_columns) with true. rewrite Hfull. cbn [andb int].
    eexists. reflexivity. }
  destruct R as (z & ->).
  destruct details_lines_run as (lines & ->).
  destruct (nan_row m d y (pos r)); [eexists; reflexivity|].
  rewrite (get_found r _ _ _ Hu), (item_found r _ _ Hu).
  destruct (truthy (cell "listing_url" (ObjCol urls) (pos r))); eexists; reflexivity.
Qed.

End Row.

End Lines.

(** *** The scored frame of a batch, row by row *)

Section Batch.

Variable float_str : Q -> string.
Variable float_commas : Q -> string.
Variable rows : list ListingRecord.
Variable ix : list nat.
Hypothesis Hne : rows <> [].

Let out := ranked_frame ix rows.

Lemma out_raw name c :
  lookup name (columns (DataFrame_of_rows rows)) = Some c ->
  lookup name (columns out) = Some (take_col ix c).
Proof. apply ranked_carried. Qed.

Lemma rank_cells_full n :
  forallb (fun o : option Q => negb (is_missing o))
          (map (fun i => Some (inject_Z (Z.of_nat i + 1))) (seq 0 n)) = true.
Proof.
  apply forallb_forall. intros o I. apply in_map_iff in I.
  destruct I as (i & <- & _). reflexivity.
Qed.

Lemma rank_cells_nth n k :
  (k < n)%nat ->
  exists z, nth k (map (fun i => Some (inject_Z (Z.of_nat i + 1))) (seq 0 n)) None =
            Some (inject_Z z).
Proof.
  intros H. exists (Z.of_nat k + 1)%Z.
  rewrite (nth_indep _ None (Some (inject_Z (Z.of_nat 0 + 1))))
    by (rewrite length_map, length_seq; exact H).
  rewrite (map_nth (fun i => Some (inject_Z (Z.of_nat i + 1)))).
  rewrite seq_nth by exact H. reflexivity.
Qed.

Lemma card_of_out k :
  (k < List.length ix)%nat ->
  exists shown,
    card_of float_str float_commas (iloc out k) =
    (shown, if nan_in rows ix k then Some ValueError else None).
Proof.
  intros H. unfold nan_in.
  pose proof (nine_columns rows Hne) as N.
  eapply (card_of_run float_str float_commas (iloc out k)).
  - apply (out_raw "price_sgd" (NumCol (prices rows))). rewrite N. reflexivity.
  - apply (out_raw "mileage_km" (NumCol (mileages rows))). rewrite N. reflexivity.
  - apply (out_raw "depreciation_per_year" (NumCol (depreciations rows))).
    rewrite N. reflexivity.
  - apply (out_raw "year" (NumCol (map (fun r => num_of (year r)) rows))).
    rewrite N. reflexivity.
  - apply (out_raw "coe_left_years" (NumCol (map coe_left_years rows))).
    rewrite N. reflexivity.
  - apply (out_raw "listing_url" (ObjCol (map listing_url rows))). rewrite N. reflexivity.
  - apply ranked_value_rank.
  - apply ranked_value_score.
  - apply rank_cells_nth. exact H.
  - apply rank_cells_full.
Qed.

Lemma cards_of_out ks :
  (forall k, In k ks -> (k < List.length ix)%nat) ->
  exists shown,
    cards_of float_str float_commas (map (iloc out) ks) =
    (shown, if existsb (nan_in rows ix) ks then Some ValueError else None).
Proof.
  induction ks as [|k tl IH]; intros B.
  - exists []. reflexivity.
  - cbn [map cards_of existsb].
    destruct (card_of_out k (B k (or_introl eq_refl))) as (shown & ->).
    destruct (nan_in rows ix k); cbn [orb]; [exists shown; reflexivity|].
    destruct (IH (fun k' I => B k' (or_intror I))) as (more & ->).
    eexists. reflexivity.
Qed.

End Batch.

(** *** The run of the page *)

Lemma fetched_rows rnd net bmin bmax mk mx :
  empty (fetch_used_cars_live rnd net bmin bmax mk mx) = false ->
  exists rows,
    rows <> [] /\ fetch_used_cars_live rnd net bmin bmax mk mx = DataFrame_of_rows rows.
Proof.
  unfold fetch_used_cars_live.
  destruct (net (build_request rnd bmin bmax mk)) as [|st cards]; [discriminate|].
  destruct (negb (st =? 200)%Z); [discriminate|].
  destruct cards as [|c cs]; [discriminate|]. intros _.
  exists (extract_rows (c :: cs) [] mx). split; [|reflexivity].
  pose proof (extract_rows_cons c cs [] mx) as L.
  intros E. rewrite E in L. cbn in L. lia.
Qed.

Lemma nan_in_spec rows ix k :
  rows <> [] ->
  nan_in rows ix k = true <->
  exists col, In col ["mileage_km"; "depreciation_per_year"; "year"]%string /\
              partly_missing (ranked_frame ix rows) col k.
Proof.
  intros Hne. unfold nan_in, nan_row, partly_missing.
  pose proof (nine_columns rows Hne) as N.
  assert (Cm : num_cells "mileage_km" (ranked_frame ix rows) =
               take_cells ix (mileages rows)).
  { unfold num_cells.
    rewrite (ranked_carried ix rows "mileage_km" (NumCol (mileages rows)));
      [reflexivity|rewrite N; reflexivity]. }
  assert (Cd : num_cells "depreciation_per_year" (ranked_frame ix rows) =
               take_cells ix (depreciations rows)).
  { unfold num_cells.
    rewrite (ranked_carried ix rows "depreciation_per_year" (NumCol (depreciations rows)));
      [reflexivity|rewrite N; reflexivity]. }
  assert (Cy : num_cells "year" (ranked_frame ix rows) =
               take_cells ix (map (fun r => num_of (year r)) rows)).
  { unfold num_cells.
    rewrite (ranked_carried ix rows "year"
               (NumCol (map (fun r => num_of (year r)) rows)));
      [reflexivity|rewrite N; reflexivity]. }
  rewrite !orb_true_iff, !nan_at_spec. split.
  - intros [[H|H]|H].
    + exists "mileage_km"%string. rewrite Cm. split; [cbn; tauto|exact H].
    + exists "depreciation_per_year"%string. rewrite Cd. split; [cbn; tauto|exact H].
    + exists "year"%string. rewrite Cy. split; [cbn; tauto|exact H].
  - intros (col & [<-|[<-|[<-|[]]]] & H).
    + rewrite Cm in H. tauto.
    + rewrite Cd in H. tauto.
    + rewrite Cy in H. tauto.
Qed.

Section Run.

Variable float_str : Q -> string.
Variable float_commas : Q -> string.
Variable argsort : list Q -> list nat.
Variable rnd : nat.
Variable requests_get : request -> http_outcome.
Variable chat : string -> option string.
Variable env : environment.

Lemma price_cell_commas rows ix k :
  rows <> [] ->
  fmt_commas float_commas (get (iloc (ranked_frame ix rows) k) "price_sgd" PyNone) =
    Raise TypeError \/
  exists s, fmt_commas float_commas
              (get (iloc (ranked_frame ix rows) k) "price_sgd" PyNone) = Ok s.
Proof.
  intros Hne.
  rewrite (get_found _ "price_sgd" (NumCol (take_cells ix (prices rows)))).
  2:{ apply (ranked_carried ix rows "price_sgd" (NumCol (prices rows))).
      rewrite (nine_columns rows Hne). reflexivity. }
  rewrite cell_fetched by reflexivity.
  destruct (forallb is_missing (take_cells ix (prices rows))); [left; reflexivity|].
  right. cbn [iloc pos].
  destruct (nth k (take_cells ix (prices rows)) None); [|eexists; reflexivity].
  destruct (mem "price_sgd" int_columns && _); eexists; reflexivity.
Qed.

Lemma car_summaries_raise rows ix ks e :
  rows <> [] ->
  car_summaries float_str float_commas (map (iloc (ranked_frame ix rows)) ks) = Raise e ->
  e = TypeError.
Proof.
  intros Hne. induction ks as [|k tl IH]; cbn [map car_summaries]; [discriminate|].
  unfold car_summary at 1.
  destruct (price_cell_commas rows ix k Hne) as [-> | (s & ->)]; cbn [bind].
  - intros E. injection E as <-. reflexivity.
  - destruct (car_summaries float_str float_commas (map (iloc (ranked_frame ix rows)) tl));
      cbn [bind]; [discriminate|].
    intros E. apply IH. exact E.
Qed.

Lemma explanation_ending rows ix s :
  rows <> [] ->
  snd (explanation float_str float_commas chat env s (ranked_frame ix rows)) <>
  Raised ValueError.
Proof.
  intros Hne. unfold explanation.
  destruct (OPENAI_AVAILABLE env && truthy_str (OPENAI_API_KEY env)); [|discriminate].
  destruct (explain_btn s); [|discriminate].
  unfold get_llm_recommendation.
  destruct (negb (OPENAI_AVAILABLE env) || negb (truthy_str (OPENAI_API_KEY env)) ||
            empty (ranked_frame ix rows)); [discriminate|].
  cbv zeta.
  destruct (car_summaries float_str float_commas _) as [lines|e] eqn:C.
  - destruct (chat _); discriminate.
  - apply car_summaries_raise in C; [|exact Hne]. subst e. discriminate.
Qed.

Lemma main_ending rows s :
  search_btn s = true -> rows <> [] ->
  fetched rnd requests_get s = DataFrame_of_rows rows ->
  let ix := nargsort_desc argsort (value_scores rows) in
  let out := ranked_frame ix rows in
  snd (main float_str float_commas argsort rnd requests_get chat env s) =
  if existsb (nan_in rows ix) (seq 0 (Nat.min 10 (nrows out)))
  then Raised ValueError
  else snd (explanation float_str float_commas chat env s out).
Proof.
  intros B Hne F ix out. unfold main. rewrite B. cbn [negb]. rewrite F.
  replace (empty (DataFrame_of_rows rows)) with false
    by (destruct rows; [congruence|reflexivity]).
  rewrite (scorer_run argsort rows Hne). fold ix. subst out.
  destruct (cards_of_out float_str float_commas rows ix Hne
              (seq 0 (Nat.min 10 (nrows (ranked_frame ix rows))))) as (shown & ->).
  { intros k I. apply in_seq in I. unfold ranked_frame in I. cbn [nrows] in I. lia. }
  destruct (existsb _ _); [reflexivity|].
  destruct (explanation float_str float_commas chat env s (ranked_frame ix rows));
    reflexivity.
Qed.

End Run.

End AppFacts.

Import AppFacts.

(** X21. Once the search has returned cars, the page raises [ValueError]
    exactly when one of the first ten rows of the ranking has no mileage,
    no depreciation or no year while another record of the batch has one:
    the cell is [nan], which is true and which [int] does not convert.
    Otherwise, and as long as no explanation is asked for, the run comes
    to its end. *)
Theorem page_raises_ValueError_on_a_nan_cell :
  forall (float_str float_commas : Q -> string) (argsort : list Q -> list nat)
         (rnd : nat) (requests_get : request -> http_outcome)
         (chat : string -> option string) (env : App.environment) (s : App.session),
    App.search_btn s = true ->
    empty (App.fetched rnd requests_get s) = false ->
    exists out,
      compute_value_scores argsort (App.fetched rnd requests_get s) = Ok out /\
      let ending :=
        snd (App.main float_str float_commas argsort rnd requests_get chat env s) in
      let nan_shown :=
        exists k col,
          (k < Nat.min 10 (nrows out))%nat /\
          In col ["mileage_km"; "depreciation_per_year"; "year"] /\
          App.partly_missing out col k in
      (nan_shown <-> ending = App.Raised ValueError) /\
      (~ nan_shown -> App.explain_btn s = false -> ending = App.Returned).
Proof.
  intros float_str float_commas argsort rnd net chat env s B E.
  destruct (fetched_rows _ _ _ _ _ _ E) as (rows & Hne & F).
  fold (App.fetched rnd net s) in F.
  set (ix := nargsort_desc argsort (value_scores rows)).
  exists (ranked_frame ix rows).
  split; [rewrite F; apply scorer_run; exact Hne|].
  cbv zeta.
  rewrite (main_ending float_str float_commas argsort rnd net chat env rows s B Hne F).
  fold ix.
  assert (X : existsb (App.nan_in rows ix) (seq 0 (Nat.min 10 (nrows (ranked_frame ix rows))))
              = true <->
              exists k col,
                (k < Nat.min 10 (nrows (ranked_frame ix rows)))%nat /\
                In col ["mileage_km"; "depreciation_per_year"; "year"] /\
                App.partly_missing (ranked_frame ix rows) col k).
  { rewrite existsb_exists. split.
    - intros (k & I & N). apply in_seq in I.
      apply (nan_in_spec rows ix k Hne) in N. destruct N as (col & C & P).
      exists k, col. repeat split; [lia|exact C|apply P|apply P].
    - intros (k & col & L & C & P). exists k. split; [apply in_seq; lia|].
      apply (nan_in_spec rows ix k Hne). exists col. split; assumption. }
  destruct (existsb _ _) eqn:N.
  - split; [split; [reflexivity|intros _; apply X; reflexivity]|].
    intros A. exfalso. apply A. apply X. reflexivity.
  - split.
    + split; [intros A; apply X in A; discriminate|].
      intros A. exfalso.
      exact (explanation_ending float_str float_commas chat env rows ix s Hne A).
    + intros _ Ex. unfold App.explanation. rewrite Ex.
      destruct (App.OPENAI_AVAILABLE env && truthy_str (App.OPENAI_API_KEY env));
        reflexivity.
Qed.

Lemma page_raises_witness :
  exists out,
    compute_value_scores Npy.aquicksort (App.fetched 0 two_card_site first_search) = Ok out /\
    let ending :=
      snd (App.main (fun _ => "") (fun _ => "") Npy.aquicksort 0 two_card_site
                    (fun _ => None) no_openai first_search) in
    let nan_shown :=
      exists k col,
        (k < Nat.min 10 (nrows out))%nat /\
        In col ["mileage_km"; "depreciation_per_year"; "year"] /\
        App.partly_missing out col k in
    (nan_shown <-> ending = App.Raised ValueError) /\
    (~ nan_shown -> App.explain_btn first_search = false -> ending = App.Returned).
Proof.
  apply (page_raises_ValueError_on_a_nan_cell (fun _ => "") (fun _ => "") Npy.aquicksort
           0 two_card_site (fun _ => None) no_openai first_search).
  - reflexivity.
  - vm_compute. reflexivity.
Defined.

(** On the page of two cards the run does raise. *)
Example two_cards_raise :
  snd (App.main (fun _ => "") (fun _ => "") Npy.aquicksort 0 two_card_site
                (fun _ => None) no_openai first_search) = App.Raised ValueError.
Proof. vm_compute. reflexivity. Qed.



(** X23. Asked to explain a batch in which no record has a price, the
    helper raises [TypeError] before the client is called: the price
    column holds [None], which has no format with thousands separators. *)
Theorem explanation_raises_TypeError_without_any_price :
  forall (float_str float_commas : Q -> string) (argsort : list Q -> list nat)
         (chat : string -> option string) (env : App.environment)
         (rows : list ListingRecord) (user_profile : list (string * string)),
    sorts argsort (sort_call rows) ->
    rows <> [] ->
    (forall r, In r rows -> price_sgd r = None) ->
    App.OPENAI_AVAILABLE env = true ->
    truthy_str (App.OPENAI_API_KEY env) = true ->
    exists out,
      compute_value_scores argsort (DataFrame_of_rows rows) = Ok out /\
      App.get_llm_recommendation float_str float_commas chat env out user_profile =
        inr (App.Raised TypeError).
Proof.
  intros float_str float_commas argsort chat env rows profile Hok Hne Hp A K.
  set (ix := nargsort_desc argsort (value_scores rows)).
  exists (ranked_frame ix rows). split; [apply scorer_run; exact Hne|].
  unfold App.get_llm_recommendation. rewrite A, K. cbn [negb orb].
  assert (L : List.length ix = List.length rows) by (apply ix_length; exact Hok).
  assert (E : empty (ranked_frame ix rows) = false).
  { unfold empty, ranked_frame. cbn [nrows columns]. rewrite L.
    destruct rows as [|r tl]; [congruence|]. cbn [List.length Nat.eqb orb].
    match goal with
    | |- (List.length (put ?n ?c ?cs) =? 0)%nat = false =>
        destruct cs as [|[n0 c0] cs0]; cbn [put]; [reflexivity|];
        destruct (String.eqb n0 n); reflexivity
    end. }
  rewrite E. cbv zeta.
  assert (N : exists n, Nat.min 3 (nrows (ranked_frame ix rows)) = S n).
  { unfold ranked_frame. cbn [nrows]. rewrite L.
    destruct rows as [|r tl]; [congruence|]. cbn [List.length].
    exists (Nat.min 2 (List.length tl)). reflexivity. }
  destruct N as (n & ->). cbn [seq map App.car_summaries].
  unfold App.car_summary at 1.
  rewrite (get_found _ "price_sgd" (NumCol (take_cells ix (prices rows)))).
  2:{ apply (ranked_carried ix rows "price_sgd" (NumCol (prices rows))).
      rewrite (nine_columns rows Hne). reflexivity. }
  rewrite cell_fetched by reflexivity.
  assert (M : forallb App.is_missing (take_cells ix (prices rows)) = true).
  { apply forallb_forall. intros o I. unfold take_cells in I. apply in_map_iff in I.
    destruct I as (i & <- & _).
    destruct (nth_in_or_default i (prices rows) None) as [I|Ei];
      [|rewrite Ei; reflexivity].
    destruct (nth i (prices rows) None) as [q|] eqn:Q; [|reflexivity].
    unfold prices in I. apply in_map_iff in I. destruct I as (r & Er & Ir).
    rewrite (Hp r Ir) in Er. discriminate. }
  rewrite M. reflexivity.
Qed.

Lemma explanation_TypeError_witness :
  exists out,
    compute_value_scores Npy.aquicksort (DataFrame_of_rows [bare "a"; bare "b"]) = Ok out /\
    App.get_llm_recommendation (fun _ => "") (fun _ => "") (fun _ => Some "fine")
      with_openai out [] = inr (App.Raised TypeError).
Proof.
  apply (explanation_raises_TypeError_without_any_price (fun _ => "") (fun _ => "")
           Npy.aquicksort (fun _ => Some "fine") with_openai [bare "a"; bare "b"] []).
  - apply sortsb_sound. vm_compute. reflexivity.
  - discriminate.
  - intros r [<-|[<-|[]]]; reflexivity.
  - reflexivity.
  - reflexivity.
Defined.

(** X24. What [format(n, ",")] writes for an [int], [_to_int] reads back,
    but for the sign, which it drops. *)
Theorem to_int_reads_back_thousands :
  forall (z : Z), _to_int (Some (App.int_commas z)) = Some (Z.abs z).
Proof.
  intros z.
  destruct (digits_spec (Z.abs z) (Z.abs_nonneg z)) as (N & F & V).
  pose proof (int_commas_digits z) as E.
  unfold _to_int.
  destruct (App.int_commas z) as [|c tl] eqn:S.
  - cbn in E. congruence.
  - rewrite E. destruct (App.digits (Z.abs z)) as [|d ds] eqn:D; [congruence|].
    rewrite V. reflexivity.
Qed.

Example thousands_written :
  App.int_commas 58000 = "58,000" /\ App.int_commas 1234567 = "1,234,567" /\
  App.int_commas 999 = "999" /\ App.int_commas 0 = "0" /\
  App.int_commas (-4500) = "-4,500" /\ App.int_str 2019 = "2019".
Proof. repeat split; vm_compute; reflexivity. Qed.

(** X25. The card of row [k] of the ranking is headed by its rank [k + 1]
    and its title; a record without title is headed [None]: the column is
    there, so the default [(No title)] is never shown. *)
Theorem card_is_headed_by_rank_and_title :
  forall (float_str float_commas : Q -> string) (argsort : list Q -> list nat)
         (rows : list ListingRecord) (k : nat),
    sorts argsort (sort_call rows) ->
    (k < List.length rows)%nat ->
    exists out rest,
      compute_value_scores argsort (DataFrame_of_rows rows) = Ok out /\
      fst (App.card_of float_str float_commas (App.iloc out k)) =
      App.StMarkdown
        ("### #" ++ App.int_str (Z.of_nat (S k)) ++ " – " ++
         match nth k (obj_cells "title" out) None with
         | Some t => t
         | None => "None"
         end) :: rest.
Proof.
  intros float_str float_commas argsort rows k Hok Hk.
  assert (Hne : rows <> []) by (intros ->; cbn in Hk; lia).
  set (ix := nargsort_desc argsort (value_scores rows)).
  assert (L : List.length ix = List.length rows) by (apply ix_length; exact Hok).
  pose proof (nine_columns rows Hne) as N.
  assert (T : lookup "title" (columns (ranked_frame ix rows)) =
              Some (ObjCol (take_cells ix (map title rows)))).
  { apply (ranked_carried ix rows "title" (ObjCol (map title rows))).
    rewrite N. reflexivity. }
  assert (R : (rank <- App.item (App.iloc (ranked_frame ix rows) k) "value_rank" ;;
               App.int rank) = Ok (Z.of_nat (S k))).
  { rewrite (item_found (App.iloc (ranked_frame ix rows) k) "value_rank" _
               (ranked_value_rank ix rows)). cbn [bind].
    unfold App.cell, value_rank_col. cbn [App.iloc App.pos].
    change (App.mem "value_rank" fetched_names) with false. rewrite andb_false_r.
    rewrite (nth_indep _ None (Some (inject_Z (Z.of_nat 0 + 1))))
      by (rewrite length_map, length_seq; lia).
    rewrite (map_nth (fun i => Some (inject_Z (Z.of_nat i + 1)))).
    rewrite seq_nth by lia.
    change (App.mem "value_rank" App.int_columns) with true.
    rewrite rank_cells_full. cbn [andb App.int Nat.add].
    rewrite Qfloor_Z. f_equal. lia. }
  exists (ranked_frame ix rows).
  assert (O : obj_cells "title" (ranked_frame ix rows) = take_cells ix (map title rows)).
  { unfold obj_cells. rewrite T. reflexivity. }
  rewrite O.
  assert (G : App.fmt float_str
                (App.get (App.iloc (ranked_frame ix rows) k) "title" (App.PyStr "(No title)")) =
              match nth k (take_cells ix (map title rows)) None with
              | Some t => t
              | None => "None"
              end).
  { rewrite (get_found (App.iloc (ranked_frame ix rows) k) "title" _ _ T).
    cbn [App.cell App.iloc App.pos].
    destruct (nth k (take_cells ix (map title rows)) None); reflexivity. }
  unfold App.card_of. rewrite R, G.
  destruct (App.item _ "value_score") as [sc|e];
    [|eexists; split; [apply scorer_run; exact Hne|reflexivity]].
  destruct (App.details_lines _ _ _) as [lines|e];
    [|eexists; split; [apply scorer_run; exact Hne|reflexivity]].
  match goal with
  | |- context [if ?b then _ else _] => destruct b
  end; cbn [bind];
    try (destruct (App.item _ "listing_url"); cbn [bind]);
    eexists; (split; [apply scorer_run; exact Hne|reflexivity]).
Qed.

Lemma card_heading_witness :
  exists out rest,
    compute_value_scores Npy.aquicksort (DataFrame_of_rows [bare "a"; car_A]) = Ok out /\
    fst (App.card_of (fun _ => "") (fun _ => "") (App.iloc out 1)) =
    App.StMarkdown
      ("### #" ++ App.int_str (Z.of_nat 2) ++ " – " ++
       match nth 1 (obj_cells "title" out) None with
       | Some t => t
       | None => "None"
       end) :: rest.
Proof.
  apply (card_is_headed_by_rank_and_title (fun _ => "") (fun _ => "") Npy.aquicksort
           [bare "a"; car_A] 1).
  - apply sortsb_sound. vm_compute. reflexivity.
  - cbn. lia.
Defined.
